(** * Exact inference by belief propagation on factor graphs

    A shallow embedding of the notebook [04_exact_inference.ipynb]: labelled
    arrays ([Distribution], [multiply]), the bipartite factor graph ([Node],
    [Variable], [Factor], the model-string parser, [PGM]) and the message
    engine ([Messages]).

    Python objects live in a heap of objects addressed by location, so that
    aliasing and in-place mutation ([neighbors.append], [factor.data = ...],
    [self.messages[...] = ...]) are visible.  A Python function becomes a
    heap-passing computation that either returns a value or raises; the heap
    it leaves behind is kept in both cases, as in Python, where an exception
    does not undo the assignments made before it. *)

From Stdlib Require Import Ascii String Floats.
From stdpp Require Import base option list strings gmap.

Set Default Proof Using "Type".
Set Warnings "-inexact-float".
Open Scope string_scope.
Open Scope list_scope.
Open Scope nat_scope.

(** ** Values, exceptions, objects *)

(** Locations are indices into the heap. *)
Abbreviation loc := nat (only parsing).

(** The Python values the notebook passes around: [None], strings and
    references to objects. *)
Inductive val :=
| VNone
| VStr (s : string)
| VRef (l : loc).

Global Instance val_eq_dec : EqDecision val.
Proof. solve_decision. Defined.

(** The exceptions the code can raise.  The two [ValueError]s of
    [PGM.set_distributions] carry the values their message is formatted from;
    the [ValueError]s of numpy and of tuple unpacking carry nothing. *)
Inductive exn :=
| KeyError (key : string)
| KeyError_edge (sender receiver : string)
| AssertionError
| TypeError
| AttributeError
| IndexError
| StopIteration
| ValueError_missing_axes (factor : string) (missing_axes : gset string)
| ValueError_wrong_size (factor : string) (dim expected : nat)
| ValueError_unpack
| ValueError_reshape
| ValueError_broadcast.

(** A numpy array of float64: its shape and its values in row-major order. *)
Record ndarray := Ndarray { shape : list nat; flat : list float }.

Inductive cls := CNode | CVariable | CFactor.

Global Instance cls_eq_dec : EqDecision cls.
Proof. solve_decision. Defined.

(** Objects.  A node carries its class, [name] and [neighbors]; its field
    [data] is [Some v] when the instance has an attribute [data] of value
    [v] ([Factor.__init__] sets it to Python's [None], which is [Some VNone])
    and is [None] when it has no such attribute.  A [Distribution] refers to
    its array; the list of its labels is never mutated by the code and is
    kept in the object.  [computed] of a [Messages] object is a ghost field,
    absent from the source and never read by it: the directed edges whose
    message the engine has computed and stored, latest first. *)
Inductive obj :=
| ONode (c : cls) (name : string) (neighbors : list val) (data : option val)
| ODistribution (probs : val) (axes_labels : list string)
| ONdarray (a : ndarray)
| OMessages (messages : gmap (string * string) val)
            (computed : list (string * string)).

(** The heap: objects are only ever added at its end, never freed. *)
Abbreviation heap := (list obj) (only parsing).

(** ** Computations *)

Inductive result (A : Type) :=
| Ok (a : A)
| Raise (e : exn).
Arguments Ok {A} a.
Arguments Raise {A} e.

Definition py (A : Type) : Type := heap → result A * heap.

Definition ret {A} (a : A) : py A := λ h, (Ok a, h).
Definition raise {A} (e : exn) : py A := λ h, (Raise e, h).
Definition bind {A B} (m : py A) (k : A → py B) : py B :=
  λ h, match m h with
       | (Ok a, h') => k a h'
       | (Raise e, h') => (Raise e, h')
       end.

Notation "'let*' x ':=' m 'in' k" := (bind m (λ x, k))
  (at level 10, x pattern, m at level 100, k at level 200,
   format "'[v' 'let*'  x  ':='  m  'in' '/' k ']'").

Definition is_raise {A} (r : result A) : bool :=
  match r with Raise _ => true | Ok _ => false end.

(** [ClassName(...)]: a new object, at a location not in use. *)
Definition alloc (o : obj) : py val := λ h, (Ok (VRef (length h)), h ++ [o]).

Definition deref (v : val) (h : heap) : option obj :=
  match v with VRef l => h !! l | _ => None end.

(** A computation that only reads the heap. *)
Definition read {A} (f : heap → result A) : py A := λ h, (f h, h).

Definition lift {A} (r : result A) : py A := λ h, (r, h).

(** Attribute reads; a value without the attribute raises [AttributeError]. *)
Definition name_of (v : val) (h : heap) : result string :=
  match deref v h with
  | Some (ONode _ name _ _) => Ok name
  | _ => Raise AttributeError
  end.

Definition neighbors_of (v : val) (h : heap) : result (list val) :=
  match deref v h with
  | Some (ONode _ _ neighbors _) => Ok neighbors
  | _ => Raise AttributeError
  end.

Definition data_of (v : val) (h : heap) : result val :=
  match deref v h with
  | Some (ONode _ _ _ (Some d)) => Ok d
  | _ => Raise AttributeError
  end.

Definition probs_of (v : val) (h : heap) : result val :=
  match deref v h with
  | Some (ODistribution probs _) => Ok probs
  | _ => Raise AttributeError
  end.

Definition axes_labels_of (v : val) (h : heap) : result (list string) :=
  match deref v h with
  | Some (ODistribution _ axes_labels) => Ok axes_labels
  | _ => Raise AttributeError
  end.

(** The array behind an attribute of [probs] that only an array has
    ([shape], [ndim], [reshape]). *)
Definition array_of (v : val) (h : heap) : result ndarray :=
  match deref v h with
  | Some (ONdarray a) => Ok a
  | _ => Raise AttributeError
  end.

Definition messages_of (v : val) (h : heap)
  : result (gmap (string * string) val) :=
  match deref v h with
  | Some (OMessages messages _) => Ok messages
  | _ => Raise AttributeError
  end.

(** [v.name for v in vs], left to right. *)
Fixpoint names_of (vs : list val) (h : heap) : result (list string) :=
  match vs with
  | [] => Ok []
  | v :: vs' =>
      match name_of v h with
      | Raise e => Raise e
      | Ok n =>
          match names_of vs' h with
          | Raise e => Raise e
          | Ok ns => Ok (n :: ns)
          end
      end
  end.

Definition get_name (v : val) : py string := read (name_of v).
Definition get_neighbors (v : val) : py (list val) := read (neighbors_of v).
Definition get_data (v : val) : py val := read (data_of v).
Definition get_probs (v : val) : py val := read (probs_of v).
Definition get_axes_labels (v : val) : py (list string) :=
  read (axes_labels_of v).
Definition get_array (v : val) : py ndarray := read (array_of v).
Definition get_messages (v : val) : py (gmap (string * string) val) :=
  read (messages_of v).
Definition get_names (vs : list val) : py (list string) := read (names_of vs).

(** [d[key]] on a dict keyed by strings. *)
Definition dict_get {A} (d : gmap string A) (key : string) : py A :=
  match d !! key with
  | Some a => ret a
  | None => raise (KeyError key)
  end.

(** ** Nodes: [Node], [Variable], [Factor] *)

(** [isinstance(v, C)] for one of the two leaf classes: no class of the
    notebook derives from [Variable] or [Factor]. *)
Definition isinstance (h : heap) (v : val) (c : cls) : bool :=
  match deref v h with
  | Some (ONode c' _ _ _) => bool_decide (c' = c)
  | _ => false
  end.

(** [Variable(name)]: [Node.__init__]. *)
Definition new_Variable (name : string) : py val :=
  alloc (ONode CVariable name [] None).

(** [Factor(name)]: [Node.__init__], then [self.data = None]. *)
Definition new_Factor (name : string) : py val :=
  alloc (ONode CFactor name [] (Some VNone)).

(** [self.is_valid_neighbor(neighbor)], dispatched on the class of [self].
    [Node.is_valid_neighbor] runs [raise NotImplemented()]: calling the
    constant [NotImplemented] is a [TypeError]. *)
Definition is_valid_neighbor (self neighbor : val) : py bool :=
  read (λ h,
    match deref self h with
    | Some (ONode CVariable _ _ _) => Ok (isinstance h neighbor CFactor)
    | Some (ONode CFactor _ _ _) => Ok (isinstance h neighbor CVariable)
    | Some (ONode CNode _ _ _) => Raise TypeError
    | _ => Raise AttributeError
    end).

(** [self.neighbors.append(neighbor)]. *)
Definition append_neighbor (self neighbor : val) : py unit := λ h,
  match self with
  | VRef l =>
      match h !! l with
      | Some (ONode c name neighbors data) =>
          (Ok (), <[l := ONode c name (neighbors ++ [neighbor]) data]> h)
      | _ => (Raise AttributeError, h)
      end
  | _ => (Raise AttributeError, h)
  end.

(** [add_neighbor]; the [assert] is executed (Python is not run with [-O]). *)
Definition add_neighbor (self neighbor : val) : py unit :=
  let* valid := is_valid_neighbor self neighbor in
  if valid : bool then append_neighbor self neighbor
  else raise AssertionError.

(** ** The model-string parser *)

(** [s.split(sep)] for a one-character separator: one more piece than there
    are separators, empty pieces included. *)
Fixpoint split (sep : ascii) (s : string) : list string :=
  match s with
  | EmptyString => [EmptyString]
  | String a s' =>
      if Ascii.eqb a sep then EmptyString :: split sep s'
      else match split sep s' with
           | w :: ws => String a w :: ws
           | [] => [String a EmptyString]
           end
  end.

(** [c in s]. *)
Fixpoint contains (c : ascii) (s : string) : bool :=
  match s with
  | EmptyString => false
  | String a s' => Ascii.eqb a c || contains c s'
  end.

(** [s[-1]] of a string that is not empty. *)
Fixpoint last_char (s : string) : option ascii :=
  match s with
  | EmptyString => None
  | String a s' =>
      match s' with EmptyString => Some a | String _ _ => last_char s' end
  end.

(** [s[:-1]]. *)
Fixpoint drop_last (s : string) : string :=
  match s with
  | EmptyString => EmptyString
  | String a s' =>
      match s' with
      | EmptyString => EmptyString
      | String _ _ => String a (drop_last s')
      end
  end.

(** [s[1:-1]]. *)
Definition strip_ends (s : string) : string :=
  match s with
  | EmptyString => EmptyString
  | String _ s' => drop_last s'
  end.

Record ParsedTerm :=
  mkParsedTerm { term : string; var_name : list string; given : list string }.

(** [_parse_term]: the variables and the conditioned-on variables of a term
    such as [(a|b,c)].  [term[0]] of the empty string is an [IndexError]
    (the caller's [if term] filter rules it out). *)
Definition _parse_term (t : string) : result (list string * list string) :=
  match t with
  | EmptyString => Raise IndexError
  | String "(" _ =>
      if bool_decide (last_char t = Some ")"%char) then
        let term_variables := strip_ends t in
        if contains "|" term_variables then
          match split "|" term_variables with
          | [var; given] => Ok (split "," var, split "," given)
          | _ => Raise ValueError_unpack
          end
        else Ok (split "," term_variables, [])
      else Raise AssertionError
  | _ => Raise AssertionError
  end.

(** The list comprehension of [_parse_model_string_into_terms], run over the
    pieces of [model_string.split('p')]: empty pieces are skipped, and the
    first term that does not parse raises. *)
Fixpoint parse_terms (pieces : list string) : result (list ParsedTerm) :=
  match pieces with
  | [] => Ok []
  | t :: rest =>
      if bool_decide (t = EmptyString) then parse_terms rest
      else match _parse_term t with
           | Raise e => Raise e
           | Ok (var, given) =>
               match parse_terms rest with
               | Raise e => Raise e
               | Ok pts => Ok (mkParsedTerm (String "p" t) var given :: pts)
               end
           end
  end.

Definition _parse_model_string_into_terms (model_string : string)
  : result (list ParsedTerm) :=
  parse_terms (split "p" model_string).

(** Step 2 of [parse_model_into_variables_and_factors]: a [Variable] for each
    name on the left of a term that was not seen yet. *)
Fixpoint declare_names (names : list string) (variables : gmap string val)
  : py (gmap string val) :=
  match names with
  | [] => ret variables
  | x :: names' =>
      match variables !! x with
      | Some _ => declare_names names' variables
      | None =>
          let* v := new_Variable x in
          declare_names names' (<[x := v]> variables)
      end
  end.

Fixpoint declare_variables (pts : list ParsedTerm)
    (variables : gmap string val) : py (gmap string val) :=
  match pts with
  | [] => ret variables
  | pt :: pts' =>
      let* variables' := declare_names (var_name pt) variables in
      declare_variables pts' variables'
  end.

(** Step 3, the inner loop: both directions of each edge of a new factor. *)
Fixpoint connect (new_factor : val) (variables : gmap string val)
    (all_var_names : list string) : py unit :=
  match all_var_names with
  | [] => ret ()
  | x :: rest =>
      let* v := dict_get variables x in
      let* _ := add_neighbor new_factor v in
      let* v' := dict_get variables x in
      let* _ := add_neighbor v' new_factor in
      connect new_factor variables rest
  end.

(** Step 3, the outer loop: a [Factor] per term, in the order of the terms. *)
Fixpoint build_factors (pts : list ParsedTerm) (variables : gmap string val)
  : py (list val) :=
  match pts with
  | [] => ret []
  | pt :: pts' =>
      let* new_factor := new_Factor (term pt) in
      let* _ := connect new_factor variables (var_name pt ++ given pt) in
      let* factors := build_factors pts' variables in
      ret (new_factor :: factors)
  end.

Definition parse_model_into_variables_and_factors (model_string : string)
  : py (list val * gmap string val) :=
  match _parse_model_string_into_terms model_string with
  | Raise e => raise e
  | Ok parsed_terms =>
      let* variables := declare_variables parsed_terms ∅ in
      let* factors := build_factors parsed_terms variables in
      ret (factors, variables)
  end.

(** ** [PGM] *)

Record PGM := mkPGM { _factors : list val; _variables : gmap string val }.

Definition from_string (model_string : string) : py PGM :=
  let* fv := parse_model_into_variables_and_factors model_string in
  ret (mkPGM fv.1 fv.2).

Definition variable_from_name (self : PGM) (var_name : string) : py val :=
  dict_get (_variables self) var_name.

(** [factor.data = v]: an attribute assignment, which creates the attribute
    on a node that has none. *)
Definition set_data (self v : val) : py unit := λ h,
  match self with
  | VRef l =>
      match h !! l with
      | Some (ONode c name neighbors _) =>
          (Ok (), <[l := ONode c name neighbors (Some v)]> h)
      | _ => (Raise AttributeError, h)
      end
  | _ => (Raise AttributeError, h)
  end.

(** The loop over [zip(factor_data.axes_labels, factor_data.probs.shape)],
    as [part_000] has it: [if var_name not in var_dims: ... elif ...]. *)
Fixpoint check_dims (factor_name : string) (pairs : list (string * nat))
    (var_dims : gmap string nat) : result (gmap string nat) :=
  match pairs with
  | [] => Ok var_dims
  | (var_name, dim) :: rest =>
      match var_dims !! var_name with
      | None => check_dims factor_name rest (<[var_name := dim]> var_dims)
      | Some expected =>
          if bool_decide (expected ≠ dim)
          then Raise (ValueError_wrong_size factor_name dim expected)
          else check_dims factor_name rest var_dims
      end
  end.

(** The same loop as [04_exact_inference.ipynb] has it: two [if]s in a row,
    the second one reading [var_dims[var_name]] back. *)
Fixpoint check_dims_ipynb (factor_name : string) (pairs : list (string * nat))
    (var_dims : gmap string nat) : result (gmap string nat) :=
  match pairs with
  | [] => Ok var_dims
  | (var_name, dim) :: rest =>
      let var_dims1 :=
        match var_dims !! var_name with
        | None => <[var_name := dim]> var_dims
        | Some _ => var_dims
        end in
      match var_dims1 !! var_name with
      | None => Raise (KeyError var_name)
      | Some expected =>
          if bool_decide (expected ≠ dim)
          then Raise (ValueError_wrong_size factor_name dim expected)
          else check_dims_ipynb factor_name rest var_dims1
      end
  end.

(** The body of [for factor in self._factors], one iteration: the lookup of
    the factor's tensor, the two checks, the assignment.  It returns the
    updated [var_dims]. *)
Definition set_distribution (data : gmap string val) (factor : val)
    (var_dims : gmap string nat) : py (gmap string nat) :=
  let* factor_name := get_name factor in
  let* factor_data := dict_get data factor_name in
  let* axes_labels := get_axes_labels factor_data in
  let* neighbors := get_neighbors factor in
  let* names := get_names neighbors in
  if bool_decide
       ((list_to_set axes_labels : gset string) ≠ list_to_set names)
  then
    raise (ValueError_missing_axes factor_name
             (list_to_set names ∖ list_to_set axes_labels))
  else
    let* probs := get_probs factor_data in
    let* a := get_array probs in
    let* var_dims' :=
      lift (check_dims factor_name (zip axes_labels (shape a)) var_dims) in
    let* _ := set_data factor factor_data in
    ret var_dims'.

Fixpoint set_distributions_loop (data : gmap string val) (factors : list val)
    (var_dims : gmap string nat) : py unit :=
  match factors with
  | [] => ret ()
  | factor :: rest =>
      let* var_dims' := set_distribution data factor var_dims in
      set_distributions_loop data rest var_dims'
  end.

Definition set_distributions (self : PGM) (data : gmap string val) : py unit :=
  set_distributions_loop data (_factors self) ∅.

(** ** [Messages] *)

(** [Messages()]: an engine with an empty cache. *)
Definition new_Messages : py val := alloc (OMessages ∅ []).

(** [_variable_to_factor_messages]: the body is a docstring, a [TODO] comment
    and a bare [return]. *)
Definition _variable_to_factor_messages (self variable factor : val)
  : py val :=
  ret VNone.

(** The loop of [_factor_to_variable_messages]: the target variable is
    skipped by [continue]; for the other neighbours the body holds only
    [TODO] comments. *)
Fixpoint scan_neighbors (neighbors : list val) (variable : val) : py unit :=
  match neighbors with
  | [] => ret ()
  | neighbor_variable :: rest =>
      let* n := get_name neighbor_variable in
      let* n' := get_name variable in
      if bool_decide (n = n') then scan_neighbors rest variable
      else scan_neighbors rest variable
  end.

(** [_factor_to_variable_messages]: a new [Distribution] over the factor's
    own array and labels, the loop, and a bare [return]. *)
Definition _factor_to_variable_messages (self factor variable : val)
  : py val :=
  let* d := get_data factor in
  let* probs := get_probs d in
  let* d' := get_data factor in
  let* axes_labels := get_axes_labels d' in
  let* factor_dist := alloc (ODistribution probs axes_labels) in
  let* neighbors := get_neighbors factor in
  let* _ := scan_neighbors neighbors variable in
  ret VNone.

(** [marginal]: comments and a bare [return]. *)
Definition marginal (self variable : val) : py val :=
  ret VNone.

(** [self.messages[message_name] = m].  The code makes this assignment in
    one situation only, to store the message that a computation has just
    returned: the ghost field records the edge of that computation. *)
Definition set_message (self : val) (message_name : string * string)
    (m : val) : py unit := λ h,
  match self with
  | VRef l =>
      match h !! l with
      | Some (OMessages messages computed) =>
          (Ok (), <[l := OMessages (<[message_name := m]> messages)
                                    (message_name :: computed)]> h)
      | _ => (Raise AttributeError, h)
      end
  | _ => (Raise AttributeError, h)
  end.

(** [self.messages[message_name]]. *)
Definition get_message (self : val) (message_name : string * string)
  : py val :=
  let* messages := get_messages self in
  match messages !! message_name with
  | Some m => ret m
  | None => raise (KeyError_edge message_name.1 message_name.2)
  end.

Definition variable_to_factor_messages (self variable factor : val)
  : py val :=
  let* variable_name := get_name variable in
  let* factor_name := get_name factor in
  let message_name := (variable_name, factor_name) in
  let* messages := get_messages self in
  let* _ :=
    match messages !! message_name with
    | None =>
        let* m := _variable_to_factor_messages self variable factor in
        set_message self message_name m
    | Some _ => ret ()
    end in
  get_message self message_name.

Definition factor_to_variable_message (self factor variable : val)
  : py val :=
  let* factor_name := get_name factor in
  let* variable_name := get_name variable in
  let message_name := (factor_name, variable_name) in
  let* messages := get_messages self in
  let* _ :=
    match messages !! message_name with
    | None =>
        let* m := _factor_to_variable_messages self factor variable in
        set_message self message_name m
    | Some _ => ret ()
    end in
  get_message self message_name.

(** ** Arrays: the two numpy operations [multiply] uses *)

(** The number of elements of an array of the given shape. *)
Definition size (s : list nat) : nat := foldr Nat.mul 1 s.

(** [a.reshape(newshape)]: the values stay in row-major order; one negative
    entry of [newshape] stands for the extent that makes the sizes agree. *)
Definition np_reshape (a : ndarray) (newshape : list Z) : result ndarray :=
  let unknown := filter (λ d, d < 0)%Z newshape in
  let s_known := size (Z.to_nat <$> filter (λ d, 0 ≤ d)%Z newshape) in
  let s_original := size (shape a) in
  match unknown with
  | [] =>
      if bool_decide (s_original = s_known)
      then Ok (Ndarray (Z.to_nat <$> newshape) (flat a))
      else Raise ValueError_reshape
  | [_] =>
      if bool_decide (s_known = 0 ∨ s_original `mod` s_known ≠ 0)
      then Raise ValueError_reshape
      else Ok (Ndarray
                 ((λ d, if bool_decide (d < 0)%Z
                        then s_original `div` s_known else Z.to_nat d)
                    <$> newshape)
                 (flat a))
  | _ => Raise ValueError_reshape
  end.

(** Broadcasting of two shapes of the same rank: extents must agree or one
    of them be 1, and an extent 1 is stretched to the other one. *)
Definition bdim (da db : nat) : nat := if bool_decide (da = 1) then db else da.

Fixpoint broadcastable (sa sb : list nat) : bool :=
  match sa, sb with
  | [], [] => true
  | da :: sa', db :: sb' =>
      (bool_decide (da = db) || bool_decide (da = 1) || bool_decide (db = 1))
      && broadcastable sa' sb'
  | _, _ => false
  end.

(** The [i]-th block of [n] consecutive values. *)
Definition chunk (n i : nat) (a : list float) : list float :=
  take n (drop (i * n) a).

(** The elementwise product of two row-major arrays of broadcastable shapes
    [sa] and [sb]: along an axis of extent 1 the single block is reused. *)
Fixpoint bmul (sa sb : list nat) (a b : list float) : list float :=
  match sa, sb with
  | da :: sa', db :: sb' =>
      mjoin ((λ i,
                bmul sa' sb'
                  (chunk (size sa') (if bool_decide (da = 1) then 0 else i) a)
                  (chunk (size sb') (if bool_decide (db = 1) then 0 else i) b))
               <$> seq 0 (bdim da db))
  | _, _ =>
      match a, b with
      | x :: _, y :: _ => [(x * y)%float]
      | _, _ => []
      end
  end.

(** A shape on the left of which extents 1 are added, up to rank [n]. *)
Definition pad_shape (n : nat) (s : list nat) : list nat :=
  replicate (n - length s) 1 ++ s.

(** [a * b] on arrays. *)
Definition np_multiply (a b : ndarray) : result ndarray :=
  let n := length (shape a) `max` length (shape b) in
  let sa := pad_shape n (shape a) in
  let sb := pad_shape n (shape b) in
  if broadcastable sa sb
  then Ok (Ndarray (zip_with bdim sa sb) (bmul sa sb (flat a) (flat b)))
  else Raise ValueError_broadcast.

(** The element of a row-major array at a multi-index. *)
Fixpoint item (s : list nat) (a : list float) (idx : list nat)
  : option float :=
  match s, idx with
  | [], [] => head a
  | d :: s', i :: idx' =>
      if bool_decide (i < d) then item s' (chunk (size s') i a) idx' else None
  | _, _ => None
  end.

(** ** [Distribution] and [multiply] *)

(** A Python dict from names to axes, in insertion order: assigning to a key
    that is present keeps its place. *)
Fixpoint dict_set (k : string) (v : nat) (d : list (string * nat))
  : list (string * nat) :=
  match d with
  | [] => [(k, v)]
  | (k', v') :: d' =>
      if bool_decide (k' = k) then (k, v) :: d' else (k', v') :: dict_set k v d'
  end.

Fixpoint dict_lookup (k : string) (d : list (string * nat)) : option nat :=
  match d with
  | [] => None
  | (k', v) :: d' => if bool_decide (k' = k) then Some v else dict_lookup k d'
  end.

(** [{name: axis for axis, name in enumerate(labels)}], from [axis] on. *)
Fixpoint enumerate_axes (axis : nat) (labels : list string)
    (d : list (string * nat)) : list (string * nat) :=
  match labels with
  | [] => d
  | name :: rest => enumerate_axes (S axis) rest (dict_set name axis d)
  end.

(** [Distribution(probs, axes_labels)]. *)
Definition new_Distribution (probs : val) (axes_labels : list string)
  : py val :=
  alloc (ODistribution probs axes_labels).

Definition get_axes (self : val) : py (list (string * nat)) :=
  let* axes_labels := get_axes_labels self in
  ret (enumerate_axes 0 axes_labels []).

(** [multiply], as [part_000] has it.  The reshaped array is a temporary view
    of [p_hi.probs]; the product is a new array. *)
Definition multiply (p_v_given_h p_hi : val) : py val :=
  let* axes := get_axes p_v_given_h in
  let* axes_hi := get_axes p_hi in
  match axes_hi with
  | [] => raise StopIteration
  | (hi, _) :: _ =>
      match dict_lookup hi axes with
      | None => raise (KeyError hi)
      | Some axis =>
          let* probs_hi := get_probs p_hi in
          let* a_hi := get_array probs_hi in
          let* reshaped_p_hi :=
            if bool_decide (shape a_hi ≠ []) then
              let* probs := get_probs p_v_given_h in
              let* a := get_array probs in
              lift (np_reshape a_hi
                      ((λ i, if bool_decide (i = axis) then (-1)%Z else 1%Z)
                         <$> seq 0 (length (shape a))))
            else ret a_hi in
          let* probs := get_probs p_v_given_h in
          let* a := get_array probs in
          let* product := lift (np_multiply a reshaped_p_hi) in
          let* new_probs := alloc (ONdarray product) in
          let* axes_labels := get_axes_labels p_v_given_h in
          new_Distribution new_probs axes_labels
      end
  end.

(** ** Predicates used in the statements *)

(** The bipartite invariant: the neighbours of a [Variable] are [Factor]s,
    the neighbours of a [Factor] are [Variable]s. *)
Definition bipartite (h : heap) : Prop :=
  ∀ l c name neighbors data,
    h !! l = Some (ONode c name neighbors data) →
    (c = CVariable → Forall (λ v, isinstance h v CFactor = true) neighbors) ∧
    (c = CFactor → Forall (λ v, isinstance h v CVariable = true) neighbors).

(** The invariant, if it held before, holds after. *)
Definition keeps_bipartite (h h' : heap) : Prop := bipartite h → bipartite h'.

(** A computation keeps a relation between the heap it starts from and the
    heap it leaves, whether it returns or raises. *)
Definition respects {A} (R : heap → heap → Prop) (m : py A) : Prop :=
  ∀ h, R h (m h).2.

(** ** The factor graph of the notebook *)

Definition chain_model : string := "p(h1)p(h2|h1)p(v1|h1)p(v2|h2)".

(** The four tensors of the example.  [p_v2_given_h2] is built over the
    array of [p_v1_given_h1], as in the notebook; [p(h1)] is the vector
    [[0.2, 0.8]] (the notebook writes it with shape (2, 1), which
    [set_distributions] accepts as well). *)
Definition chain_tensors : py (gmap string val) :=
  let* a_h1 := alloc (ONdarray (Ndarray [2] [0.2; 0.8]%float)) in
  let* p_h1 := new_Distribution a_h1 ["h1"] in
  let* a_h2 := alloc (ONdarray (Ndarray [2; 2] [0.5; 0.2; 0.5; 0.8]%float)) in
  let* p_h2_given_h1 := new_Distribution a_h2 ["h2"; "h1"] in
  let* a_v1 := alloc (ONdarray (Ndarray [2; 2] [0.6; 0.1; 0.4; 0.9]%float)) in
  let* p_v1_given_h1 := new_Distribution a_v1 ["v1"; "h1"] in
  let* probs := get_probs p_v1_given_h1 in
  let* p_v2_given_h2 := new_Distribution probs ["v2"; "h2"] in
  ret ({[ "p(h1)" := p_h1; "p(h2|h1)" := p_h2_given_h1;
          "p(v1|h1)" := p_v1_given_h1; "p(v2|h2)" := p_v2_given_h2 ]}).

(** The same, but [p(h2|h1)] takes [h1] to have three values. *)
Definition inconsistent_tensors : py (gmap string val) :=
  let* a_h1 := alloc (ONdarray (Ndarray [2] [0.2; 0.8]%float)) in
  let* p_h1 := new_Distribution a_h1 ["h1"] in
  let* a_h2 :=
    alloc (ONdarray (Ndarray [2; 3] [0.5; 0.2; 0.1; 0.5; 0.8; 0.9]%float)) in
  let* p_h2_given_h1 := new_Distribution a_h2 ["h2"; "h1"] in
  let* a_v1 := alloc (ONdarray (Ndarray [2; 2] [0.6; 0.1; 0.4; 0.9]%float)) in
  let* p_v1_given_h1 := new_Distribution a_v1 ["v1"; "h1"] in
  let* probs := get_probs p_v1_given_h1 in
  let* p_v2_given_h2 := new_Distribution probs ["v2"; "h2"] in
  ret ({[ "p(h1)" := p_h1; "p(h2|h1)" := p_h2_given_h1;
          "p(v1|h1)" := p_v1_given_h1; "p(v2|h2)" := p_v2_given_h2 ]}).

(** The same as [chain_tensors], but without an entry for [p(v1|h1)]. *)
Definition incomplete_tensors : py (gmap string val) :=
  let* a_h1 := alloc (ONdarray (Ndarray [2] [0.2; 0.8]%float)) in
  let* p_h1 := new_Distribution a_h1 ["h1"] in
  let* a_h2 := alloc (ONdarray (Ndarray [2; 2] [0.5; 0.2; 0.5; 0.8]%float)) in
  let* p_h2_given_h1 := new_Distribution a_h2 ["h2"; "h1"] in
  let* a_v2 := alloc (ONdarray (Ndarray [2; 2] [0.6; 0.1; 0.4; 0.9]%float)) in
  let* p_v2_given_h2 := new_Distribution a_v2 ["v2"; "h2"] in
  ret ({[ "p(h1)" := p_h1; "p(h2|h1)" := p_h2_given_h1;
          "p(v2|h2)" := p_v2_given_h2 ]}).

(** The chain with two faults: [p(h2|h1)] takes [h1] to have three values,
    and there is no entry for [p(v1|h1)]. *)
Definition conflicting_incomplete_tensors : py (gmap string val) :=
  let* a_h1 := alloc (ONdarray (Ndarray [2] [0.2; 0.8]%float)) in
  let* p_h1 := new_Distribution a_h1 ["h1"] in
  let* a_h2 :=
    alloc (ONdarray (Ndarray [2; 3] [0.5; 0.2; 0.1; 0.5; 0.8; 0.9]%float)) in
  let* p_h2_given_h1 := new_Distribution a_h2 ["h2"; "h1"] in
  let* a_v2 := alloc (ONdarray (Ndarray [2; 2] [0.6; 0.1; 0.4; 0.9]%float)) in
  let* p_v2_given_h2 := new_Distribution a_v2 ["v2"; "h2"] in
  ret ({[ "p(h1)" := p_h1; "p(h2|h1)" := p_h2_given_h1;
          "p(v2|h2)" := p_v2_given_h2 ]}).

(** The chain with two other faults: the tensor of [p(h1)] has a second
    label, [zz], and [p(h2|h1)] takes [h1] to have three values. *)
Definition mislabelled_tensors : py (gmap string val) :=
  let* a_h1 := alloc (ONdarray (Ndarray [2; 1] [0.2; 0.8]%float)) in
  let* p_h1 := new_Distribution a_h1 ["h1"; "zz"] in
  let* a_h2 :=
    alloc (ONdarray (Ndarray [2; 3] [0.5; 0.2; 0.1; 0.5; 0.8; 0.9]%float)) in
  let* p_h2_given_h1 := new_Distribution a_h2 ["h2"; "h1"] in
  let* a_v1 := alloc (ONdarray (Ndarray [2; 2] [0.6; 0.1; 0.4; 0.9]%float)) in
  let* p_v1_given_h1 := new_Distribution a_v1 ["v1"; "h1"] in
  let* probs := get_probs p_v1_given_h1 in
  let* p_v2_given_h2 := new_Distribution probs ["v2"; "h2"] in
  ret ({[ "p(h1)" := p_h1; "p(h2|h1)" := p_h2_given_h1;
          "p(v1|h1)" := p_v1_given_h1; "p(v2|h2)" := p_v2_given_h2 ]}).

(** The tensors, then [PGM.from_string], from an empty heap: the graph, the
    mapping and the heap that [set_distributions] is then called with. *)
Definition built (tensors : py (gmap string val))
  : PGM * gmap string val * list obj :=
  match (let* data := tensors in
         let* pgm := from_string chain_model in
         ret (pgm, data)) [] with
  | (Ok (pgm, data), h) => (pgm, data, h)
  | (Raise _, h) => (mkPGM [] ∅, ∅, h)
  end.

(** [h'] differs from [h] at most in the [data] attribute of nodes. *)
Definition data_only (h h' : heap) : Prop :=
  ∀ l, match h !! l with
       | Some (ONode c name neighbors _) =>
           ∃ d', h' !! l = Some (ONode c name neighbors d')
       | o => h' !! l = o
       end.

(** In heap [h], [factor] is a node called [name], and [data] maps that name
    to a [Distribution] with the axis labels [labels] over an array of shape
    [s]. *)
Definition tensor_of (h : heap) (data : gmap string val) (factor : val)
    (name : string) (labels : list string) (s : list nat) : Prop :=
  ∃ d probs a,
    name_of factor h = Ok name ∧ data !! name = Some d ∧
    axes_labels_of d h = Ok labels ∧ probs_of d h = Ok probs ∧
    array_of probs h = Ok a ∧ shape a = s.

(** The tensor that [data] assigns to [factor] gives the variable [x] the
    dimension length [dim]: the pair is one of
    [zip(axes_labels, probs.shape)]. *)
Definition gives (h : heap) (data : gmap string val) (factor : val)
    (name x : string) (dim : nat) : Prop :=
  ∃ labels s, tensor_of h data factor name labels s ∧ (x, dim) ∈ zip labels s.

(** The tensor that [data] assigns to [factor] has the names of the factor's
    neighbours as its set of axes. *)
Definition axes_match (h : heap) (data : gmap string val) (factor : val)
  : Prop :=
  ∃ name labels s neighbors names,
    tensor_of h data factor name labels s ∧
    neighbors_of factor h = Ok neighbors ∧ names_of neighbors h = Ok names ∧
    (list_to_set labels : gset string) = list_to_set names.

(** ** Sessions with an engine *)

(** What a session asks of an engine. *)
Inductive request :=
| Marginal (variable : val)
| VariableToFactor (variable factor : val)
| FactorToVariable (factor variable : val).

Definition serve (self : val) (r : request) : py val :=
  match r with
  | Marginal variable => marginal self variable
  | VariableToFactor variable factor =>
      variable_to_factor_messages self variable factor
  | FactorToVariable factor variable =>
      factor_to_variable_message self factor variable
  end.

(** The ghost field of an engine. *)
Definition computed_of (v : val) (h : heap) : list (string * string) :=
  match deref v h with
  | Some (OMessages _ computed) => computed
  | _ => []
  end.

(** The chain of the notebook with its tensors assigned, a new engine, and
    the marginal of the variable called [var_name]. *)
Definition chain_marginal (var_name : string) : py val :=
  let* data := chain_tensors in
  let* pgm := from_string chain_model in
  let* _ := set_distributions pgm data in
  let* m := new_Messages in
  let* variable := variable_from_name pgm var_name in
  marginal m variable.

(** The same session, asking for the message from the leaf [v1] to its only
    neighbour, the factor [p(v1|h1)]; the cache entry of that edge is
    returned with the message. *)
Definition chain_leaf_message : py (val * option val) :=
  let* data := chain_tensors in
  let* pgm := from_string chain_model in
  let* _ := set_distributions pgm data in
  let* m := new_Messages in
  let* variable := variable_from_name pgm "v1" in
  let* neighbors := get_neighbors variable in
  match neighbors with
  | [factor] =>
      let* message := variable_to_factor_messages m variable factor in
      let* messages := get_messages m in
      ret (message, messages !! ("v1", "p(v1|h1)"))
  | _ => raise IndexError
  end.

(** ** Relations between the heap before and after a computation *)

(** Objects were added, none was changed. *)
Definition extends (h h' : heap) : Prop := ∃ new, h' = h ++ new.

(** No object other than a [Messages] engine was changed. *)
Definition engines_only (h h' : heap) : Prop :=
  ∀ l o, h !! l = Some o →
         match o with
         | OMessages _ _ => ∃ messages computed,
                              h' !! l = Some (OMessages messages computed)
         | _ => h' !! l = Some o
         end.

(** ** The computations that an engine runs *)

(** To count computations, the two caching wrappers are run with a log.
    [Call e] is written where the wrapper calls
    [_variable_to_factor_messages] or [_factor_to_variable_messages] for the
    edge [e], and [Return e] where that call has returned; a call that raises
    leaves its [Call] without a [Return]. *)
Inductive event :=
| Call (message_name : string * string)
| Return (message_name : string * string).

(** Heap-passing computations that also pass the log, latest event first. *)
Definition logged (A : Type) : Type :=
  heap → list event → result A * heap * list event.

Definition lret {A} (a : A) : logged A := λ h log, (Ok a, h, log).
Definition lbind {A B} (m : logged A) (k : A → logged B) : logged B :=
  λ h log, match m h log with
           | (Ok a, h', log') => k a h' log'
           | (Raise e, h', log') => (Raise e, h', log')
           end.

Notation "'let+' x ':=' m 'in' k" := (lbind m (λ x, k))
  (at level 10, x pattern, m at level 100, k at level 200,
   format "'[v' 'let+'  x  ':='  m  'in' '/' k ']'").

(** Code in which no computation is called writes nothing. *)
Definition quiet {A} (m : py A) : logged A := λ h log, (m h, log).

Definition emit (ev : event) : logged unit := λ h log, (Ok (), h, ev :: log).

(** The call [self._..._messages(...)] of a wrapper, for the edge
    [message_name]. *)
Definition computation (message_name : string * string) (m : py val)
  : logged val :=
  let+ _ := emit (Call message_name) in
  let+ r := quiet m in
  let+ _ := emit (Return message_name) in
  lret r.

Definition variable_to_factor_messages_logged (self variable factor : val)
  : logged val :=
  let+ variable_name := quiet (get_name variable) in
  let+ factor_name := quiet (get_name factor) in
  let message_name := (variable_name, factor_name) in
  let+ messages := quiet (get_messages self) in
  let+ _ :=
    match messages !! message_name with
    | None =>
        let+ m := computation message_name
                    (_variable_to_factor_messages self variable factor) in
        quiet (set_message self message_name m)
    | Some _ => lret ()
    end in
  quiet (get_message self message_name).

Definition factor_to_variable_message_logged (self factor variable : val)
  : logged val :=
  let+ factor_name := quiet (get_name factor) in
  let+ variable_name := quiet (get_name variable) in
  let message_name := (factor_name, variable_name) in
  let+ messages := quiet (get_messages self) in
  let+ _ :=
    match messages !! message_name with
    | None =>
        let+ m := computation message_name
                    (_factor_to_variable_messages self factor variable) in
        quiet (set_message self message_name m)
    | Some _ => lret ()
    end in
  quiet (get_message self message_name).

(** [marginal], as the notebook leaves it, asks for no message. *)
Definition serve_logged (self : val) (r : request) : logged val :=
  match r with
  | Marginal variable => quiet (marginal self variable)
  | VariableToFactor variable factor =>
      variable_to_factor_messages_logged self variable factor
  | FactorToVariable factor variable =>
      factor_to_variable_message_logged self factor variable
  end.

(** The edges of the calls of a log, and of the calls that returned. *)
Fixpoint calls (log : list event) : list (string * string) :=
  match log with
  | [] => []
  | Call e :: log' => e :: calls log'
  | Return _ :: log' => calls log'
  end.

Fixpoint returns (log : list event) : list (string * string) :=
  match log with
  | [] => []
  | Call _ :: log' => returns log'
  | Return e :: log' => e :: returns log'
  end.

(** The lifetime of an engine, with the log of its computations:
    [Messages()] creates it; then the engine serves requests, between which
    the rest of the program may do anything that leaves the engine object
    as it is (build graphs, assign tensors, use other engines). *)
Inductive history (self : val) : list obj → list event → Prop :=
| history_new h :
    self = VRef (length h) → history self (new_Messages h).2 []
| history_serve h log r :
    history self h log →
    history self (serve_logged self r h log).1.2 (serve_logged self r h log).2
| history_other h h' log :
    history self h log → deref self h' = deref self h → history self h' log.

(** The cache of an engine holds the edges whose computation has returned,
    each of them once. *)
Definition cache_inv (self : val) (h : list obj) (log : list event) : Prop :=
  ∃ messages computed,
    deref self h = Some (OMessages messages computed) ∧
    computed = returns log ∧ NoDup (returns log) ∧
    (∀ e, e ∈ returns log ↔ is_Some (messages !! e)) ∧
    ∀ after e before, log = after ++ Call e :: before → e ∉ returns before.

(** ** Labelled tensors *)

(** In heap [h], [T] is a [Distribution] with the axis labels [labels] over
    the array [a], whose values are as many as its shape says. *)
Definition is_tensor (h : heap) (T : val) (labels : list string)
    (a : ndarray) : Prop :=
  axes_labels_of T h = Ok labels ∧
  (∃ probs, probs_of T h = Ok probs ∧ array_of probs h = Ok a) ∧
  length (flat a) = size (shape a).

(** The index into an operand of shape [s] that broadcasting pairs with the
    index [idx] of the result: 0 along the axes of extent 1. *)
Definition bidx (s idx : list nat) : list nat :=
  zip_with (λ d i, if bool_decide (d = 1) then 0 else i) s idx.

(** ** The first example of the notebook *)

(** [p_v1_given_h1] and [p_h1] of the cell that tries [multiply]. *)
Definition example_heap : list obj :=
  [ONdarray (Ndarray [2; 3] [0.4; 0.8; 0.9; 0.6; 0.2; 0.1]%float);
   ODistribution (VRef 0) ["v1"; "h1"];
   ONdarray (Ndarray [3] [0.6; 0.3; 0.1]%float);
   ODistribution (VRef 2) ["h1"]].

(** [p_v1_given_h1] of the notebook, and a vector of three values for [v1],
    which has two. *)
Definition mismatched_heap : list obj :=
  [ONdarray (Ndarray [2; 3] [0.4; 0.8; 0.9; 0.6; 0.2; 0.1]%float);
   ODistribution (VRef 0) ["v1"; "h1"];
   ONdarray (Ndarray [3] [0.6; 0.3; 0.1]%float);
   ODistribution (VRef 2) ["v1"]].

(** A variable, a factor with its tensor attached, and an engine. *)
Definition small_heap : list obj :=
  [ONdarray (Ndarray [2] [0.2; 0.8]%float);
   ODistribution (VRef 0) ["h1"];
   ONode CVariable "h1" [VRef 3] None;
   ONode CFactor "p(h1)" [VRef 2] (Some (VRef 1));
   OMessages ∅ []].

(** [small_heap] after its engine was asked for the message from the factor
    to the variable. *)
Definition small_heap_served : list obj :=
  [ONdarray (Ndarray [2] [0.2; 0.8]%float);
   ODistribution (VRef 0) ["h1"];
   ONode CVariable "h1" [VRef 3] None;
   ONode CFactor "p(h1)" [VRef 2] (Some (VRef 1));
   OMessages {[ ("p(h1)", "h1") := VNone ]} [("p(h1)", "h1")];
   ODistribution (VRef 0) ["h1"]].

(** ** The rest of [Distribution] *)

(** The generator of [get_other_axes_from], run over [enumerate(labels)]
    from [axis] on. *)
Fixpoint enumerate_other_axes (axis : nat) (labels : list string)
    (axis_label : string) : list nat :=
  match labels with
  | [] => []
  | name :: rest =>
      if bool_decide (name ≠ axis_label)
      then axis :: enumerate_other_axes (S axis) rest axis_label
      else enumerate_other_axes (S axis) rest axis_label
  end.

Definition get_other_axes_from (self : val) (axis_label : string)
  : py (list nat) :=
  let* axes_labels := get_axes_labels self in
  ret (enumerate_other_axes 0 axes_labels axis_label).

(** [i] is the last position of [name] in [labels]. *)
Definition last_position (labels : list string) (name : string) (i : nat)
  : Prop :=
  labels !! i = Some name ∧ ∀ j, i < j → labels !! j ≠ Some name.

(** A tensor with the label [h1] on two axes, and a vector over [h1]. *)
Definition repeated_label_heap : list obj :=
  [ONdarray (Ndarray [2; 2] [1; 2; 3; 4]%float);
   ODistribution (VRef 0) ["h1"; "h1"];
   ONdarray (Ndarray [2] [10; 100]%float);
   ODistribution (VRef 2) ["h1"; "v1"]].

(** A tensor with more labels than its array has axes, and a vector over
    the second of them. *)
Definition short_rank_heap : list obj :=
  [ONdarray (Ndarray [2] [0.5; 0.5]%float);
   ODistribution (VRef 0) ["v1"; "h1"];
   ONdarray (Ndarray [2] [0.2; 0.8]%float);
   ODistribution (VRef 2) ["h1"]].

(** [np.all(np.isclose(a, 1.0))] with the default tolerances: every value
    [x] of [a] has [abs(x - 1.0) <= atol + rtol * abs(1.0)]. *)
Definition np_all_isclose_1 (a : ndarray) : bool :=
  forallb (λ x, PrimFloat.leb (abs (x - 1)) (1e-08 + 1e-05 * abs 1))%float
    (flat a).

(** [is_valid_conditional].  The order in which [np.sum] adds the values of
    an array is numpy's own, and the result depends on it in floating
    point: the check is defined over any function [np_sum] that gives the
    sums of an array along an axis. *)
Definition is_valid_conditional (np_sum : ndarray → nat → result ndarray)
    (self : val) (variable_name : string) : py bool :=
  let* probs := get_probs self in
  let* axes := get_axes self in
  match dict_lookup variable_name axes with
  | None => raise (KeyError variable_name)
  | Some axis =>
      let* a := get_array probs in
      let* sums := lift (np_sum a axis) in
      ret (np_all_isclose_1 sums)
  end.

(** ** The base class [Node] *)

(** [Node(name)]: an instance of the base class. *)
Definition new_Node (name : string) : py val :=
  alloc (ONode CNode name [] None).

(** ** Graphs under construction *)

(** [h'] has the objects of [h], and maybe more; they differ from those of
    [h] at most in the [neighbors] of nodes. *)
Definition edges_only (h h' : heap) : Prop :=
  length h ≤ length h' ∧
  ∀ l o, h !! l = Some o →
         match o with
         | ONode c name _ data =>
             ∃ neighbors', h' !! l = Some (ONode c name neighbors' data)
         | _ => h' !! l = Some o
         end.

(** The dict [variables] of the parser maps each of its keys to a
    [Variable] of that name, at a location from [n] on. *)
Definition declared_in (n : nat) (variables : gmap string val) (h : heap)
  : Prop :=
  ∀ x v, variables !! x = Some v →
         ∃ l neighbors,
           v = VRef l ∧ n ≤ l ∧
           h !! l = Some (ONode CVariable x neighbors None).

(** The names on the left of the terms, and all the names of the terms, in
    the order in which the parser meets them. *)
Definition declared (pts : list ParsedTerm) : list string :=
  pts ≫= var_name.

Definition mentioned (pts : list ParsedTerm) : list string :=
  pts ≫= λ pt, var_name pt ++ given pt.

(** The [neighbors] of the object at [l]; none if it is not a node. *)
Definition neighbors_at (h : heap) (l : loc) : list val :=
  match h !! l with
  | Some (ONode _ _ neighbors _) => neighbors
  | _ => []
  end.

(** How many times [v] is in [vs]. *)
Definition occurrences (v : val) (vs : list val) : nat :=
  length (filter (λ v', v' = v) vs).

(** Every edge is in the [neighbors] of both of its ends, as many times in
    the one as in the other. *)
Definition symmetric_edges (h : heap) : Prop :=
  ∀ l l',
    occurrences (VRef l') (neighbors_at h l)
    = occurrences (VRef l) (neighbors_at h l').

(** The graph object that [from_string] returns for the chain of the
    notebook, built from an empty heap. *)
Definition chain_pgm : PGM :=
  mkPGM [VRef 4; VRef 5; VRef 6; VRef 7]
    {[ "h1" := VRef 0; "h2" := VRef 1; "v1" := VRef 2; "v2" := VRef 3 ]}.

(** How many times the name [x] is in [names]. *)
Definition mentions (x : string) (names : list string) : nat :=
  length (filter (λ y, y = x) names).

(** The neighbours that the terms give the variable called [x]: the factor
    of each term, in the order of the terms, as often as the term names
    [x]. *)
Definition factors_naming (x : string) (factors : list val)
    (pts : list ParsedTerm) : list val :=
  mjoin (zip_with
           (λ f pt, replicate (mentions x (var_name pt ++ given pt)) f)
           factors pts).

(** ** The notation that the parser reads *)

(** [sep.join(names)]. *)
Fixpoint join (sep : ascii) (names : list string) : string :=
  match names with
  | [] => EmptyString
  | [x] => x
  | x :: rest => x +:+ String sep (join sep rest)
  end.

(** The term [(a,b|c,d)] of the variables [var] given the variables
    [given]; [(a,b)] when nothing is given. *)
Definition write_term (var given : list string) : string :=
  match given with
  | [] => String "(" (join "," var +:+ ")")
  | _ => String "(" (join "," var +:+ String "|" (join "," given +:+ ")"))
  end.

(** The model string of a list of terms: [p(...)p(...)...]. *)
Fixpoint write_model (terms : list (list string * list string)) : string :=
  match terms with
  | [] => EmptyString
  | t :: rest => String "p" (write_term t.1 t.2 +:+ write_model rest)
  end.

(** A name that can be written in a term: it has no comma and no bar. *)
Definition term_name (x : string) : Prop :=
  contains "," x = false ∧ contains "|" x = false.

(** A name that can be written in a model string: no [p] either. *)
Definition model_name (x : string) : Prop :=
  term_name x ∧ contains "p" x = false.

(** ** Mappings that [set_distributions] is given *)

(** The tensors that [data] assigns to the factors [factors] agree on the
    dimension length of every variable. *)
Definition consistent_dims (h : heap) (data : gmap string val)
    (factors : list val) : Prop :=
  ∀ fi fj ni nj x di dj,
    fi ∈ factors → fj ∈ factors →
    gives h data fi ni x di → gives h data fj nj x dj → di = dj.

(** [factor] is a node to which the tensor that [data] has for its name is
    attached. *)
Definition attached (h : heap) (data : gmap string val) (factor : val)
  : Prop :=
  ∃ name d, name_of factor h = Ok name ∧ data !! name = Some d ∧
            data_of factor h = Ok d.

(** The graph of [p(h1)] with a tensor that has the axis [h2] as well; its
    graph object, and the mapping that assigns the tensor. *)
Definition surplus_axis_heap : list obj :=
  [ONdarray (Ndarray [2; 2] [0.1; 0.1; 0.4; 0.4]%float);
   ODistribution (VRef 0) ["h1"; "h2"];
   ONode CVariable "h1" [VRef 3] None;
   ONode CFactor "p(h1)" [VRef 2] (Some VNone)].

Definition single_factor_pgm : PGM := mkPGM [VRef 3] {[ "h1" := VRef 2 ]}.

Definition single_factor_data : gmap string val := {[ "p(h1)" := VRef 1 ]}.

(** The same graph with the tensor that the notebook assigns to [p(h1)]:
    the column [[0.2], [0.8]], of shape (2, 1), under the single label
    [h1]. *)
Definition column_heap : list obj :=
  [ONdarray (Ndarray [2; 1] [0.2; 0.8]%float);
   ODistribution (VRef 0) ["h1"];
   ONode CVariable "h1" [VRef 3] None;
   ONode CFactor "p(h1)" [VRef 2] (Some VNone)].

(** ** An engine and a graph without tensors *)

(** The graph of [p(h1)] as [from_string] leaves it, and an engine. *)
Definition untensored_heap : list obj :=
  [ONode CVariable "h1" [VRef 1] None;
   ONode CFactor "p(h1)" [VRef 0] (Some VNone);
   OMessages ∅ []].

(** Two engines, the second of which has a message in its cache. *)
Definition two_engines_heap : list obj :=
  [ONode CVariable "h1" [VRef 1] None;
   ONode CFactor "p(h1)" [VRef 0] (Some VNone);
   OMessages ∅ [];
   OMessages {[ ("h1", "p(h1)") := VNone ]} [("h1", "p(h1)")]].

(* ================================================================= *)
(** * Properties *)

(** ** Computations and heap relations *)

Section respects.
Context (R : heap → heap → Prop).
Hypothesis R_refl : ∀ h, R h h.
Hypothesis R_trans : ∀ h1 h2 h3, R h1 h2 → R h2 h3 → R h1 h3.

Lemma respects_ret {A} (a : A) : respects R (ret a).
Proof using R_refl. intros h. apply R_refl. Qed.

Lemma respects_raise {A} (e : exn) : respects R (raise (A := A) e).
Proof using R_refl. intros h. apply R_refl. Qed.

Lemma respects_lift {A} (r : result A) : respects R (lift r).
Proof using R_refl. intros h. apply R_refl. Qed.

Lemma respects_bind {A B} (m : py A) (k : A → py B) :
  respects R m → (∀ a, respects R (k a)) → respects R (bind m k).
Proof using R_refl R_trans.
  intros Hm Hk h. unfold bind. specialize (Hm h).
  destruct (m h) as [[a|e] h1]; simpl in *; [|done].
  eapply R_trans; [exact Hm|apply Hk].
Qed.

Lemma respects_read {A} (f : heap → result A) : respects R (read f).
Proof using R_refl. intros h. apply R_refl. Qed.

Lemma respects_dict_get {A} (d : gmap string A) k :
  respects R (dict_get d k).
Proof using R_refl.
  unfold dict_get. case_match; [apply respects_ret|apply respects_raise].
Qed.

End respects.

(** One step of a proof that a computation keeps [R]: through [bind], and
    through the heap reads. *)
Ltac respects_step refl trans :=
  first
    [ apply (respects_ret _ refl)
    | apply (respects_raise _ refl)
    | apply (respects_lift _ refl)
    | apply (respects_read _ refl)
    | apply (respects_dict_get _ refl)
    | apply (respects_bind _ refl trans); [|intros ?] ].

(** ** The bipartite invariant *)

Lemma isinstance_app h new v c :
  isinstance h v c = true → isinstance (h ++ new) v c = true.
Proof.
  unfold isinstance, deref. destruct v as [| |l]; try done.
  destruct (h !! l) as [o|] eqn:E; [|done].
  by rewrite (lookup_app_l_Some _ _ _ _ E).
Qed.

Lemma isinstance_insert_node h l c name nbrs d nbrs' d' v c0 :
  h !! l = Some (ONode c name nbrs d) →
  isinstance (<[l := ONode c name nbrs' d']> h) v c0 = isinstance h v c0.
Proof.
  intros Hl. unfold isinstance, deref. destruct v as [| |l0]; try done.
  destruct (decide (l = l0)) as [<-|Hne].
  - rewrite list_lookup_insert_eq by (by eapply lookup_lt_Some). by rewrite Hl.
  - by rewrite list_lookup_insert_ne.
Qed.

Lemma bipartite_nil : bipartite [].
Proof. intros l c name nbrs d Hl. by rewrite lookup_nil in Hl. Qed.

Lemma bipartite_alloc h o :
  (∀ c name nbrs d, o = ONode c name nbrs d → nbrs = []) →
  bipartite h → bipartite (h ++ [o]).
Proof.
  intros Ho Hb l c name nbrs d Hl.
  apply lookup_app_Some in Hl as [Hl|[_ Hl]].
  - destruct (Hb _ _ _ _ _ Hl) as [HV HF].
    split; intros Hc; [specialize (HV Hc)|specialize (HF Hc)];
      (eapply Forall_impl; [eassumption|]); intros v Hv;
      by apply isinstance_app.
  - destruct (l - length h) as [|n]; simpl in Hl;
      [|by rewrite lookup_nil in Hl].
    injection Hl as ->.
    rewrite (Ho _ _ _ _ eq_refl). split; intros _; constructor.
Qed.

Lemma bipartite_set_neighbors h l c name nbrs d nbrs' d' :
  h !! l = Some (ONode c name nbrs d) →
  (c = CVariable → Forall (λ v, isinstance h v CFactor = true) nbrs') →
  (c = CFactor → Forall (λ v, isinstance h v CVariable = true) nbrs') →
  bipartite h → bipartite (<[l := ONode c name nbrs' d']> h).
Proof.
  intros Hl HV HF Hb l0 c0 name0 nbrs0 d0 Hl0.
  assert (Hst : ∀ (vs : list val) c1,
             Forall (λ v, isinstance h v c1 = true) vs →
             Forall (λ v, isinstance (<[l := ONode c name nbrs' d']> h) v c1
                          = true) vs).
  { intros vs c1 Hvs. eapply Forall_impl; [exact Hvs|]. intros v Hv.
    by erewrite isinstance_insert_node. }
  destruct (decide (l = l0)) as [<-|Hne].
  - rewrite list_lookup_insert_eq in Hl0 by (by eapply lookup_lt_Some).
    injection Hl0 as <- <- <- <-. split; intros Hc; apply Hst; auto.
  - rewrite list_lookup_insert_ne in Hl0 by done.
    destruct (Hb _ _ _ _ _ Hl0) as [HV0 HF0].
    split; intros Hc; apply Hst; auto.
Qed.

Lemma keeps_bipartite_refl h : keeps_bipartite h h.
Proof. by intros ?. Qed.

Lemma keeps_bipartite_trans h1 h2 h3 :
  keeps_bipartite h1 h2 → keeps_bipartite h2 h3 → keeps_bipartite h1 h3.
Proof. unfold keeps_bipartite. auto. Qed.

Lemma add_neighbor_invalid h self neighbor :
  isinstance h self CVariable = true ∧ isinstance h neighbor CFactor = false
  ∨ isinstance h self CFactor = true ∧ isinstance h neighbor CVariable = false →
  add_neighbor self neighbor h = (Raise AssertionError, h).
Proof.
  unfold add_neighbor, bind, is_valid_neighbor, read, isinstance at 1 3.
  intros [[Hs Hn]|[Hs Hn]];
    destruct (deref self h) as [[c ? ? ?| | |]|]; try done;
    apply bool_decide_eq_true in Hs as ->; by rewrite Hn.
Qed.

Lemma add_neighbor_valid h l c name nbrs d neighbor :
  h !! l = Some (ONode c name nbrs d) →
  c = CVariable ∧ isinstance h neighbor CFactor = true
  ∨ c = CFactor ∧ isinstance h neighbor CVariable = true →
  add_neighbor (VRef l) neighbor h
  = (Ok (), <[l := ONode c name (nbrs ++ [neighbor]) d]> h).
Proof.
  intros Hl H. unfold add_neighbor, bind, is_valid_neighbor, read. simpl.
  rewrite Hl. destruct H as [[-> Hn]|[-> Hn]]; rewrite Hn;
    unfold append_neighbor; by rewrite Hl.
Qed.

Lemma add_neighbor_bipartite self neighbor :
  respects keeps_bipartite (add_neighbor self neighbor).
Proof.
  intros h Hb. unfold add_neighbor, bind, is_valid_neighbor, read.
  destruct (deref self h) as [[c name nbrs d| | |]|] eqn:Hs; try done.
  destruct self as [| |l]; try done. simpl in Hs.
  destruct c; try done.
  - destruct (isinstance h neighbor CFactor) eqn:Hn; [|done].
    unfold append_neighbor. rewrite Hs. simpl.
    destruct (Hb _ _ _ _ _ Hs) as [HV _].
    apply bipartite_set_neighbors with (nbrs := nbrs) (d := d); try done.
    intros _. apply Forall_app. split; [auto|]. by constructor.
  - destruct (isinstance h neighbor CVariable) eqn:Hn; [|done].
    unfold append_neighbor. rewrite Hs. simpl.
    destruct (Hb _ _ _ _ _ Hs) as [_ HF].
    apply bipartite_set_neighbors with (nbrs := nbrs) (d := d); try done.
    intros _. apply Forall_app. split; [auto|]. by constructor.
Qed.

Lemma new_node_bipartite c name d :
  respects keeps_bipartite (alloc (ONode c name [] d)).
Proof.
  intros h Hb. apply bipartite_alloc; [|done]. by intros ? ? ? ? [= _ _ <- _].
Qed.

Ltac bip_step :=
  first [ apply add_neighbor_bipartite
        | apply new_node_bipartite
        | respects_step keeps_bipartite_refl keeps_bipartite_trans ].

Lemma connect_bipartite new_factor variables names :
  respects keeps_bipartite (connect new_factor variables names).
Proof.
  induction names as [|x names IH]; simpl; repeat bip_step. apply IH.
Qed.

Lemma build_factors_bipartite pts variables :
  respects keeps_bipartite (build_factors pts variables).
Proof.
  induction pts as [|pt pts IH]; simpl; repeat bip_step.
  - apply connect_bipartite.
  - apply IH.
Qed.

Lemma declare_names_bipartite names variables :
  respects keeps_bipartite (declare_names names variables).
Proof.
  revert variables. induction names as [|x names IH]; intros variables; simpl;
    repeat bip_step.
  case_match; repeat bip_step; apply IH.
Qed.

Lemma declare_variables_bipartite pts variables :
  respects keeps_bipartite (declare_variables pts variables).
Proof.
  revert variables. induction pts as [|pt pts IH]; intros variables; simpl;
    repeat bip_step; [apply declare_names_bipartite|apply IH].
Qed.

Lemma from_string_bipartite model_string :
  respects keeps_bipartite (from_string model_string).
Proof.
  unfold from_string, parse_model_into_variables_and_factors.
  bip_step; [|bip_step]. case_match; repeat bip_step.
  - apply declare_variables_bipartite.
  - apply build_factors_bipartite.
Qed.

(** C8.  The bipartite invariant is enforced when an edge is inserted:
    [add_neighbor] on a [Variable] with a neighbour that is not a [Factor],
    or on a [Factor] with a neighbour that is not a [Variable], raises
    [AssertionError] and leaves every object as it was (nothing is appended,
    nothing is skipped silently); a valid neighbour is appended; and the
    invariant that every [Variable] has only [Factor] neighbours and every
    [Factor] only [Variable] neighbours is kept by every call of
    [add_neighbor], whatever its outcome, and so holds after the construction
    of a graph from a model string. *)
Theorem bipartite_enforced_at_insertion :
  (∀ h self neighbor,
      isinstance h self CVariable = true ∧ isinstance h neighbor CFactor = false
      ∨ isinstance h self CFactor = true
        ∧ isinstance h neighbor CVariable = false →
      add_neighbor self neighbor h = (Raise AssertionError, h)) ∧
  (∀ h l c name nbrs d neighbor,
      h !! l = Some (ONode c name nbrs d) →
      c = CVariable ∧ isinstance h neighbor CFactor = true
      ∨ c = CFactor ∧ isinstance h neighbor CVariable = true →
      add_neighbor (VRef l) neighbor h
      = (Ok (), <[l := ONode c name (nbrs ++ [neighbor]) d]> h)) ∧
  (∀ h self neighbor,
      bipartite h → bipartite (add_neighbor self neighbor h).2) ∧
  (∀ h model_string,
      bipartite h → bipartite (from_string model_string h).2).
Proof.
  split; [exact add_neighbor_invalid|].
  split; [exact add_neighbor_valid|].
  split.
  - intros h self neighbor. apply add_neighbor_bipartite.
  - intros h model_string. apply from_string_bipartite.
Qed.

Lemma bipartite_enforced_at_insertion_witness :
  add_neighbor (VRef 0) (VRef 1)
    [ONode CVariable "h1" [] None; ONode CVariable "h2" [] None]
  = (Raise AssertionError,
     [ONode CVariable "h1" [] None; ONode CVariable "h2" [] None])
  ∧ bipartite (from_string chain_model []).2.
Proof.
  split.
  - apply (proj1 bipartite_enforced_at_insertion). left. split; reflexivity.
  - apply (proj2 (proj2 (proj2 bipartite_enforced_at_insertion))).
    apply bipartite_nil.
Defined.

(** The graph of the notebook: four variables, then four factors, each edge
    in both neighbour lists. *)
Example chain_graph :
  from_string chain_model []
  = (Ok (mkPGM [VRef 4; VRef 5; VRef 6; VRef 7]
           {[ "h1" := VRef 0; "h2" := VRef 1;
              "v1" := VRef 2; "v2" := VRef 3 ]}),
     [ONode CVariable "h1" [VRef 4; VRef 5; VRef 6] None;
      ONode CVariable "h2" [VRef 5; VRef 7] None;
      ONode CVariable "v1" [VRef 6] None;
      ONode CVariable "v2" [VRef 7] None;
      ONode CFactor "p(h1)" [VRef 0] (Some VNone);
      ONode CFactor "p(h2|h1)" [VRef 1; VRef 0] (Some VNone);
      ONode CFactor "p(v1|h1)" [VRef 2; VRef 0] (Some VNone);
      ONode CFactor "p(v2|h2)" [VRef 3; VRef 1] (Some VNone)]).
Proof. vm_compute. reflexivity. Qed.

(** Model strings that the parser refuses: two bars in a term, a variable
    name with a [p] in it, a variable that is only conditioned on. *)
Example parser_errors :
  _parse_model_string_into_terms "p(a|b|c)" = Raise ValueError_unpack ∧
  _parse_model_string_into_terms "p(p1)" = Raise AssertionError ∧
  (from_string "p(a|b)" []).1 = Raise (KeyError "b").
Proof. repeat split; vm_compute; reflexivity. Qed.

(** An instance of the base class has no [is_valid_neighbor] to run. *)
Example add_neighbor_base_class :
  add_neighbor (VRef 0) (VRef 1)
    [ONode CNode "n" [] None; ONode CFactor "f" [] (Some VNone)]
  = (Raise TypeError,
     [ONode CNode "n" [] None; ONode CFactor "f" [] (Some VNone)]).
Proof. reflexivity. Qed.

(** ** [set_distributions] *)

Lemma bind_read {A B} (f : heap → result A) (k : A → py B) h :
  bind (read f) k h
  = match f h with Ok a => k a h | Raise e => (Raise e, h) end.
Proof. unfold bind, read. by destruct (f h). Qed.

Lemma bind_ret {A B} (a : A) (k : A → py B) h : bind (ret a) k h = k a h.
Proof. done. Qed.

Lemma bind_lift {A B} (r : result A) (k : A → py B) h :
  bind (lift r) k h
  = match r with Ok a => k a h | Raise e => (Raise e, h) end.
Proof. unfold bind, lift. by destruct r. Qed.

Lemma bind_alloc {B} (o : obj) (k : val → py B) h :
  bind (alloc o) k h = k (VRef (length h)) (h ++ [o]).
Proof. done. Qed.

Lemma bind_bind {A B C} (m : py A) (f : A → py B) (k : B → py C) h :
  bind (bind m f) k h = bind m (λ x, bind (f x) k) h.
Proof. unfold bind. by destruct (m h) as [[a|e] h']. Qed.

Lemma check_dims_variants_agree factor_name pairs var_dims :
  check_dims_ipynb factor_name pairs var_dims
  = check_dims factor_name pairs var_dims.
Proof.
  revert var_dims. induction pairs as [|[x d] pairs IH]; intros vd; [done|].
  simpl. destruct (vd !! x) as [e|] eqn:E.
  - rewrite E. case_bool_decide; [done|apply IH].
  - rewrite lookup_insert_eq. rewrite bool_decide_eq_false_2 by auto.
    apply IH.
Qed.

Lemma check_dims_ok factor_name pairs vd vd' :
  check_dims factor_name pairs vd = Ok vd' →
  vd ⊆ vd' ∧
  (∀ x d, (x, d) ∈ pairs → vd' !! x = Some d) ∧
  (∀ x d, vd' !! x = Some d → vd !! x = Some d ∨ (x, d) ∈ pairs).
Proof.
  revert vd. induction pairs as [|[x d] pairs IH]; intros vd; simpl.
  { intros [= <-]. split; [done|]. split; [|by left].
    intros ?? H. by apply elem_of_nil in H. }
  destruct (vd !! x) as [e|] eqn:E.
  - case_bool_decide as Hne; [done|]. subst e.
    intros H. destruct (IH _ H) as (Hsub & Hin & Hout).
    split; [done|]. split.
    + intros y d' [[= -> ->]|Hy]%elem_of_cons; [|by apply Hin].
      by eapply lookup_weaken.
    + intros y d' Hy. destruct (Hout _ _ Hy); [by left|].
      right. by apply elem_of_cons; right.
  - intros H. destruct (IH _ H) as (Hsub & Hin & Hout).
    split; [|split].
    + etrans; [|exact Hsub]. by apply insert_subseteq.
    + intros y d' [[= -> ->]|Hy]%elem_of_cons; [|by apply Hin].
      eapply lookup_weaken; [|exact Hsub]. apply lookup_insert_eq.
    + intros y d' Hy. destruct (Hout _ _ Hy) as [Hi|Hi].
      * destruct (decide (x = y)) as [<-|Hne].
        -- rewrite lookup_insert_eq in Hi. injection Hi as <-.
           right. apply elem_of_cons; by left.
        -- rewrite lookup_insert_ne in Hi by done. by left.
      * right. apply elem_of_cons; by right.
Qed.

Lemma check_dims_raise factor_name pairs vd e :
  check_dims factor_name pairs vd = Raise e →
  ∃ y dim expected,
    e = ValueError_wrong_size factor_name dim expected ∧
    (y, dim) ∈ pairs ∧ dim ≠ expected ∧
    (vd !! y = Some expected ∨ (y, expected) ∈ pairs).
Proof.
  revert vd. induction pairs as [|[x d] pairs IH]; intros vd; simpl; [done|].
  destruct (vd !! x) as [e0|] eqn:E.
  - case_bool_decide as Hne.
    + intros [= <-]. exists x, d, e0. split; [done|].
      split; [apply elem_of_cons; by left|]. split; [done|by left].
    + intros H. destruct (IH _ H) as (y & dim & ex & -> & Hy & Hd & Hex).
      exists y, dim, ex. split; [done|]. split; [apply elem_of_cons; by right|].
      split; [done|]. destruct Hex; [by left|right; apply elem_of_cons; by right].
  - intros H. destruct (IH _ H) as (y & dim & ex & -> & Hy & Hd & Hex).
    exists y, dim, ex. split; [done|]. split; [apply elem_of_cons; by right|].
    split; [done|]. destruct Hex as [Hex|Hex].
    + destruct (decide (x = y)) as [<-|Hne].
      * rewrite lookup_insert_eq in Hex. injection Hex as <-.
        right. apply elem_of_cons; by left.
      * rewrite lookup_insert_ne in Hex by done. by left.
    + right. apply elem_of_cons; by right.
Qed.

(** The body of the loop, with its reads of the heap made explicit. *)
Lemma set_distribution_unfold data factor var_dims h :
  set_distribution data factor var_dims h =
  match name_of factor h with
  | Raise e => (Raise e, h)
  | Ok name =>
  match data !! name with
  | None => (Raise (KeyError name), h)
  | Some d =>
  match axes_labels_of d h with
  | Raise e => (Raise e, h)
  | Ok labels =>
  match neighbors_of factor h with
  | Raise e => (Raise e, h)
  | Ok neighbors =>
  match names_of neighbors h with
  | Raise e => (Raise e, h)
  | Ok names =>
  if bool_decide ((list_to_set labels : gset string) ≠ list_to_set names)
  then (Raise (ValueError_missing_axes name
                 (list_to_set names ∖ list_to_set labels)), h)
  else
  match probs_of d h with
  | Raise e => (Raise e, h)
  | Ok probs =>
  match array_of probs h with
  | Raise e => (Raise e, h)
  | Ok a =>
  match check_dims name (zip labels (shape a)) var_dims with
  | Raise e => (Raise e, h)
  | Ok var_dims' =>
  match set_data factor d h with
  | (Ok _, h') => (Ok var_dims', h')
  | (Raise e, h') => (Raise e, h')
  end end end end end end end end end.
Proof.
  unfold set_distribution, get_name, get_axes_labels, get_neighbors,
    get_names, get_probs, get_array, dict_get.
  rewrite bind_read. destruct (name_of factor h) as [name|]; [|done].
  destruct (data !! name) as [d|]; [|done].
  unfold bind at 1, ret at 1. rewrite bind_read.
  destruct (axes_labels_of d h) as [labels|]; [|done].
  rewrite bind_read. destruct (neighbors_of factor h) as [nbrs|]; [|done].
  rewrite bind_read. destruct (names_of nbrs h) as [names|]; [|done].
  case_bool_decide; [done|].
  rewrite bind_read. destruct (probs_of d h) as [probs|]; [|done].
  rewrite bind_read. destruct (array_of probs h) as [a|]; [|done].
  unfold bind, lift, ret.
  destruct (check_dims name (zip labels (shape a)) var_dims); [|done].
  by destruct (set_data factor d h) as [[[]|] ?].
Qed.

Lemma set_data_node l c name neighbors d0 d h :
  h !! l = Some (ONode c name neighbors d0) →
  set_data (VRef l) d h = (Ok (), <[l := ONode c name neighbors (Some d)]> h).
Proof. intros Hl. unfold set_data. by rewrite Hl. Qed.

Lemma name_of_node v h name :
  name_of v h = Ok name →
  ∃ l c neighbors d, v = VRef l ∧ h !! l = Some (ONode c name neighbors d).
Proof.
  unfold name_of, deref. destruct v as [| |l]; try done.
  destruct (h !! l) as [[c n nb d| | |]|] eqn:E; try done.
  intros [= ->]. by exists l, c, nb, d.
Qed.

(** What one iteration does: either it raises and leaves the heap as it
    was, or it attaches the factor's tensor and changes nothing else. *)
Lemma set_distribution_inv data factor var_dims h r h1 :
  set_distribution data factor var_dims h = (r, h1) →
  (∃ e, r = Raise e ∧ h1 = h) ∨
  (∃ var_dims' l c name neighbors d0 d labels probs a,
      r = Ok var_dims' ∧ factor = VRef l ∧
      h !! l = Some (ONode c name neighbors d0) ∧ data !! name = Some d ∧
      axes_labels_of d h = Ok labels ∧ probs_of d h = Ok probs ∧
      array_of probs h = Ok a ∧
      check_dims name (zip labels (shape a)) var_dims = Ok var_dims' ∧
      h1 = <[l := ONode c name neighbors (Some d)]> h).
Proof.
  rewrite set_distribution_unfold.
  destruct (name_of factor h) as [name|e] eqn:Hn;
    [|intros [= <- <-]; left; by eexists].
  destruct (name_of_node _ _ _ Hn) as (l & c & nbrs & d0 & -> & Hl).
  destruct (data !! name) as [d|] eqn:Hd;
    [|intros [= <- <-]; left; by eexists].
  rewrite (set_data_node _ _ _ _ _ d _ Hl).
  repeat (case_match; try (intros [= <- <-]; left; by eexists)).
  intros [= <- <-]. right. by repeat eexists.
Qed.

(** *** Heaps that differ in [data] attributes only *)

Lemma data_only_refl h : data_only h h.
Proof. intros l. destruct (h !! l) as [[]|]; eauto. Qed.

Lemma data_only_trans h1 h2 h3 :
  data_only h1 h2 → data_only h2 h3 → data_only h1 h3.
Proof.
  intros H12 H23 l. specialize (H12 l). specialize (H23 l).
  destruct (h1 !! l) as [[c n nb d| | |]|].
  - destruct H12 as [d' H12]. by rewrite H12 in H23.
  - by rewrite H12 in H23.
  - by rewrite H12 in H23.
  - by rewrite H12 in H23.
  - by rewrite H12 in H23.
Qed.

Lemma data_only_set_data l c name neighbors d0 d h :
  h !! l = Some (ONode c name neighbors d0) →
  data_only h (<[l := ONode c name neighbors d]> h).
Proof.
  intros Hl l'. destruct (decide (l = l')) as [<-|Hne].
  - rewrite Hl, list_lookup_insert_eq by (by eapply lookup_lt_Some). eauto.
  - rewrite list_lookup_insert_ne by done. destruct (h !! l') as [[]|]; eauto.
Qed.

Lemma data_only_name_of h h' v : data_only h h' → name_of v h' = name_of v h.
Proof.
  intros H. unfold name_of, deref. destruct v as [| |l]; try done.
  specialize (H l). destruct (h !! l) as [[c n nb d| | |]|].
  - destruct H as [d' ->]. done.
  - by rewrite H.
  - by rewrite H.
  - by rewrite H.
  - by rewrite H.
Qed.

Lemma data_only_neighbors_of h h' v :
  data_only h h' → neighbors_of v h' = neighbors_of v h.
Proof.
  intros H. unfold neighbors_of, deref. destruct v as [| |l]; try done.
  specialize (H l). destruct (h !! l) as [[c n nb d| | |]|].
  - destruct H as [d' ->]. done.
  - by rewrite H.
  - by rewrite H.
  - by rewrite H.
  - by rewrite H.
Qed.

Lemma data_only_names_of h h' vs :
  data_only h h' → names_of vs h' = names_of vs h.
Proof.
  intros H. induction vs as [|v vs IH]; [done|]. simpl.
  by rewrite (data_only_name_of _ _ _ H), IH.
Qed.

Lemma data_only_axes_labels_of h h' v :
  data_only h h' → axes_labels_of v h' = axes_labels_of v h.
Proof.
  intros H. unfold axes_labels_of, deref. destruct v as [| |l]; try done.
  specialize (H l). destruct (h !! l) as [[c n nb d| | |]|].
  - destruct H as [d' ->]. done.
  - by rewrite H.
  - by rewrite H.
  - by rewrite H.
  - by rewrite H.
Qed.

Lemma data_only_probs_of h h' v :
  data_only h h' → probs_of v h' = probs_of v h.
Proof.
  intros H. unfold probs_of, deref. destruct v as [| |l]; try done.
  specialize (H l). destruct (h !! l) as [[c n nb d| | |]|].
  - destruct H as [d' ->]. done.
  - by rewrite H.
  - by rewrite H.
  - by rewrite H.
  - by rewrite H.
Qed.

Lemma data_only_array_of h h' v :
  data_only h h' → array_of v h' = array_of v h.
Proof.
  intros H. unfold array_of, deref. destruct v as [| |l]; try done.
  specialize (H l). destruct (h !! l) as [[c n nb d| | |]|].
  - destruct H as [d' ->]. done.
  - by rewrite H.
  - by rewrite H.
  - by rewrite H.
  - by rewrite H.
Qed.

Lemma data_of_set_data l c name neighbors d h :
  l < length h →
  data_of (VRef l) (<[l := ONode c name neighbors (Some d)]> h) = Ok d.
Proof.
  intros Hl. unfold data_of, deref. by rewrite list_lookup_insert_eq.
Qed.

(** *** The loop stops at the first factor that fails *)

Lemma set_distributions_loop_cons data f fs var_dims h :
  set_distributions_loop data (f :: fs) var_dims h
  = match set_distribution data f var_dims h with
    | (Ok var_dims', h') => set_distributions_loop data fs var_dims' h'
    | (Raise e, h') => (Raise e, h')
    end.
Proof. done. Qed.

Lemma set_distributions_loop_raise data factors var_dims h e h' :
  set_distributions_loop data factors var_dims h = (Raise e, h') →
  ∃ done failing rest,
    factors = done ++ failing :: rest ∧
    (∃ var_dims', set_distribution data failing var_dims' h' = (Raise e, h')) ∧
    (∀ f, f ∈ done →
          ∃ name d, name_of f h = Ok name ∧ data !! name = Some d ∧
                    data_of f h' = Ok d) ∧
    (∀ l, VRef l ∉ done → h' !! l = h !! l) ∧
    data_only h h'.
Proof.
  revert var_dims h. induction factors as [|f fs IH]; intros vd h; [done|].
  rewrite set_distributions_loop_cons.
  destruct (set_distribution data f vd h) as [r h1] eqn:Hf.
  destruct (set_distribution_inv _ _ _ _ _ _ Hf)
    as [(e0 & -> & ->)|(vd' & l & c & name & nbrs & d0 & d & labels & probs
                          & a & -> & -> & Hl & Hd & _ & _ & _ & _ & ->)].
  - intros [= <- <-]. exists [], f, fs. split; [done|].
    split; [by exists vd|]. split; [by intros ? ?%elem_of_nil|].
    split; [done|apply data_only_refl].
  - intros Hloop.
    destruct (IH _ _ Hloop) as (done & failing & rest & -> & Hfail & Hdone
                                  & Hframe & Honly).
    pose proof (data_only_set_data _ _ _ _ _ (Some d) _ Hl) as Hstep.
    assert (Hlt : l < length h) by (by eapply lookup_lt_Some).
    exists (VRef l :: done), failing, rest. split; [done|].
    split; [done|]. split; [|split].
    + intros f [->|Hf']%elem_of_cons.
      * exists name, d. split; [unfold name_of; simpl; by rewrite Hl|].
        split; [done|].
        destruct (decide (VRef l ∈ done)) as [Hin|Hnin].
        -- destruct (Hdone _ Hin) as (name' & d' & Hn' & Hd' & ->).
           rewrite (data_only_name_of _ _ _ Hstep) in Hn'.
           unfold name_of in Hn'. simpl in Hn'. rewrite Hl in Hn'.
           injection Hn' as <-. congruence.
        -- unfold data_of, deref. rewrite (Hframe _ Hnin).
           by rewrite list_lookup_insert_eq.
      * destruct (Hdone _ Hf') as (name' & d' & Hn' & Hd' & Hdata).
        exists name', d'. by rewrite <-(data_only_name_of _ _ _ Hstep).
    + intros l0 Hl0. rewrite Hframe.
      * apply list_lookup_insert_ne. intros ->. apply Hl0, elem_of_cons.
        by left.
      * intros Hin. apply Hl0, elem_of_cons. by right.
    + by eapply data_only_trans.
Qed.

(** C2, as amended.  [set_distributions] is not atomic: it checks and
    attaches one factor after the other, in the order of the factors.  When
    it raises, it does so in the iteration of one factor, which changes
    nothing; the factors before that one have the tensor of their name
    attached, and no other object of the heap (the failing factor, the
    factors after it, the tensors) is modified. *)
Theorem set_distributions_attaches_prefix self data h e h' :
  set_distributions self data h = (Raise e, h') →
  ∃ done failing rest,
    _factors self = done ++ failing :: rest ∧
    (∃ var_dims, set_distribution data failing var_dims h' = (Raise e, h')) ∧
    (∀ f, f ∈ done →
          ∃ name d, name_of f h = Ok name ∧ data !! name = Some d ∧
                    data_of f h' = Ok d) ∧
    (∀ l, VRef l ∉ done → h' !! l = h !! l).
Proof.
  intros H. apply set_distributions_loop_raise in H
    as (done & failing & rest & ? & ? & ? & ? & _).
  by exists done, failing, rest.
Qed.

(** At the second factor of the chain [p(h2|h1)] is found to give [h1] three
    values where [p(h1)] gave it two: the call raises, after [p(h1)] was
    attached to the first factor. *)
Lemma set_distributions_not_atomic :
  ∃ h' f,
    set_distributions (built inconsistent_tensors).1.1
      (built inconsistent_tensors).1.2 (built inconsistent_tensors).2
    = (Raise (ValueError_wrong_size "p(h2|h1)" 3 2), h') ∧
    f ∈ _factors (built inconsistent_tensors).1.1 ∧
    name_of f (built inconsistent_tensors).2 = Ok "p(h1)" ∧
    data_of f (built inconsistent_tensors).2 = Ok VNone ∧
    data_of f h' = Ok (VRef 1) ∧
    (built inconsistent_tensors).1.2 !! "p(h1)" = Some (VRef 1).
Proof.
  eexists _, (VRef 11). split; [vm_compute; reflexivity|].
  split; [apply list_elem_of_lookup; by exists 0|].
  vm_compute. done.
Qed.

Lemma set_distributions_attaches_prefix_witness :
  ∃ done failing rest,
    _factors (built inconsistent_tensors).1.1 = done ++ failing :: rest ∧
    (∃ var_dims,
        set_distribution (built inconsistent_tensors).1.2 failing var_dims
          (set_distributions (built inconsistent_tensors).1.1
             (built inconsistent_tensors).1.2
             (built inconsistent_tensors).2).2
        = (Raise (ValueError_wrong_size "p(h2|h1)" 3 2),
           (set_distributions (built inconsistent_tensors).1.1
              (built inconsistent_tensors).1.2
              (built inconsistent_tensors).2).2)) ∧
    (∀ f, f ∈ done →
          ∃ name d,
            name_of f (built inconsistent_tensors).2 = Ok name ∧
            (built inconsistent_tensors).1.2 !! name = Some d ∧
            data_of f
              (set_distributions (built inconsistent_tensors).1.1
                 (built inconsistent_tensors).1.2
                 (built inconsistent_tensors).2).2 = Ok d) ∧
    (∀ l, VRef l ∉ done →
          (set_distributions (built inconsistent_tensors).1.1
             (built inconsistent_tensors).1.2
             (built inconsistent_tensors).2).2 !! l
          = (built inconsistent_tensors).2 !! l).
Proof.
  apply (set_distributions_attaches_prefix
           (built inconsistent_tensors).1.1 (built inconsistent_tensors).1.2
           (built inconsistent_tensors).2).
  vm_compute. reflexivity.
Defined.

(** *** A factor without an entry *)

(** The loop over the factors up to one without an entry, and the loop over
    all of them. *)
Lemma set_distributions_loop_no_entry data done f rest name var_dims h :
  name_of f h = Ok name → data !! name = None →
  set_distributions_loop data (done ++ f :: rest) var_dims h
  = match set_distributions_loop data done var_dims h with
    | (Ok _, h1) => (Raise (KeyError name), h1)
    | (Raise e, h1) => (Raise e, h1)
    end.
Proof.
  intros Hn Hd. revert var_dims h Hn.
  induction done as [|g done IH]; intros vd h Hn; simpl app.
  - by rewrite set_distributions_loop_cons, set_distribution_unfold, Hn, Hd.
  - rewrite !set_distributions_loop_cons.
    destruct (set_distribution data g vd h) as [r h'] eqn:Hg.
    destruct (set_distribution_inv _ _ _ _ _ _ Hg)
      as [(e0 & -> & ->)|(vd' & l & c & name' & nbrs & d0 & d & labels & probs
                            & a & -> & -> & Hl & _ & _ & _ & _ & _ & ->)].
    + done.
    + apply IH. rewrite <-Hn. apply data_only_name_of.
      by eapply data_only_set_data.
Qed.

(** C10, as amended.  A mapping without an entry for the name of some factor
    makes [set_distributions] fail, whatever else it holds.  The loop takes
    the factors in order and stops at the first error.  When the factors
    before the one without an entry pass their checks, the call raises the
    [KeyError] of [data[factor.name]] for its name, on the heap that those
    factors left, whatever the neighbours of the factor are: the lookup
    comes before its axis and dimension checks.  When one of the factors
    before it fails a check, the call raises the error of that factor
    instead. *)
Theorem set_distributions_missing_entry self data h done f rest name :
  _factors self = done ++ f :: rest →
  name_of f h = Ok name → data !! name = None →
  is_raise (set_distributions self data h).1 = true ∧
  set_distributions self data h
  = match set_distributions (mkPGM done (_variables self)) data h with
    | (Ok _, h1) => (Raise (KeyError name), h1)
    | (Raise e, h1) => (Raise e, h1)
    end.
Proof.
  intros Hf Hn Hd. unfold set_distributions. rewrite Hf. simpl.
  rewrite (set_distributions_loop_no_entry _ _ _ _ _ _ _ Hn Hd).
  split; [|done].
  by destruct (set_distributions_loop data done ∅ h) as [[[]|e] h1].
Qed.

Lemma set_distributions_missing_entry_witness :
  is_raise
    (set_distributions (built incomplete_tensors).1.1
       (built incomplete_tensors).1.2 (built incomplete_tensors).2).1 = true ∧
  ∃ h1,
    set_distributions
      (mkPGM [VRef 10; VRef 11] (_variables (built incomplete_tensors).1.1))
      (built incomplete_tensors).1.2 (built incomplete_tensors).2
    = (Ok (), h1) ∧
    set_distributions (built incomplete_tensors).1.1
      (built incomplete_tensors).1.2 (built incomplete_tensors).2
    = (Raise (KeyError "p(v1|h1)"), h1).
Proof.
  destruct (set_distributions_missing_entry
              (built incomplete_tensors).1.1 (built incomplete_tensors).1.2
              (built incomplete_tensors).2
              [VRef 10; VRef 11] (VRef 12) [VRef 13] "p(v1|h1)")
    as [Hraise Hcall]; [vm_compute; reflexivity..|].
  split; [exact Hraise|].
  eexists. split; [vm_compute; reflexivity|].
  rewrite Hcall. vm_compute. reflexivity.
Defined.

(** The mapping has no entry for [p(v1|h1)], the third factor of the chain,
    but the call raises the [ValueError] of the second, whose tensor takes
    [h1] to have three values. *)
Lemma set_distributions_missing_entry_preempted :
  VRef 12 ∈ _factors (built conflicting_incomplete_tensors).1.1 ∧
  name_of (VRef 12) (built conflicting_incomplete_tensors).2
  = Ok "p(v1|h1)" ∧
  (built conflicting_incomplete_tensors).1.2 !! "p(v1|h1)" = None ∧
  (set_distributions (built conflicting_incomplete_tensors).1.1
     (built conflicting_incomplete_tensors).1.2
     (built conflicting_incomplete_tensors).2).1
  = Raise (ValueError_wrong_size "p(h2|h1)" 3 2).
Proof.
  split; [apply list_elem_of_lookup; exists 2; vm_compute; reflexivity|].
  split; [vm_compute; reflexivity|].
  split; vm_compute; reflexivity.
Qed.

(** *** Inconsistent dimensions *)

Lemma tensor_of_functional h data f n1 l1 s1 n2 l2 s2 :
  tensor_of h data f n1 l1 s1 → tensor_of h data f n2 l2 s2 →
  n1 = n2 ∧ l1 = l2 ∧ s1 = s2.
Proof.
  intros (d1 & p1 & a1 & Hn1 & Hd1 & Hl1 & Hp1 & Ha1 & <-)
         (d2 & p2 & a2 & Hn2 & Hd2 & Hl2 & Hp2 & Ha2 & <-).
  rewrite Hn1 in Hn2. injection Hn2 as <-.
  rewrite Hd1 in Hd2. injection Hd2 as <-.
  rewrite Hl1 in Hl2. injection Hl2 as <-.
  rewrite Hp1 in Hp2. injection Hp2 as <-.
  rewrite Ha1 in Ha2. by injection Ha2 as <-.
Qed.

Lemma set_distributions_loop_dims data (F : list val) h0 factors :
  Forall (axes_match h0 data) factors →
  (∀ f, f ∈ factors → f ∈ F) →
  ∀ var_dims h,
    data_only h0 h →
    (∀ y expected,
        var_dims !! y = Some expected →
        ∃ f' name', f' ∈ F ∧ gives h0 data f' name' y expected) →
    (∃ f name y dim f' name' expected,
        (set_distributions_loop data factors var_dims h).1
        = Raise (ValueError_wrong_size name dim expected) ∧
        f ∈ factors ∧ gives h0 data f name y dim ∧
        f' ∈ F ∧ gives h0 data f' name' y expected ∧ dim ≠ expected)
    ∨ (∃ var_dims',
          var_dims ⊆ var_dims' ∧
          ∀ f name y d,
            f ∈ factors → gives h0 data f name y d → var_dims' !! y = Some d).
Proof.
  induction 1 as [|f fs Hf Hfs IH]; intros HF vd h Honly Hvd.
  { right. exists vd. split; [done|]. by intros ? ? ? ? ?%elem_of_nil. }
  destruct Hf as (name & labels & s & nbrs & names & Ht & Hnb & Hnames & Hset).
  pose proof Ht as (d & probs & a & Hn & Hd & Hl & Hp & Ha & Hs).
  assert (HfF : f ∈ F) by (apply HF, elem_of_cons; by left).
  rewrite set_distributions_loop_cons, set_distribution_unfold.
  rewrite (data_only_name_of _ _ _ Honly), Hn, Hd.
  rewrite (data_only_axes_labels_of _ _ _ Honly), Hl.
  rewrite (data_only_neighbors_of _ _ _ Honly), Hnb.
  rewrite (data_only_names_of _ _ _ Honly), Hnames.
  rewrite bool_decide_eq_false_2 by (by intros ?).
  rewrite (data_only_probs_of _ _ _ Honly), Hp.
  rewrite (data_only_array_of _ _ _ Honly), Ha, Hs.
  destruct (check_dims name (zip labels s) vd) as [vd1|e] eqn:Hc.
  - destruct (check_dims_ok _ _ _ _ Hc) as (Hsub & Hin & Hout).
    destruct (name_of_node f h name) as (l & c & nbrs' & d0 & -> & Hlh).
    { by rewrite (data_only_name_of _ _ _ Honly). }
    rewrite (set_data_node _ _ _ _ _ d _ Hlh).
    destruct (IH (λ f' Hf', HF f' (proj2 (elem_of_cons _ _ _) (or_intror Hf')))
                vd1 (<[l := ONode c name nbrs' (Some d)]> h))
      as [(f1 & n1 & y & dim & f' & n' & ex & Hr & Hf1 & Hg1 & Hf' & Hg' & Hne)
         |(vd' & Hsub' & Hcover)].
    + eapply data_only_trans; [exact Honly|].
      by eapply data_only_set_data.
    + intros y ex Hy. destruct (Hout _ _ Hy) as [Hy'|Hy']; [by apply Hvd|].
      exists (VRef l), name. split; [done|]. by exists labels, s.
    + left. exists f1, n1, y, dim, f', n', ex. split; [done|].
      split; [apply elem_of_cons; by right|done].
    + right. exists vd'. split; [by etrans|].
      intros f1 n1 y d1 [->|Hf1]%elem_of_cons Hg; [|by eapply Hcover].
      destruct Hg as (labels1 & s1 & Ht1 & Hy).
      destruct (tensor_of_functional _ _ _ _ _ _ _ _ _ Ht Ht1) as (_ & <- & <-).
      eapply lookup_weaken; [|exact Hsub']. by apply Hin.
  - destruct (check_dims_raise _ _ _ _ Hc)
      as (y & dim & ex & -> & Hy & Hne & Hex).
    left. destruct Hex as [Hex|Hex].
    + destruct (Hvd _ _ Hex) as (f' & n' & Hf' & Hg').
      exists f, name, y, dim, f', n', ex. split; [done|].
      split; [apply elem_of_cons; by left|].
      split; [by exists labels, s|done].
    + exists f, name, y, dim, f, name, ex. split; [done|].
      split; [apply elem_of_cons; by left|].
      split; [by exists labels, s|]. split; [done|].
      split; [by exists labels, s|done].
Qed.

(** When the loop returns, every factor had an entry whose axes are the
    names of its neighbours, and the dimension lengths were consistent. *)
Lemma set_distributions_loop_valid data h0 factors :
  ∀ var_dims h h',
    data_only h0 h →
    set_distributions_loop data factors var_dims h = (Ok (), h') →
    Forall (axes_match h0 data) factors ∧
    ∃ var_dims',
      var_dims ⊆ var_dims' ∧
      ∀ f name y d,
        f ∈ factors → gives h0 data f name y d → var_dims' !! y = Some d.
Proof.
  induction factors as [|f fs IH]; intros vd h h' Honly.
  { intros _. split; [constructor|]. exists vd. split; [done|].
    by intros ? ? ? ? ?%elem_of_nil. }
  rewrite set_distributions_loop_cons, set_distribution_unfold.
  rewrite (data_only_name_of _ _ _ Honly).
  destruct (name_of f h0) as [name|] eqn:Hn; [|done].
  destruct (data !! name) as [d|] eqn:Hd; [|done].
  rewrite (data_only_axes_labels_of _ _ _ Honly).
  destruct (axes_labels_of d h0) as [labels|] eqn:Hl; [|done].
  rewrite (data_only_neighbors_of _ _ _ Honly).
  destruct (neighbors_of f h0) as [nbrs|] eqn:Hnb; [|done].
  rewrite (data_only_names_of _ _ _ Honly).
  destruct (names_of nbrs h0) as [names|] eqn:Hnames; [|done].
  case_bool_decide as Hset; [done|].
  rewrite (data_only_probs_of _ _ _ Honly).
  destruct (probs_of d h0) as [probs|] eqn:Hp; [|done].
  rewrite (data_only_array_of _ _ _ Honly).
  destruct (array_of probs h0) as [a|] eqn:Ha; [|done].
  destruct (check_dims name (zip labels (shape a)) vd) as [vd1|] eqn:Hc;
    [|done].
  destruct (name_of_node f h name) as (l & c & nbrs' & d0 & -> & Hlh).
  { by rewrite (data_only_name_of _ _ _ Honly). }
  rewrite (set_data_node _ _ _ _ _ d _ Hlh). intros Hloop.
  destruct (IH vd1 (<[l := ONode c name nbrs' (Some d)]> h) h')
    as (Hall & vd' & Hsub' & Hcover); [|done|].
  { eapply data_only_trans; [exact Honly|]. by eapply data_only_set_data. }
  destruct (check_dims_ok _ _ _ _ Hc) as (Hsub & Hin & _).
  assert (Ht : tensor_of h0 data (VRef l) name labels (shape a))
    by (by exists d, probs, a).
  split.
  - constructor; [|done]. exists name, labels, (shape a), nbrs, names.
    by repeat split.
  - exists vd'. split; [by etrans|].
    intros f1 n1 y d1 [->|Hf1]%elem_of_cons Hg; [|by eapply Hcover].
    destruct Hg as (labels1 & s1 & Ht1 & Hy).
    destruct (tensor_of_functional _ _ _ _ _ _ _ _ _ Ht Ht1) as (_ & <- & <-).
    eapply lookup_weaken; [|exact Hsub']. by apply Hin.
Qed.

(** An error raised in an initial segment of the factors is the error of
    the whole loop. *)
Lemma set_distributions_loop_app_raise data upto rest var_dims h e :
  (set_distributions_loop data upto var_dims h).1 = Raise e →
  (set_distributions_loop data (upto ++ rest) var_dims h).1 = Raise e.
Proof.
  revert var_dims h. induction upto as [|g upto IH]; intros vd h; simpl app.
  { done. }
  rewrite !set_distributions_loop_cons.
  destruct (set_distribution data g vd h) as [[vd'|e'] h']; [apply IH|done].
Qed.

(** C6, as amended.  Let the tensors of two factors give one variable two
    different dimension lengths.  Then [set_distributions] raises.  Let
    moreover [upto] be an initial segment of the factors that holds the two,
    and let every factor of the segment have an entry whose axes are the
    names of its neighbours (the factors after the segment may have any
    entry, or none).  Then the error is the [ValueError] "axes is wrong
    size", formatted from the name of a factor of the segment, a size found
    in the tensor of that factor, and the expected size, which the tensor
    of a factor of the segment gives the same variable. *)
Theorem set_distributions_wrong_size
    self data h upto rest fi fj ni nj x di dj :
  _factors self = upto ++ rest →
  fi ∈ upto → fj ∈ upto →
  gives h data fi ni x di → gives h data fj nj x dj → di ≠ dj →
  is_raise (set_distributions self data h).1 = true ∧
  (Forall (axes_match h data) upto →
   ∃ f name y dim f' name' expected,
     (set_distributions self data h).1
     = Raise (ValueError_wrong_size name dim expected) ∧
     f ∈ upto ∧ gives h data f name y dim ∧
     f' ∈ upto ∧ gives h data f' name' y expected ∧
     dim ≠ expected).
Proof.
  intros Hfs Hfi Hfj Hgi Hgj Hne. unfold set_distributions. rewrite Hfs.
  split.
  - destruct (set_distributions_loop data (upto ++ rest) ∅ h)
      as [[[]|e] h'] eqn:Hloop; [|done].
    destruct (set_distributions_loop_valid data h (upto ++ rest) ∅ h h'
                (data_only_refl h) Hloop) as (_ & vd' & _ & Hcover).
    assert (∀ f, f ∈ upto → f ∈ upto ++ rest) as Hin.
    { intros f Hf. apply elem_of_app. by left. }
    pose proof (Hcover _ _ _ _ (Hin _ Hfi) Hgi) as H1.
    pose proof (Hcover _ _ _ _ (Hin _ Hfj) Hgj) as H2. congruence.
  - intros Hall.
    destruct (set_distributions_loop_dims data upto h upto
                Hall (λ f Hf, Hf) ∅ h (data_only_refl h))
      as [(f & n & y & dim & f' & n' & ex & Hr & H)|(vd' & _ & Hcover)].
    + intros y ex Hy. by rewrite lookup_empty in Hy.
    + exists f, n, y, dim, f', n', ex. split; [|done].
      by apply set_distributions_loop_app_raise.
    + pose proof (Hcover _ _ _ _ Hfi Hgi) as H1.
      pose proof (Hcover _ _ _ _ Hfj Hgj) as H2. congruence.
Qed.

Lemma set_distributions_wrong_size_witness :
  is_raise
    (set_distributions (built conflicting_incomplete_tensors).1.1
       (built conflicting_incomplete_tensors).1.2
       (built conflicting_incomplete_tensors).2).1 = true ∧
  ∃ f name y dim f' name' expected,
    (set_distributions (built conflicting_incomplete_tensors).1.1
       (built conflicting_incomplete_tensors).1.2
       (built conflicting_incomplete_tensors).2).1
    = Raise (ValueError_wrong_size name dim expected) ∧
    f ∈ [VRef 10; VRef 11] ∧
    gives (built conflicting_incomplete_tensors).2
      (built conflicting_incomplete_tensors).1.2 f name y dim ∧
    f' ∈ [VRef 10; VRef 11] ∧
    gives (built conflicting_incomplete_tensors).2
      (built conflicting_incomplete_tensors).1.2 f' name' y expected ∧
    dim ≠ expected.
Proof.
  destruct (set_distributions_wrong_size
              (built conflicting_incomplete_tensors).1.1
              (built conflicting_incomplete_tensors).1.2
              (built conflicting_incomplete_tensors).2
              [VRef 10; VRef 11] [VRef 12; VRef 13]
              (VRef 10) (VRef 11) "p(h1)" "p(h2|h1)" "h1" 2 3)
    as [Hraise Hsize].
  - vm_compute. reflexivity.
  - apply list_elem_of_lookup. exists 0. reflexivity.
  - apply list_elem_of_lookup. exists 1. reflexivity.
  - exists ["h1"], [2]. split.
    + exists (VRef 1), (VRef 0), (Ndarray [2] [0.2; 0.8]%float).
      vm_compute. repeat split.
    + apply list_elem_of_lookup. exists 0. reflexivity.
  - exists ["h2"; "h1"], [2; 3]. split.
    + exists (VRef 3), (VRef 2),
        (Ndarray [2; 3] [0.5; 0.2; 0.1; 0.5; 0.8; 0.9]%float).
      vm_compute. repeat split.
    + apply list_elem_of_lookup. exists 1. reflexivity.
  - discriminate.
  - split; [exact Hraise|]. apply Hsize.
    repeat apply Forall_cons_2; [| |apply Forall_nil_2].
    + exists "p(h1)", ["h1"], [2], [VRef 6], ["h1"]. split.
      * exists (VRef 1), (VRef 0), (Ndarray [2] [0.2; 0.8]%float).
        vm_compute. repeat split.
      * vm_compute. repeat split.
    + exists "p(h2|h1)", ["h2"; "h1"], [2; 3], [VRef 7; VRef 6], ["h2"; "h1"].
      split.
      * exists (VRef 3), (VRef 2),
          (Ndarray [2; 3] [0.5; 0.2; 0.1; 0.5; 0.8; 0.9]%float).
        vm_compute. repeat split.
      * vm_compute. repeat split.
Defined.

(** The tensors of [p(h1)] and [p(h2|h1)] give [h1] two and three values,
    but the call raises the error of the axes of [p(h1)]. *)
Lemma set_distributions_wrong_size_preempted :
  VRef 11 ∈ _factors (built mislabelled_tensors).1.1 ∧
  VRef 12 ∈ _factors (built mislabelled_tensors).1.1 ∧
  gives (built mislabelled_tensors).2 (built mislabelled_tensors).1.2
    (VRef 11) "p(h1)" "h1" 2 ∧
  gives (built mislabelled_tensors).2 (built mislabelled_tensors).1.2
    (VRef 12) "p(h2|h1)" "h1" 3 ∧
  set_distributions (built mislabelled_tensors).1.1
    (built mislabelled_tensors).1.2 (built mislabelled_tensors).2
  = (Raise (ValueError_missing_axes "p(h1)" ∅), (built mislabelled_tensors).2).
Proof.
  split; [apply list_elem_of_lookup; exists 0; vm_compute; reflexivity|].
  split; [apply list_elem_of_lookup; exists 1; vm_compute; reflexivity|].
  split; [|split].
  - exists ["h1"; "zz"], [2; 1]. split.
    + exists (VRef 1), (VRef 0), (Ndarray [2; 1] [0.2; 0.8]%float).
      vm_compute. repeat split.
    + apply list_elem_of_lookup. exists 0. reflexivity.
  - exists ["h2"; "h1"], [2; 3]. split.
    + exists (VRef 3), (VRef 2),
        (Ndarray [2; 3] [0.5; 0.2; 0.1; 0.5; 0.8; 0.9]%float).
      vm_compute. repeat split.
    + apply list_elem_of_lookup. exists 1. reflexivity.
  - vm_compute. reflexivity.
Qed.

(** ** The message engine *)

Lemma extends_refl h : extends h h.
Proof. exists []. by rewrite app_nil_r. Qed.

Lemma extends_trans h1 h2 h3 : extends h1 h2 → extends h2 h3 → extends h1 h3.
Proof. intros [n1 ->] [n2 ->]. exists (n1 ++ n2). by rewrite app_assoc. Qed.

Lemma extends_lookup h h' l o : extends h h' → h !! l = Some o → h' !! l = Some o.
Proof. intros [new ->] Hl. by apply lookup_app_l_Some. Qed.

Lemma alloc_extends o : respects extends (alloc o).
Proof. intros h. by exists [o]. Qed.

Ltac extends_step :=
  first [ apply alloc_extends
        | respects_step extends_refl extends_trans ].

Lemma scan_neighbors_extends neighbors variable :
  respects extends (scan_neighbors neighbors variable).
Proof.
  induction neighbors as [|n ns IH]; simpl; repeat extends_step.
  by case_bool_decide.
Qed.

Lemma _factor_to_variable_messages_extends self factor variable :
  respects extends (_factor_to_variable_messages self factor variable).
Proof.
  unfold _factor_to_variable_messages. repeat extends_step.
  apply scan_neighbors_extends.
Qed.

Lemma multiply_extends T U : respects extends (multiply T U).
Proof.
  unfold multiply, get_axes, new_Distribution.
  repeat first [extends_step | case_match].
Qed.

Lemma scan_neighbors_result neighbors variable h r h' :
  scan_neighbors neighbors variable h = (r, h') → h' = h.
Proof.
  revert r h'. induction neighbors as [|n ns IH]; intros r h'; simpl.
  { by intros [= _ <-]. }
  unfold get_name. rewrite bind_read.
  destruct (name_of n h); [|by intros [= _ <-]].
  rewrite bind_read. destruct (name_of variable h); [|by intros [= _ <-]].
  case_bool_decide; apply IH.
Qed.

(** The stub returns [None] whenever it returns. *)
Lemma _factor_to_variable_messages_None self factor variable h m h' :
  _factor_to_variable_messages self factor variable h = (Ok m, h') →
  m = VNone.
Proof.
  unfold _factor_to_variable_messages, get_data, get_probs, get_axes_labels,
    get_neighbors.
  do 4 (rewrite bind_read; case_match; [|done]).
  unfold bind at 1, alloc at 1. rewrite bind_read. case_match; [|done].
  unfold bind, ret.
  by destruct (scan_neighbors _ _ _) as [[[]|] ?]; intros [= <- _].
Qed.

(** *** The two caching wrappers, with their reads made explicit *)

Lemma messages_of_engine self h messages :
  messages_of self h = Ok messages →
  ∃ l computed, self = VRef l ∧ h !! l = Some (OMessages messages computed).
Proof.
  unfold messages_of, deref. destruct self as [| |l]; try done.
  destruct (h !! l) as [[| | |ms c]|] eqn:E; try done.
  intros [= ->]. by exists l, c.
Qed.

Lemma set_message_engine l messages computed k m h :
  h !! l = Some (OMessages messages computed) →
  set_message (VRef l) k m h
  = (Ok (), <[l := OMessages (<[k := m]> messages) (k :: computed)]> h).
Proof. intros Hl. unfold set_message. by rewrite Hl. Qed.

Lemma get_message_hit l messages computed k m h :
  h !! l = Some (OMessages messages computed) → messages !! k = Some m →
  get_message (VRef l) k h = (Ok m, h).
Proof.
  intros Hl Hk. unfold get_message, get_messages. rewrite bind_read.
  unfold messages_of, deref. by rewrite Hl, Hk.
Qed.

Lemma set_then_get_message l messages computed k m h :
  h !! l = Some (OMessages messages computed) →
  get_message (VRef l) k
    (<[l := OMessages (<[k := m]> messages) (k :: computed)]> h)
  = (Ok m, <[l := OMessages (<[k := m]> messages) (k :: computed)]> h).
Proof.
  intros Hl. eapply get_message_hit; [|apply lookup_insert_eq].
  apply list_lookup_insert_eq. by eapply lookup_lt_Some.
Qed.

Lemma variable_to_factor_messages_unfold self variable factor h :
  variable_to_factor_messages self variable factor h =
  match name_of variable h with
  | Raise e => (Raise e, h)
  | Ok vn =>
  match name_of factor h with
  | Raise e => (Raise e, h)
  | Ok fn =>
  match messages_of self h with
  | Raise e => (Raise e, h)
  | Ok messages =>
  match messages !! (vn, fn) with
  | Some m => (Ok m, h)
  | None => (Ok VNone, (set_message self (vn, fn) VNone h).2)
  end end end end.
Proof.
  unfold variable_to_factor_messages, get_name, get_messages.
  rewrite bind_read. destruct (name_of variable h) as [vn|]; [|done].
  rewrite bind_read. destruct (name_of factor h) as [fn|]; [|done].
  rewrite bind_read. destruct (messages_of self h) as [ms|] eqn:Hm; [|done].
  destruct (messages_of_engine _ _ _ Hm) as (l & c & -> & Hl).
  destruct (ms !! (vn, fn)) as [m|] eqn:Hk.
  - unfold bind at 1, ret at 1. unfold get_message, get_messages.
    by rewrite bind_read, Hm, Hk.
  - unfold _variable_to_factor_messages, bind, ret.
    rewrite (set_message_engine _ _ _ _ _ _ Hl).
    by rewrite (set_then_get_message _ _ _ _ _ _ Hl).
Qed.

Lemma factor_to_variable_message_unfold self factor variable h :
  factor_to_variable_message self factor variable h =
  match name_of factor h with
  | Raise e => (Raise e, h)
  | Ok fn =>
  match name_of variable h with
  | Raise e => (Raise e, h)
  | Ok vn =>
  match messages_of self h with
  | Raise e => (Raise e, h)
  | Ok messages =>
  match messages !! (fn, vn) with
  | Some m => (Ok m, h)
  | None =>
      match _factor_to_variable_messages self factor variable h with
      | (Raise e, h') => (Raise e, h')
      | (Ok m, h') => (Ok VNone, (set_message self (fn, vn) VNone h').2)
      end
  end end end end.
Proof.
  unfold factor_to_variable_message, get_name, get_messages.
  rewrite bind_read. destruct (name_of factor h) as [fn|]; [|done].
  rewrite bind_read. destruct (name_of variable h) as [vn|]; [|done].
  rewrite bind_read. destruct (messages_of self h) as [ms|] eqn:Hm; [|done].
  destruct (messages_of_engine _ _ _ Hm) as (l & c & -> & Hl).
  destruct (ms !! (fn, vn)) as [m|] eqn:Hk.
  - unfold bind at 1, ret at 1. unfold get_message, get_messages.
    by rewrite bind_read, Hm, Hk.
  - pose proof (_factor_to_variable_messages_extends (VRef l) factor
                  variable h) as Hext.
    unfold bind.
    destruct (_factor_to_variable_messages (VRef l) factor variable h)
      as [[m|e] h'] eqn:Hc; [|done].
    apply _factor_to_variable_messages_None in Hc as ->.
    simpl in Hext. pose proof (extends_lookup _ _ _ _ Hext Hl) as Hl'.
    rewrite (set_message_engine _ _ _ _ _ _ Hl').
    by rewrite (set_then_get_message _ _ _ _ _ _ Hl').
Qed.

(** *** Only engines change *)

Lemma engines_only_refl h : engines_only h h.
Proof. intros l o Hl. destruct o; eauto. Qed.

Lemma engines_only_trans h1 h2 h3 :
  engines_only h1 h2 → engines_only h2 h3 → engines_only h1 h3.
Proof.
  intros H12 H23 l o Hl. specialize (H12 l o Hl).
  destruct o; try (by apply (H23 l _ H12)).
  destruct H12 as (ms & c & H12). apply (H23 l _ H12).
Qed.

Lemma extends_engines_only h h' : extends h h' → engines_only h h'.
Proof.
  intros Hext l o Hl. pose proof (extends_lookup _ _ _ _ Hext Hl).
  destruct o; eauto.
Qed.

Lemma respects_weaken {A} (R R' : list obj → list obj → Prop) (m : py A) :
  (∀ h h', R h h' → R' h h') → respects R m → respects R' m.
Proof. intros HR Hm h. apply HR, Hm. Qed.

Lemma set_message_engines_only self k m :
  respects engines_only (set_message self k m).
Proof.
  intros h. unfold set_message. destruct self as [| |l];
    try apply engines_only_refl.
  destruct (h !! l) as [[| | |ms c]|] eqn:Hl; try apply engines_only_refl.
  simpl. intros l' o Hl'. destruct (decide (l = l')) as [<-|Hne].
  - rewrite list_lookup_insert_eq by (by eapply lookup_lt_Some).
    rewrite Hl in Hl'. injection Hl' as <-. eauto.
  - rewrite list_lookup_insert_ne by done. destruct o; eauto.
Qed.

Ltac engines_step :=
  first [ apply set_message_engines_only
        | apply (respects_weaken extends engines_only);
          [exact extends_engines_only
          |apply _factor_to_variable_messages_extends]
        | respects_step engines_only_refl engines_only_trans ].

Lemma serve_engines_only self r : respects engines_only (serve self r).
Proof.
  destruct r as [v|v f|f v]; simpl.
  - unfold marginal. engines_step.
  - unfold variable_to_factor_messages, _variable_to_factor_messages,
      get_message.
    repeat first [engines_step | case_match].
  - unfold factor_to_variable_message, get_message.
    repeat first [engines_step | case_match].
Qed.

Lemma engines_only_name_of h h' v name :
  engines_only h h' → name_of v h = Ok name → name_of v h' = Ok name.
Proof.
  intros H. unfold name_of, deref. destruct v as [| |l]; try done.
  destruct (h !! l) as [[c n nb d| | |]|] eqn:Hl; try done.
  by rewrite (H l _ Hl).
Qed.

(** *** The wrappers with the log *)

Lemma messages_of_set_message l messages computed k m h :
  h !! l = Some (OMessages messages computed) →
  messages_of (VRef l) (set_message (VRef l) k m h).2
  = Ok (<[k := m]> messages).
Proof.
  intros Hl. rewrite (set_message_engine _ _ _ _ _ _ Hl). simpl.
  unfold messages_of, deref.
  by rewrite list_lookup_insert_eq by (by eapply lookup_lt_Some).
Qed.

Lemma variable_to_factor_messages_logged_unfold self variable factor h log :
  variable_to_factor_messages_logged self variable factor h log =
  match name_of variable h with
  | Raise e => (Raise e, h, log)
  | Ok vn =>
  match name_of factor h with
  | Raise e => (Raise e, h, log)
  | Ok fn =>
  match messages_of self h with
  | Raise e => (Raise e, h, log)
  | Ok messages =>
  match messages !! (vn, fn) with
  | Some m => (Ok m, h, log)
  | None => (Ok VNone, (set_message self (vn, fn) VNone h).2,
             Return (vn, fn) :: Call (vn, fn) :: log)
  end end end end.
Proof.
  unfold variable_to_factor_messages_logged, lbind, quiet, get_name,
    get_messages, read.
  destruct (name_of variable h) as [vn|]; [|done].
  destruct (name_of factor h) as [fn|]; [|done].
  destruct (messages_of self h) as [ms|] eqn:Hm; [|done].
  destruct (messages_of_engine _ _ _ Hm) as (l & c & -> & Hl).
  destruct (ms !! (vn, fn)) as [m|] eqn:Hk.
  - unfold lret. unfold get_message, get_messages.
    by rewrite bind_read, Hm, Hk.
  - unfold computation, lbind, emit, quiet, lret,
      _variable_to_factor_messages, ret.
    rewrite (set_message_engine _ _ _ _ _ _ Hl).
    by rewrite (set_then_get_message _ _ _ _ _ _ Hl).
Qed.

Lemma factor_to_variable_message_logged_unfold self factor variable h log :
  factor_to_variable_message_logged self factor variable h log =
  match name_of factor h with
  | Raise e => (Raise e, h, log)
  | Ok fn =>
  match name_of variable h with
  | Raise e => (Raise e, h, log)
  | Ok vn =>
  match messages_of self h with
  | Raise e => (Raise e, h, log)
  | Ok messages =>
  match messages !! (fn, vn) with
  | Some m => (Ok m, h, log)
  | None =>
      match _factor_to_variable_messages self factor variable h with
      | (Raise e, h') => (Raise e, h', Call (fn, vn) :: log)
      | (Ok m, h') => (Ok VNone, (set_message self (fn, vn) VNone h').2,
                       Return (fn, vn) :: Call (fn, vn) :: log)
      end
  end end end end.
Proof.
  unfold factor_to_variable_message_logged, lbind, quiet, get_name,
    get_messages, read.
  destruct (name_of factor h) as [fn|]; [|done].
  destruct (name_of variable h) as [vn|]; [|done].
  destruct (messages_of self h) as [ms|] eqn:Hm; [|done].
  destruct (messages_of_engine _ _ _ Hm) as (l & c & -> & Hl).
  destruct (ms !! (fn, vn)) as [m|] eqn:Hk.
  - unfold lret. unfold get_message, get_messages.
    by rewrite bind_read, Hm, Hk.
  - pose proof (_factor_to_variable_messages_extends (VRef l) factor
                  variable h) as Hext.
    unfold computation, lbind, emit, quiet, lret.
    destruct (_factor_to_variable_messages (VRef l) factor variable h)
      as [[m|e] h'] eqn:Hc; [|done].
    apply _factor_to_variable_messages_None in Hc as ->.
    simpl in Hext. pose proof (extends_lookup _ _ _ _ Hext Hl) as Hl'.
    rewrite (set_message_engine _ _ _ _ _ _ Hl').
    by rewrite (set_then_get_message _ _ _ _ _ _ Hl').
Qed.

(** The log is an observer: without it, the logged wrappers are the
    wrappers. *)
Lemma serve_logged_erase self r h log :
  (serve_logged self r h log).1 = serve self r h.
Proof.
  destruct r as [v|v f|f v]; simpl.
  - done.
  - rewrite variable_to_factor_messages_logged_unfold,
      variable_to_factor_messages_unfold.
    by repeat case_match.
  - rewrite factor_to_variable_message_logged_unfold,
      factor_to_variable_message_unfold.
    by repeat case_match.
Qed.

(** What a request does to the engine that serves it, and to the log: a
    request for an edge that is in the cache (or one that raises before the
    cache is read) does nothing; a computation that raises is logged as a
    call, for an edge that had no entry, and the engine stays as it is; a
    computation that returns is logged as a call and its return, and the
    engine has one new entry, for an edge that had none. *)
Lemma serve_logged_engine self r h log messages computed :
  deref self h = Some (OMessages messages computed) →
  (deref self (serve_logged self r h log).1.2
   = Some (OMessages messages computed) ∧
   (serve_logged self r h log).2 = log) ∨
  (∃ k, messages !! k = None ∧
        deref self (serve_logged self r h log).1.2
        = Some (OMessages messages computed) ∧
        (serve_logged self r h log).2 = Call k :: log) ∨
  (∃ k, messages !! k = None ∧
        deref self (serve_logged self r h log).1.2
        = Some (OMessages (<[k := VNone]> messages) (k :: computed)) ∧
        (serve_logged self r h log).2 = Return k :: Call k :: log).
Proof.
  intros Hs. assert (Hm : messages_of self h = Ok messages).
  { unfold messages_of. by rewrite Hs. }
  destruct self as [| |l]; try done. simpl in Hs.
  destruct r as [v|v f|f v]; simpl serve_logged.
  - by left.
  - rewrite variable_to_factor_messages_logged_unfold, Hm.
    destruct (name_of v h) as [vn|]; [|by left].
    destruct (name_of f h) as [fn|]; [|by left].
    destruct (messages !! (vn, fn)) as [m|] eqn:Hk; [by left|].
    right. right. exists (vn, fn). split; [done|]. split; [|done].
    rewrite (set_message_engine _ _ _ _ _ _ Hs). simpl.
    by rewrite list_lookup_insert_eq by (by eapply lookup_lt_Some).
  - rewrite factor_to_variable_message_logged_unfold, Hm.
    destruct (name_of f h) as [fn|]; [|by left].
    destruct (name_of v h) as [vn|]; [|by left].
    destruct (messages !! (fn, vn)) as [m|] eqn:Hk; [by left|].
    pose proof (_factor_to_variable_messages_extends (VRef l) f v h) as Hext.
    destruct (_factor_to_variable_messages (VRef l) f v h) as [[m1|e] h'];
      simpl in Hext; pose proof (extends_lookup _ _ _ _ Hext Hs) as Hs'.
    + right. right. exists (fn, vn). split; [done|]. split; [|done].
      rewrite (set_message_engine _ _ _ _ _ _ Hs'). simpl.
      by rewrite list_lookup_insert_eq by (by eapply lookup_lt_Some).
    + right. left. by exists (fn, vn).
Qed.

Lemma cache_inv_new h : cache_inv (VRef (length h)) (new_Messages h).2 [].
Proof.
  exists ∅, []. simpl. split; [by rewrite lookup_app_r, Nat.sub_diag|].
  split; [done|]. split; [constructor|]. split.
  - intros e. split; [by intros ?%elem_of_nil|].
    rewrite lookup_empty. by intros [? ?].
  - intros [|ev after] e before; discriminate.
Qed.

Lemma serve_logged_cache_inv self r h log :
  cache_inv self h log →
  cache_inv self (serve_logged self r h log).1.2 (serve_logged self r h log).2.
Proof.
  intros (ms & c & Hs & -> & Hnd & Hc & Hcalls).
  assert (Hfresh : ∀ k, ms !! k = None → k ∉ returns log).
  { intros k Hk Hin. apply Hc in Hin as [? ?]. congruence. }
  destruct (serve_logged_engine self r h log ms _ Hs)
    as [[Hs' ->]|[(k & Hk & Hs' & ->)|(k & Hk & Hs' & ->)]].
  - by exists ms, (returns log).
  - exists ms, (returns log). repeat split; try done; try apply Hc.
    intros [|ev after] e before Heq; simplify_eq/=.
    + by apply Hfresh.
    + by eapply Hcalls.
  - exists (<[k := VNone]> ms), (k :: returns log).
    split; [done|]. split; [done|]. split; [|split].
    + constructor; [by apply Hfresh|done].
    + intros e. simpl. destruct (decide (k = e)) as [->|Hne].
      * rewrite lookup_insert_eq. split; [by eexists|].
        intros _. apply elem_of_cons. by left.
      * rewrite lookup_insert_ne by done. rewrite <-Hc, elem_of_cons.
        split; [|by right]. by intros [->|?].
    + intros [|ev [|ev' after]] e before Heq; simplify_eq/=.
      * by apply Hfresh.
      * by eapply Hcalls.
Qed.

Lemma history_cache_inv self h log : history self h log → cache_inv self h log.
Proof.
  induction 1 as [h ->|h log r _ IH|h h' log _ IH Hsame].
  - apply cache_inv_new.
  - by apply serve_logged_cache_inv.
  - destruct IH as (ms & c & Hs & Hc). exists ms, c. by rewrite Hsame.
Qed.

(** A request for an edge that is in the cache. *)
Lemma variable_to_factor_messages_logged_hit
    self variable factor vn fn messages m h log :
  name_of variable h = Ok vn → name_of factor h = Ok fn →
  messages_of self h = Ok messages → messages !! (vn, fn) = Some m →
  variable_to_factor_messages_logged self variable factor h log
  = (Ok m, h, log).
Proof.
  intros Hv Hf Hm Hk.
  by rewrite variable_to_factor_messages_logged_unfold, Hv, Hf, Hm, Hk.
Qed.

Lemma factor_to_variable_message_logged_hit
    self factor variable fn vn messages m h log :
  name_of factor h = Ok fn → name_of variable h = Ok vn →
  messages_of self h = Ok messages → messages !! (fn, vn) = Some m →
  factor_to_variable_message_logged self factor variable h log
  = (Ok m, h, log).
Proof.
  intros Hf Hv Hm Hk.
  by rewrite factor_to_variable_message_logged_unfold, Hf, Hv, Hm, Hk.
Qed.

(** A request that returned is, from then on, a request for an edge that is
    in the cache. *)
Lemma serve_logged_twice self r m h log h1 log1 log2 :
  serve_logged self r h log = (Ok m, h1, log1) →
  serve_logged self r h1 log2 = (Ok m, h1, log2).
Proof.
  intros Hs.
  pose proof (serve_engines_only self r h) as Honly.
  rewrite <-(serve_logged_erase self r h log), Hs in Honly. simpl in Honly.
  destruct r as [v|v f|f v]; simpl in *.
  - unfold quiet, marginal, ret in *. by injection Hs as <- <- <-.
  - rewrite variable_to_factor_messages_logged_unfold in Hs.
    destruct (name_of v h) as [vn|] eqn:Hv; [|done].
    destruct (name_of f h) as [fn|] eqn:Hf; [|done].
    destruct (messages_of self h) as [ms|] eqn:Hm; [|done].
    destruct (ms !! (vn, fn)) as [m0|] eqn:Hk.
    + injection Hs as <- <- <-.
      by eapply variable_to_factor_messages_logged_hit.
    + injection Hs as <- <- <-.
      destruct (messages_of_engine _ _ _ Hm) as (l & c & -> & Hl).
      eapply variable_to_factor_messages_logged_hit;
        [by eapply engines_only_name_of..
        |exact (messages_of_set_message _ _ _ _ _ _ Hl)|].
      apply lookup_insert_eq.
  - rewrite factor_to_variable_message_logged_unfold in Hs.
    destruct (name_of f h) as [fn|] eqn:Hf; [|done].
    destruct (name_of v h) as [vn|] eqn:Hv; [|done].
    destruct (messages_of self h) as [ms|] eqn:Hm; [|done].
    destruct (ms !! (fn, vn)) as [m0|] eqn:Hk.
    + injection Hs as <- <- <-.
      by eapply factor_to_variable_message_logged_hit.
    + pose proof (_factor_to_variable_messages_extends self f v h) as Hext.
      destruct (_factor_to_variable_messages self f v h) as [[m1|e] h']
        eqn:Hc; [|done].
      injection Hs as <- <- <-.
      destruct (messages_of_engine _ _ _ Hm) as (l & c & -> & Hl).
      pose proof (extends_lookup _ _ _ _ Hext Hl) as Hl'.
      eapply factor_to_variable_message_logged_hit;
        [by eapply engines_only_name_of..
        |exact (messages_of_set_message _ _ _ _ _ _ Hl')|].
      apply lookup_insert_eq.
Qed.

(** A request that raises leaves the cache as it is and logs no return. *)
Lemma serve_logged_raise self r h log :
  is_raise (serve_logged self r h log).1.1 = true →
  messages_of self (serve_logged self r h log).1.2 = messages_of self h ∧
  returns (serve_logged self r h log).2 = returns log.
Proof.
  destruct r as [v|v f|f v]; simpl serve_logged.
  - done.
  - rewrite variable_to_factor_messages_logged_unfold.
    by repeat case_match.
  - rewrite factor_to_variable_message_logged_unfold.
    destruct (name_of f h) as [fn|]; [|done].
    destruct (name_of v h) as [vn|]; [|done].
    destruct (messages_of self h) as [ms|] eqn:Hm; [|done].
    destruct (ms !! (fn, vn)) as [m0|]; [done|].
    pose proof (_factor_to_variable_messages_extends self f v h) as Hext.
    destruct (_factor_to_variable_messages self f v h) as [[m1|e'] h'];
      [done|].
    intros _. split; [|done]. simpl in Hext.
    destruct (messages_of_engine _ _ _ Hm) as (l & c & -> & Hl).
    unfold messages_of, deref. simpl.
    by rewrite (extends_lookup _ _ _ _ Hext Hl).
Qed.

(** An entry of the cache stays as it is. *)
Lemma serve_logged_entry_persists self r h log messages k m :
  messages_of self h = Ok messages → messages !! k = Some m →
  ∃ messages',
    messages_of self (serve_logged self r h log).1.2 = Ok messages' ∧
    messages' !! k = Some m.
Proof.
  intros Hm Hk. destruct (messages_of_engine _ _ _ Hm) as (l & c & -> & Hl).
  destruct (serve_logged_engine (VRef l) r h log messages c Hl)
    as [[Hs' _]|[(k' & _ & Hs' & _)|(k' & Hk' & Hs' & _)]].
  - exists messages. unfold messages_of. by rewrite Hs'.
  - exists messages. unfold messages_of. by rewrite Hs'.
  - exists (<[k' := VNone]> messages). unfold messages_of. rewrite Hs'.
    split; [done|]. rewrite lookup_insert_ne; [done|]. congruence.
Qed.

(** *** At most one return per edge *)

(** C3, as amended.  The log changes nothing: without it, a logged request
    is the request.  In the lifetime of an engine, whatever is asked of it,
    marginals included, and whatever the rest of the program does in
    between, the computation of the message of a directed edge, identified
    by the names of its sender and receiver, returns at most once; no
    computation is called for an edge whose computation has returned; and
    the cache holds the edges whose computation has returned, and no other
    (they are the edges of the ghost field).  A request that returned a
    message returns the same message when it is repeated, and the
    repetition calls no computation and changes nothing, the cache
    included; a request for an edge that is in the cache returns the cached
    value, calls no computation and changes nothing.  A request that raises
    leaves the cache as it is, and no return is logged for it: the
    computation it may have called is not counted as done.  No request
    changes or removes an entry of the cache. *)
Theorem message_cache_returns_once :
  (∀ self r h log, (serve_logged self r h log).1 = serve self r h) ∧
  (∀ self h log,
      history self h log →
      NoDup (returns log) ∧
      (∀ after e before,
          log = after ++ Call e :: before → e ∉ returns before) ∧
      computed_of self h = returns log ∧
      ∃ messages,
        messages_of self h = Ok messages ∧
        ∀ e, e ∈ returns log ↔ is_Some (messages !! e)) ∧
  (∀ self r m h log h1 log1 log2,
      serve_logged self r h log = (Ok m, h1, log1) →
      serve_logged self r h1 log2 = (Ok m, h1, log2)) ∧
  (∀ self variable factor vn fn messages m h log,
      name_of variable h = Ok vn → name_of factor h = Ok fn →
      messages_of self h = Ok messages → messages !! (vn, fn) = Some m →
      variable_to_factor_messages_logged self variable factor h log
      = (Ok m, h, log)) ∧
  (∀ self factor variable fn vn messages m h log,
      name_of factor h = Ok fn → name_of variable h = Ok vn →
      messages_of self h = Ok messages → messages !! (fn, vn) = Some m →
      factor_to_variable_message_logged self factor variable h log
      = (Ok m, h, log)) ∧
  (∀ self r h log,
      is_raise (serve_logged self r h log).1.1 = true →
      messages_of self (serve_logged self r h log).1.2 = messages_of self h ∧
      returns (serve_logged self r h log).2 = returns log) ∧
  (∀ self r h log messages k m,
      messages_of self h = Ok messages → messages !! k = Some m →
      ∃ messages',
        messages_of self (serve_logged self r h log).1.2 = Ok messages' ∧
        messages' !! k = Some m).
Proof.
  split; [exact serve_logged_erase|].
  split; [|split; [|split; [|split; [|split]]]].
  - intros self h log Hhist.
    destruct (history_cache_inv self h log Hhist)
      as (ms & c & Hs & -> & Hnd & Hc & Hcalls).
    split; [done|]. split; [done|].
    split; [unfold computed_of; by rewrite Hs|].
    exists ms. split; [unfold messages_of; by rewrite Hs|done].
  - exact serve_logged_twice.
  - exact variable_to_factor_messages_logged_hit.
  - exact factor_to_variable_message_logged_hit.
  - exact serve_logged_raise.
  - exact serve_logged_entry_persists.
Qed.

(** A session with the engine of [small_heap]: a marginal, then the message
    from the factor to the variable. *)
Lemma history_small_heap :
  history (VRef 4) small_heap_served
    [Return ("p(h1)", "h1"); Call ("p(h1)", "h1")].
Proof.
  assert (history (VRef 4) small_heap []) as H0.
  { by apply (history_new (VRef 4)
                [ONdarray (Ndarray [2] [0.2; 0.8]%float);
                 ODistribution (VRef 0) ["h1"];
                 ONode CVariable "h1" [VRef 3] None;
                 ONode CFactor "p(h1)" [VRef 2] (Some (VRef 1))]). }
  pose proof (history_serve _ _ _ (Marginal (VRef 2)) H0) as H1.
  exact (history_serve _ _ _ (FactorToVariable (VRef 3) (VRef 2)) H1).
Defined.

Lemma message_cache_returns_once_witness :
  (NoDup (returns [Return ("p(h1)", "h1"); Call ("p(h1)", "h1")]) ∧
   ∃ messages,
     messages_of (VRef 4) small_heap_served = Ok messages ∧
     ∀ e, e ∈ returns [Return ("p(h1)", "h1"); Call ("p(h1)", "h1")]
          ↔ is_Some (messages !! e)) ∧
  serve_logged (VRef 4) (FactorToVariable (VRef 3) (VRef 2))
    small_heap_served [Return ("p(h1)", "h1"); Call ("p(h1)", "h1")]
  = (Ok VNone, small_heap_served,
     [Return ("p(h1)", "h1"); Call ("p(h1)", "h1")]) ∧
  variable_to_factor_messages_logged (VRef 3) (VRef 0) (VRef 1)
    two_engines_heap [] = (Ok VNone, two_engines_heap, []) ∧
  factor_to_variable_message_logged (VRef 4) (VRef 3) (VRef 2)
    small_heap_served [] = (Ok VNone, small_heap_served, []) ∧
  (messages_of (VRef 2)
     (serve_logged (VRef 2) (FactorToVariable (VRef 1) (VRef 0))
        untensored_heap []).1.2
   = messages_of (VRef 2) untensored_heap ∧
   returns
     (serve_logged (VRef 2) (FactorToVariable (VRef 1) (VRef 0))
        untensored_heap []).2
   = returns []) ∧
  ∃ messages',
    messages_of (VRef 4)
      (serve_logged (VRef 4) (VariableToFactor (VRef 2) (VRef 3))
         small_heap_served []).1.2 = Ok messages' ∧
    messages' !! ("p(h1)", "h1") = Some VNone.
Proof.
  destruct message_cache_returns_once
    as (_ & Hhist & Htwice & Hvf & Hfv & Hraise & Hkeep).
  split; [|split; [|split; [|split; [|split]]]].
  - destruct (Hhist _ _ _ history_small_heap) as (Hnd & _ & _ & Hc).
    split; [exact Hnd|exact Hc].
  - apply (Htwice (VRef 4) (FactorToVariable (VRef 3) (VRef 2)) VNone
             small_heap [] small_heap_served
             [Return ("p(h1)", "h1"); Call ("p(h1)", "h1")]).
    vm_compute. reflexivity.
  - apply (Hvf (VRef 3) (VRef 0) (VRef 1) "h1" "p(h1)"
             {[ ("h1", "p(h1)") := VNone ]}); reflexivity.
  - apply (Hfv (VRef 4) (VRef 3) (VRef 2) "p(h1)" "h1"
             {[ ("p(h1)", "h1") := VNone ]}); reflexivity.
  - apply (Hraise (VRef 2) (FactorToVariable (VRef 1) (VRef 0))
             untensored_heap []).
    vm_compute. reflexivity.
  - apply (Hkeep (VRef 4) (VariableToFactor (VRef 2) (VRef 3))
             small_heap_served [] {[ ("p(h1)", "h1") := VNone ]}
             ("p(h1)", "h1") VNone); reflexivity.
Defined.

(** The engine of [untensored_heap] is asked twice for the message of the
    factor, which has no tensor: the computation is called twice for the
    one edge, and raises twice. *)
Lemma message_cache_recomputes_after_raise :
  history (VRef 2) untensored_heap
    [Call ("p(h1)", "h1"); Call ("p(h1)", "h1")] ∧
  serve_logged (VRef 2) (FactorToVariable (VRef 1) (VRef 0)) untensored_heap
    [] = (Raise AttributeError, untensored_heap, [Call ("p(h1)", "h1")]) ∧
  serve_logged (VRef 2) (FactorToVariable (VRef 1) (VRef 0)) untensored_heap
    [Call ("p(h1)", "h1")]
  = (Raise AttributeError, untensored_heap,
     [Call ("p(h1)", "h1"); Call ("p(h1)", "h1")]) ∧
  ¬ NoDup (calls [Call ("p(h1)", "h1"); Call ("p(h1)", "h1")]).
Proof.
  split; [|split; [|split]].
  - assert (history (VRef 2) untensored_heap []) as H0.
    { by apply (history_new (VRef 2)
                  [ONode CVariable "h1" [VRef 1] None;
                   ONode CFactor "p(h1)" [VRef 0] (Some VNone)]). }
    pose proof (history_serve _ _ _ (FactorToVariable (VRef 1) (VRef 0)) H0)
      as H1.
    exact (history_serve _ _ _ (FactorToVariable (VRef 1) (VRef 0)) H1).
  - vm_compute. reflexivity.
  - vm_compute. reflexivity.
  - simpl. intros [Hnin _]%NoDup_cons. apply Hnin, elem_of_cons. by left.
Qed.

(** ** Arrays *)

Local Arguments size : simpl never.

Lemma size_cons d s : size (d :: s) = d * size s.
Proof. done. Qed.

Lemma size_replicate_1 r : size (replicate r 1) = 1.
Proof.
  induction r as [|r IH]; [done|]. simpl replicate. rewrite size_cons. lia.
Qed.

Lemma size_one_hot r axis n :
  axis < r → size (<[axis := n]> (replicate r 1)) = n.
Proof.
  revert axis. induction r as [|r IH]; intros [|axis] H; simpl; try lia;
    rewrite size_cons.
  - rewrite size_replicate_1. lia.
  - rewrite IH by lia. lia.
Qed.

Lemma length_chunk n i (a : list float) :
  (i + 1) * n ≤ length a → length (chunk n i a) = n.
Proof. intros H. unfold chunk. rewrite length_take, length_drop. lia. Qed.

Lemma mjoin_blocks_cons {A} (f : nat → list A) s m :
  mjoin (f <$> seq s (S m)) = f s ++ mjoin (f <$> seq (S s) m).
Proof. done. Qed.

Lemma length_mjoin_blocks {A} (f : nat → list A) L s m :
  (∀ j, s ≤ j < s + m → length (f j) = L) →
  length (mjoin (f <$> seq s m)) = m * L.
Proof.
  revert s. induction m as [|m IH]; intros s H; [done|].
  rewrite mjoin_blocks_cons, length_app, H, IH; [lia| |lia].
  intros j Hj. apply H. lia.
Qed.

Lemma chunk_mjoin_blocks (f : nat → list float) L s m i :
  (∀ j, s ≤ j < s + m → length (f j) = L) → i < m →
  chunk L i (mjoin (f <$> seq s m)) = f (s + i).
Proof.
  revert s i. induction m as [|m IH]; intros s i H Hi; [lia|].
  rewrite mjoin_blocks_cons. unfold chunk. destruct i as [|i].
  - rewrite Nat.mul_0_l, drop_0, Nat.add_0_r. apply take_app_length'.
    symmetry. apply H. lia.
  - rewrite drop_app_ge by (rewrite H by lia; lia).
    rewrite H by lia. replace (S i * L - L) with (i * L) by lia.
    specialize (IH (S s) i). unfold chunk in IH.
    rewrite IH; [f_equal; lia| |lia]. intros j Hj. apply H. lia.
Qed.

Lemma broadcast_block_index da db i :
  (bool_decide (da = db) || bool_decide (da = 1) || bool_decide (db = 1))
  = true →
  i < bdim da db →
  (if bool_decide (da = 1) then 0 else i) < da ∧
  (if bool_decide (db = 1) then 0 else i) < db.
Proof.
  unfold bdim. intros H Hi.
  repeat case_bool_decide; simpl in *; try done; lia.
Qed.

Lemma length_bmul sa sb a b :
  broadcastable sa sb = true →
  length a = size sa → length b = size sb →
  length (bmul sa sb a b) = size (zip_with bdim sa sb).
Proof.
  revert sb a b. induction sa as [|da sa IH]; intros [|db sb] a b; try done.
  - simpl. intros _ Ha Hb. destruct a as [|x [|]], b as [|y [|]]; done.
  - simpl bmul. simpl broadcastable. simpl zip_with. rewrite !size_cons.
    intros [Hd Hs]%andb_true_iff Ha Hb.
    apply length_mjoin_blocks. intros j Hj.
    destruct (broadcast_block_index da db j Hd) as [Hja Hjb]; [lia|].
    apply IH; [done|apply length_chunk; nia..].
Qed.

(** Each element of a broadcast product is the product of the elements that
    broadcasting pairs. *)
Lemma item_bmul sa sb a b idx :
  broadcastable sa sb = true →
  length a = size sa → length b = size sb →
  Forall2 lt idx (zip_with bdim sa sb) →
  ∃ x y,
    item sa a (bidx sa idx) = Some x ∧ item sb b (bidx sb idx) = Some y ∧
    item (zip_with bdim sa sb) (bmul sa sb a b) idx = Some (x * y)%float.
Proof.
  revert sb a b idx.
  induction sa as [|da sa IH]; intros [|db sb] a b idx; try done.
  - simpl. intros _ Ha Hb Hidx. apply Forall2_nil_inv_r in Hidx as ->.
    destruct a as [|x [|]], b as [|y [|]]; try done. by exists x, y.
  - simpl broadcastable. simpl zip_with. rewrite !size_cons.
    intros [Hd Hs]%andb_true_iff Ha Hb Hidx.
    apply Forall2_cons_inv_r in Hidx as (i & idx' & Hi & Hidx & ->).
    destruct (broadcast_block_index da db i Hd Hi) as [Hia Hib].
    unfold bidx. simpl. fold (bidx sa idx') (bidx sb idx').
    rewrite (bool_decide_eq_true_2 _ Hia), (bool_decide_eq_true_2 _ Hib),
      (bool_decide_eq_true_2 _ Hi).
    fold (size sa) (size sb) (size (zip_with bdim sa sb)).
    rewrite chunk_mjoin_blocks; [|intros j Hj|done].
    + simpl. apply IH; [done|apply length_chunk; nia..|done].
    + destruct (broadcast_block_index da db j Hd) as [Hja Hjb]; [lia|].
      apply length_bmul; [done|apply length_chunk; nia..].
Qed.

(** *** A shape of extents 1 but for one axis *)

Lemma broadcastable_ones sa :
  broadcastable sa (replicate (length sa) 1) = true.
Proof.
  induction sa as [|d sa IH]; [done|]. simpl. rewrite IH, andb_true_r.
  repeat case_bool_decide; done.
Qed.

Lemma broadcastable_one_hot sa axis d n :
  sa !! axis = Some d → n = d ∨ n = 1 ∨ d = 1 →
  broadcastable sa (<[axis := n]> (replicate (length sa) 1)) = true.
Proof.
  revert axis. induction sa as [|d0 sa IH]; intros [|axis]; try done; simpl.
  - intros [= ->] H. rewrite broadcastable_ones, andb_true_r.
    repeat case_bool_decide; try done. lia.
  - intros Hd H. rewrite (IH _ Hd H), andb_true_r.
    repeat case_bool_decide; done.
Qed.

Lemma bdim_1_r d : bdim d 1 = d.
Proof. unfold bdim. by case_bool_decide. Qed.

Lemma zip_with_bdim_ones sa :
  zip_with bdim sa (replicate (length sa) 1) = sa.
Proof.
  induction sa as [|d sa IH]; [done|]. simpl. by rewrite bdim_1_r, IH.
Qed.

Lemma zip_with_bdim_one_hot sa axis d n :
  sa !! axis = Some d →
  zip_with bdim sa (<[axis := n]> (replicate (length sa) 1))
  = <[axis := bdim d n]> sa.
Proof.
  revert axis. induction sa as [|d0 sa IH]; intros [|axis]; try done; simpl.
  - intros [= ->]. by rewrite zip_with_bdim_ones.
  - intros Hd. by rewrite bdim_1_r, (IH _ Hd).
Qed.

Lemma item_ones r c idx y :
  item (replicate r 1) c idx = Some y → head c = Some y.
Proof.
  revert c idx. induction r as [|r IH]; intros c [|j idx]; simpl; try done.
  case_bool_decide as Hj; [|done]. intros H%IH.
  assert (j = 0) as -> by lia. unfold chunk in H.
  rewrite size_replicate_1, Nat.mul_0_l, drop_0 in H.
  by destruct c.
Qed.

(** The element of a reshaped single-axis array that is paired with the
    index [idx] of the product is the element of the original array at the
    coordinate of [idx] along the axis (at 0 if the array has one value). *)
Lemma item_one_hot r axis n b idx y :
  axis < r →
  item (<[axis := n]> (replicate r 1)) b
    (bidx (<[axis := n]> (replicate r 1)) idx) = Some y →
  b !! (if bool_decide (n = 1) then 0 else idx !!! axis) = Some y.
Proof.
  revert axis b idx.
  induction r as [|r IH]; intros [|axis] b [|i idx] Hax; try lia; try done.
  - unfold bidx. simpl. fold (bidx (replicate r 1) idx).
    generalize (if bool_decide (n = 1) then 0 else i). intros k. clear IH.
    case_bool_decide as Hk; [|done]. intros H%item_ones.
    unfold chunk in H. rewrite size_replicate_1, Nat.mul_1_r in H.
    rewrite head_lookup, lookup_take_lt, lookup_drop, Nat.add_0_r in H by lia.
    done.
  - unfold bidx. simpl. fold (bidx (<[axis := n]> (replicate r 1)) idx).
    intros H. apply IH in H; [|lia]. unfold chunk in H.
    rewrite Nat.mul_0_l, drop_0 in H.
    apply lookup_take_Some in H as [H _]. done.
Qed.

Lemma pad_shape_same_rank n s : length s = n → pad_shape (n `max` n) s = s.
Proof.
  intros <-. unfold pad_shape. by rewrite Nat.max_id, Nat.sub_diag.
Qed.

(** *** The target of the reshape *)

Lemma reshape_target_outside (axis s r : nat) :
  axis < s ∨ s + r ≤ axis →
  (λ i : nat, if bool_decide (i = axis) then (-1)%Z else 1%Z) <$> seq s r
  = replicate r 1%Z.
Proof.
  revert s. induction r as [|r IH]; intros s H; [done|]. csimpl.
  rewrite bool_decide_eq_false_2 by lia. f_equal. apply IH. lia.
Qed.

Lemma filter_neg_ones r : filter (λ d, d < 0)%Z (replicate r 1%Z) = [].
Proof.
  induction r as [|r IH]; [done|]. csimpl.
  by rewrite filter_cons_False by lia.
Qed.

Lemma filter_nonneg_ones r :
  filter (λ d, 0 ≤ d)%Z (replicate r 1%Z) = replicate r 1%Z.
Proof.
  induction r as [|r IH]; [done|]. csimpl.
  rewrite filter_cons_True by lia. by rewrite IH.
Qed.

Lemma to_nat_ones r : Z.to_nat <$> replicate r 1%Z = replicate r 1.
Proof. induction r as [|r IH]; [done|]. csimpl. by rewrite IH. Qed.

Lemma fill_ones (m : nat) r :
  (λ d, if bool_decide (d < 0)%Z then m else Z.to_nat d) <$> replicate r 1%Z
  = replicate r 1.
Proof.
  induction r as [|r IH]; [done|]. csimpl. by rewrite IH.
Qed.

Lemma reshape_target_inside (axis m s r : nat) :
  s ≤ axis < s + r →
  let target :=
    (λ i : nat, if bool_decide (i = axis) then (-1)%Z else 1%Z) <$> seq s r in
  filter (λ d, d < 0)%Z target = [(-1)%Z] ∧
  size (Z.to_nat <$> filter (λ d, 0 ≤ d)%Z target) = 1 ∧
  (λ d, if bool_decide (d < 0)%Z then m else Z.to_nat d) <$> target
  = <[axis - s := m]> (replicate r 1).
Proof.
  revert s. induction r as [|r IH]; intros s H target; [lia|].
  subst target. csimpl. destruct (decide (s = axis)) as [->|Hne].
  - rewrite bool_decide_eq_true_2 by done.
    rewrite reshape_target_outside by lia.
    rewrite filter_cons_True, filter_cons_False by lia.
    rewrite filter_neg_ones, filter_nonneg_ones, to_nat_ones, fill_ones.
    rewrite size_replicate_1, Nat.sub_diag.
    by rewrite bool_decide_eq_true_2 by lia.
  - rewrite bool_decide_eq_false_2 by done.
    destruct (IH (S s)) as (H1 & H2 & H3); [lia|].
    rewrite filter_cons_False, filter_cons_True by lia.
    rewrite H1. split; [done|]. split.
    + rewrite fmap_cons, size_cons, H2. done.
    + rewrite H3. replace (axis - s) with (S (axis - S s)) by lia. done.
Qed.

(** What [multiply] passes to the product for a single-axis [p_hi]: the
    array itself if it is a scalar, and else its values under a shape of
    extents 1 but for the axis. *)
Lemma np_reshape_to_axis u axis r :
  axis < r → shape u ≠ [] →
  np_reshape u
    ((λ i : nat, if bool_decide (i = axis) then (-1)%Z else 1%Z) <$> seq 0 r)
  = Ok (Ndarray (<[axis := size (shape u)]> (replicate r 1)) (flat u)).
Proof.
  intros Hax Hne. unfold np_reshape.
  destruct (reshape_target_inside axis (size (shape u) `div` 1) 0 r)
    as (H1 & H2 & H3); [lia|].
  rewrite H1, H2, H3. rewrite bool_decide_eq_false_2.
  - by rewrite Nat.div_1_r, Nat.sub_0_r.
  - intros [?|H]; [done|]. by rewrite Nat.mod_1_r in H.
Qed.

(** ** [multiply] *)

Lemma dict_lookup_set_eq k v d : dict_lookup k (dict_set k v d) = Some v.
Proof.
  induction d as [|[k' v'] d IH]; simpl.
  - by rewrite bool_decide_eq_true_2.
  - case_bool_decide as Hk; simpl.
    + by rewrite bool_decide_eq_true_2.
    + by rewrite bool_decide_eq_false_2.
Qed.

Lemma dict_lookup_set_ne k k' v d :
  k' ≠ k → dict_lookup k (dict_set k' v d) = dict_lookup k d.
Proof.
  intros Hne. induction d as [|[k0 v0] d IH]; simpl.
  - by rewrite bool_decide_eq_false_2.
  - case_bool_decide as Hk; simpl.
    + subst k0. by rewrite !bool_decide_eq_false_2.
    + by rewrite IH.
Qed.

Lemma dict_lookup_enumerate_axes_absent k labels axis d :
  k ∉ labels →
  dict_lookup k (enumerate_axes axis labels d) = dict_lookup k d.
Proof.
  revert axis d. induction labels as [|x labels IH]; intros axis d Hk; [done|].
  simpl. apply not_elem_of_cons in Hk as [Hx Hk].
  rewrite IH by done. by apply dict_lookup_set_ne.
Qed.

(** With no label twice, the dict of [get_axes] maps a label to its
    position. *)
Lemma dict_lookup_enumerate_axes k labels axis d i :
  NoDup labels → labels !! i = Some k →
  dict_lookup k (enumerate_axes axis labels d) = Some (axis + i).
Proof.
  revert axis d i. induction labels as [|x labels IH]; intros axis d i; [done|].
  intros [Hx Hnd]%NoDup_cons Hi. simpl. destruct i as [|i].
  - injection Hi as ->. rewrite dict_lookup_enumerate_axes_absent by done.
    by rewrite dict_lookup_set_eq, Nat.add_0_r.
  - simpl in Hi. rewrite (IH _ _ i) by done. f_equal. lia.
Qed.

(** [multiply] with its reads of the heap made explicit. *)
Lemma multiply_unfold T U h :
  multiply T U h =
  match axes_labels_of T h with
  | Raise e => (Raise e, h)
  | Ok labels =>
  match axes_labels_of U h with
  | Raise e => (Raise e, h)
  | Ok labels_hi =>
  match enumerate_axes 0 labels_hi [] with
  | [] => (Raise StopIteration, h)
  | (hi, _) :: _ =>
  match dict_lookup hi (enumerate_axes 0 labels []) with
  | None => (Raise (KeyError hi), h)
  | Some axis =>
  match probs_of U h with
  | Raise e => (Raise e, h)
  | Ok probs_hi =>
  match array_of probs_hi h with
  | Raise e => (Raise e, h)
  | Ok a_hi =>
  match probs_of T h with
  | Raise e => (Raise e, h)
  | Ok probs =>
  match array_of probs h with
  | Raise e => (Raise e, h)
  | Ok a =>
  match (if bool_decide (shape a_hi ≠ [])
         then np_reshape a_hi
                ((λ i : nat, if bool_decide (i = axis) then (-1)%Z else 1%Z)
                   <$> seq 0 (length (shape a)))
         else Ok a_hi) with
  | Raise e => (Raise e, h)
  | Ok reshaped_p_hi =>
  match np_multiply a reshaped_p_hi with
  | Raise e => (Raise e, h)
  | Ok product =>
      (Ok (VRef (S (length h))),
       h ++ [ONdarray product; ODistribution (VRef (length h)) labels])
  end end end end end end end end end end.
Proof.
  unfold multiply, get_axes, get_axes_labels, get_probs, get_array.
  rewrite bind_bind, bind_read.
  destruct (axes_labels_of T h) as [labels|] eqn:HT; [|done].
  rewrite bind_ret, bind_bind, bind_read.
  destruct (axes_labels_of U h) as [labels_hi|]; [|done].
  rewrite bind_ret.
  destruct (enumerate_axes 0 labels_hi []) as [|[hi ?] ?]; [done|].
  destruct (dict_lookup hi (enumerate_axes 0 labels [])) as [axis|]; [|done].
  rewrite bind_read. destruct (probs_of U h) as [probs_hi|]; [|done].
  rewrite bind_read. destruct (array_of probs_hi h) as [a_hi|]; [|done].
  assert (Hend : ∀ product,
             (let* new_probs := alloc (ONdarray product) in
              let* axes_labels := read (axes_labels_of T) in
              new_Distribution new_probs axes_labels) h
             = (Ok (VRef (S (length h))),
                h ++ [ONdarray product;
                      ODistribution (VRef (length h)) labels])).
  { intros product. rewrite bind_alloc, bind_read.
    unfold axes_labels_of in *. destruct T as [| |lT]; try done. simpl in *.
    destruct (h !! lT) as [o|] eqn:Hl; [|done].
    rewrite (lookup_app_l_Some _ _ _ _ Hl).
    destruct o; try done. injection HT as ->.
    unfold new_Distribution, alloc. rewrite length_app. simpl.
    rewrite <-app_assoc. do 3 f_equal. lia. }
  case_bool_decide as Hs.
  - rewrite !bind_bind, bind_read.
    destruct (probs_of T h) as [probs|] eqn:Hp; [|done].
    rewrite bind_bind, bind_read.
    destruct (array_of probs h) as [a|] eqn:Ha; [|done].
    rewrite bind_lift. destruct (np_reshape _ _) as [reshaped|]; [|done].
    rewrite bind_read, Hp, bind_read, Ha, bind_lift.
    destruct (np_multiply a reshaped) as [product|]; [|done]. apply Hend.
  - rewrite bind_ret, bind_read.
    destruct (probs_of T h) as [probs|]; [|done].
    rewrite bind_read. destruct (array_of probs h) as [a|] eqn:Ha; [|done].
    rewrite bind_lift.
    destruct (np_multiply a a_hi) as [product|]; [|done]. apply Hend.
Qed.

(** C7.  Whatever the tensor [T], if the only axis name of [U] is not among
    the axis labels of [T], [multiply(T, U)] raises the [KeyError] of the
    lookup of that name, and returns no tensor (nor creates any object). *)
Theorem multiply_absent_axis T U labels hi h :
  axes_labels_of T h = Ok labels → axes_labels_of U h = Ok [hi] →
  hi ∉ labels →
  multiply T U h = (Raise (KeyError hi), h).
Proof.
  intros HT HU Hhi. rewrite multiply_unfold, HT, HU. simpl.
  by rewrite dict_lookup_enumerate_axes_absent.
Qed.

Lemma multiply_absent_axis_witness :
  multiply (VRef 1) (VRef 3)
    [ONdarray (Ndarray [3] [0.6; 0.3; 0.1]%float);
     ODistribution (VRef 0) ["h1"];
     ONdarray (Ndarray [2] [0.5; 0.5]%float);
     ODistribution (VRef 2) ["v1"]]
  = (Raise (KeyError "v1"),
     [ONdarray (Ndarray [3] [0.6; 0.3; 0.1]%float);
      ODistribution (VRef 0) ["h1"];
      ONdarray (Ndarray [2] [0.5; 0.5]%float);
      ODistribution (VRef 2) ["v1"]]).
Proof.
  apply (multiply_absent_axis _ _ ["h1"] "v1"); [reflexivity..|].
  apply not_elem_of_cons. split; [done|apply not_elem_of_nil].
Defined.

(** The product of an array with a single-axis array as [multiply] prepares
    it: reshaped along the axis, or as it is when it is a scalar. *)
Lemma np_multiply_single_axis a u axis d :
  shape a !! axis = Some d →
  size (shape u) = d ∨ size (shape u) = 1 ∨ d = 1 →
  np_multiply a
    (if bool_decide (shape u ≠ [])
     then Ndarray (<[axis := size (shape u)]>
                     (replicate (length (shape a)) 1)) (flat u)
     else u)
  = Ok (Ndarray (<[axis := bdim d (size (shape u))]> (shape a))
          (bmul (shape a)
             (<[axis := size (shape u)]> (replicate (length (shape a)) 1))
             (flat a) (flat u))).
Proof.
  intros Hd Hn. pose proof (lookup_lt_Some _ _ _ Hd) as Hax.
  unfold np_multiply. case_bool_decide as Hs; simpl shape; simpl flat.
  - rewrite length_insert, length_replicate, Nat.max_id.
    unfold pad_shape. rewrite length_insert, length_replicate, Nat.sub_diag.
    simpl app. rewrite (broadcastable_one_hot _ _ _ _ Hd Hn).
    by rewrite (zip_with_bdim_one_hot _ _ _ _ Hd).
  - rewrite Hs. simpl length.
    rewrite Nat.max_0_r. unfold pad_shape.
    rewrite Nat.sub_diag, Nat.sub_0_r, app_nil_r. simpl app.
    assert (<[axis := size []]> (replicate (length (shape a)) 1)
            = replicate (length (shape a)) 1) as Hone.
    { apply list_insert_id. by apply lookup_replicate_2. }
    rewrite Hone, broadcastable_ones.
    rewrite <-Hone at 1. rewrite (zip_with_bdim_one_hot _ _ _ _ Hd).
    done.
Qed.

(** C5, as amended.  Let [T] be a labelled tensor, no label of which occurs twice, and
    [U] a tensor with exactly one axis name, which is the label of the axis
    [axis] of [T]; let the number of values of [U] be broadcastable against
    the extent [d] of [T] along that axis (equal to it, or one of the two is
    1).  Then [multiply(T, U)]
    multiplies the array of [T], with broadcasting, by the array of [U]
    reshaped to extents 1 everywhere but along [axis] (by the array of [U]
    itself if it is a scalar), and returns a new [Distribution] over the new
    array, with the axis labels of [T].  The product has the rank of [T],
    and each of its elements is the element of [T] at the same index (at 0
    along an axis of extent 1) times the value of [U] at the coordinate of
    that index along [axis] (the only value of [U] if it has just one). *)
Theorem multiply_broadcasts_along_axis h T U labels a hi u axis d :
  is_tensor h T labels a → NoDup labels →
  is_tensor h U [hi] u →
  labels !! axis = Some hi →
  shape a !! axis = Some d →
  size (shape u) = d ∨ size (shape u) = 1 ∨ d = 1 →
  ∃ product,
    multiply T U h
    = (Ok (VRef (S (length h))),
       h ++ [ONdarray product; ODistribution (VRef (length h)) labels]) ∧
    np_multiply a
      (if bool_decide (shape u ≠ [])
       then Ndarray (<[axis := size (shape u)]>
                       (replicate (length (shape a)) 1)) (flat u)
       else u)
    = Ok product ∧
    length (shape product) = length (shape a) ∧
    shape product = <[axis := bdim d (size (shape u))]> (shape a) ∧
    ∀ idx,
      Forall2 lt idx (shape product) →
      ∃ x y,
        item (shape a) (flat a) (bidx (shape a) idx) = Some x ∧
        flat u !! (if bool_decide (size (shape u) = 1) then 0
                   else idx !!! axis) = Some y ∧
        item (shape product) (flat product) idx = Some (x * y)%float.
Proof.
  intros (HlT & (probs & HpT & HaT) & Hflat) Hnd
         (HlU & (probs_hi & HpU & HaU) & Hflat_u) Hax Hd Hn.
  pose proof (lookup_lt_Some _ _ _ Hd) as Hlt.
  pose proof (np_multiply_single_axis a u axis d Hd Hn) as Hprod.
  eexists. split; [|split; [exact Hprod|]].
  - rewrite multiply_unfold, HlT, HlU.
    change (enumerate_axes 0 [hi] []) with [(hi, 0)]. cbv iota beta.
    rewrite (dict_lookup_enumerate_axes _ _ _ _ _ Hnd Hax).
    rewrite Nat.add_0_l, HpU, HaU, HpT, HaT.
    case_bool_decide as Hs.
    + rewrite np_reshape_to_axis by done. by rewrite Hprod.
    + by rewrite Hprod.
  - simpl shape. simpl flat. split; [by rewrite length_insert|].
    split; [done|]. intros idx Hidx.
    rewrite <-(zip_with_bdim_one_hot _ _ _ _ Hd) in Hidx |- *.
    destruct (item_bmul (shape a)
                (<[axis := size (shape u)]> (replicate (length (shape a)) 1))
                (flat a) (flat u) idx)
      as (x & y & Hx & Hy & Hxy); [| | |done|].
    + by apply broadcastable_one_hot with d.
    + done.
    + by rewrite size_one_hot.
    + exists x, y. split; [done|]. split; [|done].
      by apply item_one_hot in Hy.
Qed.

Lemma multiply_broadcasts_along_axis_witness :
  ∃ product,
    multiply (VRef 1) (VRef 3) example_heap
    = (Ok (VRef 5),
       example_heap
       ++ [ONdarray product; ODistribution (VRef 4) ["v1"; "h1"]]) ∧
    shape product = [2; 3] ∧
    ∃ x y,
      item [2; 3] [0.4; 0.8; 0.9; 0.6; 0.2; 0.1]%float [1; 2] = Some x ∧
      [0.6; 0.3; 0.1]%float !! 2 = Some y ∧
      item (shape product) (flat product) [1; 2] = Some (x * y)%float.
Proof.
  destruct (multiply_broadcasts_along_axis example_heap (VRef 1) (VRef 3)
              ["v1"; "h1"]
              (Ndarray [2; 3] [0.4; 0.8; 0.9; 0.6; 0.2; 0.1]%float) "h1"
              (Ndarray [3] [0.6; 0.3; 0.1]%float) 1 3)
    as (product & Hm & _ & _ & Hs & Hitem).
  - split; [reflexivity|]. split; [|reflexivity].
    exists (VRef 0). split; reflexivity.
  - apply NoDup_cons. split.
    + intros H. apply list_elem_of_singleton in H. discriminate H.
    + apply NoDup_singleton.
  - split; [reflexivity|]. split; [|reflexivity].
    exists (VRef 2). split; reflexivity.
  - reflexivity.
  - reflexivity.
  - left. reflexivity.
  - change (shape product = [2; 3]) in Hs.
    exists product. split; [exact Hm|]. split; [exact Hs|].
    destruct (Hitem [1; 2]) as (x & y & Hx & Hy & Hxy).
    + rewrite Hs.
      repeat (apply Forall2_cons; split; [unfold lt; lia|]).
      apply Forall2_nil_2.
    + exists x, y. split; [exact Hx|]. split; [exact Hy|exact Hxy].
Defined.

(** The product that the notebook prints as
    [[0.24 0.24 0.09] [0.36 0.06 0.01]]. *)
Example multiply_notebook_example :
  multiply (VRef 1) (VRef 3) example_heap
  = (Ok (VRef 5),
     example_heap
     ++ [ONdarray
           (Ndarray [2; 3]
              [0.23999999999999999; 0.23999999999999999;
               0.090000000000000011; 0.35999999999999999;
               0.059999999999999998; 0.010000000000000002]%float);
         ODistribution (VRef 4) ["v1"; "h1"]]).
Proof. vm_compute. reflexivity. Qed.

(** The only axis name of [U] is a label of [T], but three values do not
    broadcast along an axis of extent 2: [multiply] raises the [ValueError]
    of numpy and returns no tensor. *)
Lemma multiply_broadcast_error :
  is_tensor mismatched_heap (VRef 1) ["v1"; "h1"]
    (Ndarray [2; 3] [0.4; 0.8; 0.9; 0.6; 0.2; 0.1]%float) ∧
  NoDup ["v1"; "h1"] ∧
  is_tensor mismatched_heap (VRef 3) ["v1"]
    (Ndarray [3] [0.6; 0.3; 0.1]%float) ∧
  "v1" ∈ ["v1"; "h1"] ∧
  multiply (VRef 1) (VRef 3) mismatched_heap
  = (Raise ValueError_broadcast, mismatched_heap).
Proof.
  split; [|split; [|split; [|split]]].
  - split; [reflexivity|]. split; [|reflexivity]. by exists (VRef 0).
  - apply NoDup_cons. split; [|apply NoDup_singleton].
    by intros [=]%list_elem_of_singleton.
  - split; [reflexivity|]. split; [|reflexivity]. by exists (VRef 2).
  - apply elem_of_cons. by left.
  - vm_compute. reflexivity.
Qed.

(** ** Frame properties *)

Lemma engines_only_data_of h h' v d :
  engines_only h h' → data_of v h = Ok d → data_of v h' = Ok d.
Proof.
  intros H. unfold data_of, deref. destruct v as [| |l]; try done.
  destruct (h !! l) as [[c n nb [d0|]| | |]|] eqn:Hl; try done.
  by rewrite (H l _ Hl).
Qed.

Lemma engines_only_array_of h h' v a :
  engines_only h h' → array_of v h = Ok a → array_of v h' = Ok a.
Proof.
  intros H. unfold array_of, deref. destruct v as [| |l]; try done.
  destruct (h !! l) as [[| |a0|]|] eqn:Hl; try done.
  by rewrite (H l _ Hl).
Qed.

Lemma engines_only_distribution h h' v probs labels :
  engines_only h h' →
  deref v h = Some (ODistribution probs labels) →
  deref v h' = Some (ODistribution probs labels).
Proof.
  intros H. unfold deref. destruct v as [| |l]; try done.
  intros Hl. apply (H l _ Hl).
Qed.

(** C9.  [multiply] and the computation of a message from a factor to a
    variable modify none of the objects they are given.  [multiply] adds
    objects to the heap and changes none; what it returns is a new
    [Distribution] over a new array.  [_factor_to_variable_messages] adds
    objects and changes none; behind the cache,
    [factor_to_variable_message] changes no object but [Messages] engines,
    so the tensor stored in the factor, its array of values and its axis
    labels are afterwards what they were. *)
Theorem multiply_and_messages_do_not_mutate :
  (∀ T U h, extends h (multiply T U h).2) ∧
  (∀ T U h r,
      (multiply T U h).1 = Ok r →
      ∃ product labels,
        r = VRef (S (length h)) ∧
        (multiply T U h).2
        = h ++ [ONdarray product; ODistribution (VRef (length h)) labels]) ∧
  (∀ self factor variable h,
      extends h (_factor_to_variable_messages self factor variable h).2) ∧
  (∀ self factor variable h,
      engines_only h (factor_to_variable_message self factor variable h).2) ∧
  (∀ self factor variable h d probs labels a,
      data_of factor h = Ok d →
      deref d h = Some (ODistribution probs labels) →
      array_of probs h = Ok a →
      data_of factor (factor_to_variable_message self factor variable h).2
      = Ok d ∧
      deref d (factor_to_variable_message self factor variable h).2
      = Some (ODistribution probs labels) ∧
      array_of probs (factor_to_variable_message self factor variable h).2
      = Ok a).
Proof.
  split; [exact multiply_extends|]. split; [|split; [|split]].
  - intros T U h r. rewrite multiply_unfold.
    repeat (case_match; try done); simpl; intros [= <-]; eauto.
  - exact _factor_to_variable_messages_extends.
  - intros self factor variable h.
    apply (serve_engines_only self (FactorToVariable factor variable)).
  - intros self factor variable h d probs labels a Hd Hdist Ha.
    pose proof (serve_engines_only self (FactorToVariable factor variable) h)
      as Honly. simpl in Honly.
    split; [by eapply engines_only_data_of|].
    split; [by eapply engines_only_distribution|].
    by eapply engines_only_array_of.
Qed.

Lemma multiply_and_messages_do_not_mutate_witness :
  data_of (VRef 3)
    (factor_to_variable_message (VRef 4) (VRef 3) (VRef 2) small_heap).2
  = Ok (VRef 1) ∧
  deref (VRef 1)
    (factor_to_variable_message (VRef 4) (VRef 3) (VRef 2) small_heap).2
  = Some (ODistribution (VRef 0) ["h1"]) ∧
  array_of (VRef 0)
    (factor_to_variable_message (VRef 4) (VRef 3) (VRef 2) small_heap).2
  = Ok (Ndarray [2] [0.2; 0.8]%float).
Proof.
  apply (proj2 (proj2 (proj2 (proj2 multiply_and_messages_do_not_mutate)))
           (VRef 4) (VRef 3) (VRef 2) small_heap);
    reflexivity.
Defined.

(** ** The message engine as the notebook leaves it *)

(** C4 (the code departs from it).  [_variable_to_factor_messages] is a stub:
    for every variable and factor it returns [None] and leaves the heap as
    it is, where its docstring promises the product of the incoming
    messages, and 1 in the base case.  For the leaf [v1] of the chain and
    its only neighbour [p(v1|h1)], the message is [None], and [None] is what
    the cache then holds for that edge. *)
Theorem variable_to_factor_message_is_None :
  (∀ self variable factor h,
      _variable_to_factor_messages self variable factor h = (Ok VNone, h)) ∧
  (chain_leaf_message []).1 = Ok (VNone, Some VNone).
Proof. split; [done|]. vm_compute. reflexivity. Qed.

(** C1 (the code departs from it).  [marginal] is a stub: for every engine
    and variable it returns [None] and leaves the heap as it is.  On the
    chain [p(h1)p(h2|h1)p(v1|h1)p(v2|h2)] with the tensors of the example
    assigned, the marginal of [h1] and the marginal of [v2] are [None], not
    the distributions [0.2, 0.8] and [0.23, 0.77]. *)
Theorem marginal_is_None :
  (∀ self variable h, marginal self variable h = (Ok VNone, h)) ∧
  (chain_marginal "h1" []).1 = Ok VNone ∧
  (chain_marginal "v2" []).1 = Ok VNone.
Proof. split; [done|]. split; vm_compute; reflexivity. Qed.

(* ================================================================= *)
(** * Further properties *)

(** ** [Distribution.get_axes] and [Distribution.get_other_axes_from] *)

Lemma last_position_exists (labels : list string) name :
  name ∈ labels → ∃ i, last_position labels name i.
Proof.
  induction labels as [|x labels IH]; [by intros ?%elem_of_nil|].
  intros Hin. destruct (decide (name ∈ labels)) as [Hr|Hr].
  - destruct (IH Hr) as (i & Hi & Hlast). exists (S i). split; [done|].
    intros [|j] Hj; [lia|]. simpl. apply Hlast. lia.
  - apply elem_of_cons in Hin as [->|]; [|done]. exists 0. split; [done|].
    intros [|j] Hj; [lia|]. simpl. intros Hj'. apply Hr.
    by eapply list_elem_of_lookup_2.
Qed.

Lemma dict_lookup_enumerate_axes_last k labels axis d i :
  last_position labels k i →
  dict_lookup k (enumerate_axes axis labels d) = Some (axis + i).
Proof.
  revert axis d i. induction labels as [|x labels IH]; intros axis d i;
    intros [Hi Hlast]; [done|].
  simpl. destruct i as [|i].
  - injection Hi as ->. rewrite dict_lookup_enumerate_axes_absent.
    + by rewrite dict_lookup_set_eq, Nat.add_0_r.
    + intros [j Hj]%list_elem_of_lookup. by apply (Hlast (S j)); [lia|].
  - rewrite (IH _ _ i); [f_equal; lia|]. split; [done|].
    intros j Hj. apply (Hlast (S j)). lia.
Qed.

Lemma dict_lookup_enumerate_axes_inv k labels i :
  dict_lookup k (enumerate_axes 0 labels []) = Some i →
  last_position labels k i.
Proof.
  intros H. destruct (decide (k ∈ labels)) as [Hin|Hin].
  - destruct (last_position_exists _ _ Hin) as (i0 & Hi0).
    rewrite (dict_lookup_enumerate_axes_last _ _ _ _ _ Hi0) in H.
    by injection H as <-.
  - by rewrite dict_lookup_enumerate_axes_absent in H.
Qed.

Lemma dict_set_keys k v d :
  (dict_set k v d).*1 = if bool_decide (k ∈ d.*1) then d.*1 else d.*1 ++ [k].
Proof.
  induction d as [|[k' v'] d IH]; [done|]. csimpl.
  destruct (decide (k' = k)) as [->|Hne].
  - rewrite (bool_decide_eq_true_2 (k = k)) by done.
    rewrite (bool_decide_eq_true_2 (k ∈ k :: d.*1)); [done|].
    apply elem_of_cons. by left.
  - rewrite (bool_decide_eq_false_2 (k' = k)) by done. csimpl. rewrite IH.
    destruct (decide (k ∈ d.*1)) as [Hin|Hin].
    + rewrite (bool_decide_eq_true_2 (k ∈ d.*1)) by done.
      rewrite (bool_decide_eq_true_2 (k ∈ k' :: d.*1)); [done|].
      apply elem_of_cons. by right.
    + rewrite (bool_decide_eq_false_2 (k ∈ d.*1)) by done.
      rewrite (bool_decide_eq_false_2 (k ∈ k' :: d.*1)); [done|].
      intros [?|?]%elem_of_cons; [by subst|done].
Qed.

Lemma enumerate_axes_keys labels axis d :
  NoDup d.*1 →
  NoDup (enumerate_axes axis labels d).*1 ∧
  (∀ k, k ∈ (enumerate_axes axis labels d).*1 ↔ k ∈ d.*1 ∨ k ∈ labels) ∧
  (d ≠ [] → head (enumerate_axes axis labels d).*1 = head d.*1).
Proof.
  revert axis d. induction labels as [|x labels IH]; intros axis d Hnd.
  { simpl. split; [done|]. split; [|done]. intros k. split; [by left|].
    by intros [?|?%elem_of_nil]. }
  simpl. destruct (IH (S axis) (dict_set x axis d)) as (H1 & H2 & H3).
  - rewrite dict_set_keys. case_bool_decide as Hx; [done|].
    apply NoDup_app. split; [done|]. split; [|apply NoDup_singleton].
    by intros y Hy ->%list_elem_of_singleton.
  - split; [done|]. split.
    + intros k. rewrite H2, dict_set_keys, elem_of_cons.
      case_bool_decide as Hx.
      * split; [intros [?|?]; auto|]. intros [?|[->|?]]; auto.
      * rewrite elem_of_app, list_elem_of_singleton. tauto.
    + intros Hd. rewrite H3.
      * rewrite dict_set_keys. case_bool_decide; [done|].
        by destruct d as [|[]].
      * by destruct d as [|[] ?]; simpl; [|case_bool_decide].
Qed.

Lemma enumerate_axes_head x labels :
  head (enumerate_axes 0 (x :: labels) []).*1 = Some x.
Proof.
  simpl. destruct (enumerate_axes_keys labels 1 [(x, 0)]) as (_ & _ & H).
  - apply NoDup_singleton.
  - by rewrite H.
Qed.

(** X1.  [get_axes] maps every label of the distribution to the position of
    its last occurrence in [axes_labels]: a label that is on several axes
    keeps the last of them, and a name that is no label has no entry.  The
    keys are the distinct labels, and the first key is the first label. *)
Theorem get_axes_last_position self labels h :
  axes_labels_of self h = Ok labels →
  ∃ axes,
    get_axes self h = (Ok axes, h) ∧
    (∀ name i, dict_lookup name axes = Some i ↔ last_position labels name i) ∧
    NoDup axes.*1 ∧ (∀ name, name ∈ axes.*1 ↔ name ∈ labels) ∧
    head axes.*1 = head labels.
Proof.
  intros Hl. exists (enumerate_axes 0 labels []). split.
  { unfold get_axes, get_axes_labels. by rewrite bind_read, Hl. }
  split.
  { intros name i. split; [apply dict_lookup_enumerate_axes_inv|].
    intros H. by rewrite (dict_lookup_enumerate_axes_last _ _ _ _ _ H). }
  destruct (enumerate_axes_keys labels 0 []) as (H1 & H2 & _);
    [apply NoDup_nil_2|].
  split; [done|]. split.
  - intros name. rewrite H2. split; [by intros [?%elem_of_nil|?]|by right].
  - destruct labels as [|x labels]; [done|]. apply enumerate_axes_head.
Qed.

Lemma get_axes_last_position_witness :
  ∃ axes,
    get_axes (VRef 1) repeated_label_heap = (Ok axes, repeated_label_heap) ∧
    dict_lookup "h1" axes = Some 1.
Proof.
  destruct (get_axes_last_position (VRef 1) ["h1"; "h1"] repeated_label_heap)
    as (axes & Hg & Hl & _); [reflexivity|].
  exists axes. split; [exact Hg|]. apply Hl. split; [reflexivity|].
  intros [|[|j]] Hj; [lia..|]. discriminate.
Defined.

Lemma enumerate_other_axes_spec labels axis_label axis :
  (∀ i, i ∈ enumerate_other_axes axis labels axis_label ↔
        ∃ j name, i = axis + j ∧ labels !! j = Some name ∧ name ≠ axis_label) ∧
  (∀ i j a b,
      i < j →
      enumerate_other_axes axis labels axis_label !! i = Some a →
      enumerate_other_axes axis labels axis_label !! j = Some b → a < b).
Proof.
  revert axis. induction labels as [|x labels IH]; intros axis.
  { split; [|done]. intros i. split; [by intros ?%elem_of_nil|].
    by intros (? & ? & ? & ? & ?). }
  destruct (IH (S axis)) as [Hin Hsorted]. simpl.
  assert (Hrest : ∀ i, i ∈ enumerate_other_axes (S axis) labels axis_label →
                       axis < i).
  { intros i (j & ? & -> & _)%Hin. lia. }
  assert (Hmem : ∀ i,
    (∃ j name, i = axis + j ∧ (x :: labels) !! j = Some name
               ∧ name ≠ axis_label)
    ↔ (i = axis ∧ x ≠ axis_label)
      ∨ i ∈ enumerate_other_axes (S axis) labels axis_label).
  { intros i. rewrite Hin. split.
    - intros ([|j] & name & -> & Hj & Hne).
      + injection Hj as ->. left. split; [lia|done].
      + right. exists j, name. split; [lia|done].
    - intros [[-> Hne]|(j & name & -> & Hj & Hne)].
      + exists 0, x. split; [lia|done].
      + exists (S j), name. split; [lia|done]. }
  case_bool_decide as Hx; split.
  - intros i. rewrite Hmem, elem_of_cons. tauto.
  - intros [|i] [|j] a b Hij; try lia; simpl.
    + intros [= <-] Hb. apply Hrest. by eapply list_elem_of_lookup_2.
    + apply Hsorted. lia.
  - intros i. rewrite Hmem. split; [by right|]. by intros [[_ ?]|?].
  - exact Hsorted.
Qed.

(** X2.  [get_other_axes_from(axis_label)] returns the axes whose label is
    not [axis_label], each once and in increasing order.  Every axis that
    carries the label is left out, not just one of them. *)
Theorem get_other_axes_from_members self labels axis_label h :
  axes_labels_of self h = Ok labels →
  ∃ axes,
    get_other_axes_from self axis_label h = (Ok axes, h) ∧
    (∀ i, i ∈ axes ↔ ∃ name, labels !! i = Some name ∧ name ≠ axis_label) ∧
    (∀ i j a b, i < j → axes !! i = Some a → axes !! j = Some b → a < b).
Proof.
  intros Hl. exists (enumerate_other_axes 0 labels axis_label). split.
  { unfold get_other_axes_from, get_axes_labels. by rewrite bind_read, Hl. }
  destruct (enumerate_other_axes_spec labels axis_label 0) as [Hin Hsorted].
  split; [|exact Hsorted]. intros i. rewrite Hin. split.
  - intros (j & name & -> & ?). by exists name.
  - intros (name & ?). by exists i, name.
Qed.

Lemma get_other_axes_from_members_witness :
  ∃ axes,
    get_other_axes_from (VRef 3) "h1" repeated_label_heap
    = (Ok axes, repeated_label_heap) ∧
    (1 ∈ axes ↔ ∃ name, ["h1"; "v1"] !! 1 = Some name ∧ name ≠ "h1").
Proof.
  destruct (get_other_axes_from_members (VRef 3) ["h1"; "v1"] "h1"
              repeated_label_heap) as (axes & Hg & Hin & _); [reflexivity|].
  exists axes. split; [exact Hg|apply Hin].
Defined.

Lemma enumerate_other_axes_absent labels axis_label axis :
  axis_label ∉ labels →
  enumerate_other_axes axis labels axis_label = seq axis (length labels).
Proof.
  revert axis. induction labels as [|x labels IH]; intros axis; [done|].
  intros [Hx Hr]%not_elem_of_cons. simpl.
  rewrite bool_decide_eq_true_2 by done. by rewrite IH.
Qed.

(** X3.  For a name that is no label of the distribution,
    [get_other_axes_from] raises nothing: it returns all the axes, from 0
    to the number of labels less one. *)
Theorem get_other_axes_from_absent self labels axis_label h :
  axes_labels_of self h = Ok labels → axis_label ∉ labels →
  get_other_axes_from self axis_label h = (Ok (seq 0 (length labels)), h).
Proof.
  intros Hl Hin. unfold get_other_axes_from, get_axes_labels.
  rewrite bind_read, Hl. by rewrite enumerate_other_axes_absent.
Qed.

Lemma get_other_axes_from_absent_witness :
  get_other_axes_from (VRef 3) "h2" repeated_label_heap
  = (Ok [0; 1], repeated_label_heap).
Proof.
  apply (get_other_axes_from_absent (VRef 3) ["h1"; "v1"] "h2"); [reflexivity|].
  intros H. repeat (apply elem_of_cons in H as [H|H]; [discriminate H|]).
  by apply elem_of_nil in H.
Defined.

Lemma enumerate_other_axes_once labels axis_label axis i :
  NoDup labels → labels !! i = Some axis_label →
  enumerate_other_axes axis labels axis_label
  = seq axis i ++ seq (axis + S i) (length labels - S i).
Proof.
  revert axis i. induction labels as [|x labels IH]; intros axis i; [done|].
  intros [Hx Hnd]%NoDup_cons Hi. simpl. destruct i as [|i].
  - injection Hi as ->. rewrite bool_decide_eq_false_2 by auto.
    rewrite enumerate_other_axes_absent by done. simpl.
    by rewrite Nat.sub_0_r, Nat.add_1_r.
  - simpl in Hi. rewrite bool_decide_eq_true_2.
    + rewrite (IH _ i) by done. simpl. do 3 f_equal. lia.
    + intros ->. apply Hx. by eapply list_elem_of_lookup_2.
Qed.

(** X4.  When no label occurs twice, the axis that [get_axes] has for a
    label and the axes that [get_other_axes_from] returns for it make up all
    the axes: the latter are the axes before and the axes after the former,
    in order. *)
Theorem get_axes_and_other_axes_partition self labels name i h :
  axes_labels_of self h = Ok labels → NoDup labels →
  labels !! i = Some name →
  ∃ axes,
    get_axes self h = (Ok axes, h) ∧ dict_lookup name axes = Some i ∧
    get_other_axes_from self name h
    = (Ok (seq 0 i ++ seq (S i) (length labels - S i)), h).
Proof.
  intros Hl Hnd Hi. exists (enumerate_axes 0 labels []). split; [|split].
  - unfold get_axes, get_axes_labels. by rewrite bind_read, Hl.
  - by rewrite (dict_lookup_enumerate_axes _ _ _ _ _ Hnd Hi).
  - unfold get_other_axes_from, get_axes_labels. rewrite bind_read, Hl.
    by rewrite (enumerate_other_axes_once _ _ _ _ Hnd Hi).
Qed.

Lemma get_axes_and_other_axes_partition_witness :
  ∃ axes,
    get_axes (VRef 3) repeated_label_heap = (Ok axes, repeated_label_heap) ∧
    dict_lookup "v1" axes = Some 1 ∧
    get_other_axes_from (VRef 3) "v1" repeated_label_heap
    = (Ok [0], repeated_label_heap).
Proof.
  apply (get_axes_and_other_axes_partition (VRef 3) ["h1"; "v1"] "v1" 1);
    [reflexivity| |reflexivity].
  apply NoDup_cons. split.
  - intros H. apply list_elem_of_singleton in H. discriminate H.
  - apply NoDup_singleton.
Defined.

(** X5.  Whatever the values of the array, and however [np.sum] adds them,
    [is_valid_conditional] of a name that is no label of the distribution
    raises the [KeyError] of the lookup [self.get_axes()[variable_name]];
    nothing is summed. *)
Theorem is_valid_conditional_absent_axis
    np_sum self variable_name probs labels h :
  probs_of self h = Ok probs → axes_labels_of self h = Ok labels →
  variable_name ∉ labels →
  is_valid_conditional np_sum self variable_name h
  = (Raise (KeyError variable_name), h).
Proof.
  intros Hp Hl Hin.
  unfold is_valid_conditional, get_probs, get_axes, get_axes_labels.
  rewrite bind_read, Hp, bind_bind, bind_read, Hl, !bind_ret.
  by rewrite dict_lookup_enumerate_axes_absent.
Qed.

Lemma is_valid_conditional_absent_axis_witness :
  is_valid_conditional (λ a _, Ok a) (VRef 1) "h2" example_heap
  = (Raise (KeyError "h2"), example_heap).
Proof.
  apply (is_valid_conditional_absent_axis _ (VRef 1) "h2" (VRef 0)
           ["v1"; "h1"]); [reflexivity..|].
  intros H. repeat (apply elem_of_cons in H as [H|H]; [discriminate H|]).
  by apply elem_of_nil in H.
Defined.

(** ** More on [multiply] *)

Lemma broadcastable_one_hot_false sa axis d n :
  sa !! axis = Some d → n ≠ d → n ≠ 1 → d ≠ 1 →
  broadcastable sa (<[axis := n]> (replicate (length sa) 1)) = false.
Proof.
  revert axis. induction sa as [|d0 sa IH]; intros [|axis]; try done; simpl.
  - intros [= ->] H1 H2 H3.
    rewrite !bool_decide_eq_false_2 by (try done; by intros ->). done.
  - intros Hd H1 H2 H3. by rewrite (IH _ Hd H1 H2 H3), andb_false_r.
Qed.

Lemma enumerate_axes_first x labels :
  ∃ axis rest, enumerate_axes 0 (x :: labels) [] = (x, axis) :: rest.
Proof.
  pose proof (enumerate_axes_head x labels) as H.
  destruct (enumerate_axes 0 (x :: labels) []) as [|[k axis] rest]; [done|].
  injection H as ->. by exists axis, rest.
Qed.

(** X6.  [multiply(T, U)] with a [U] that has no axis label raises
    [StopIteration], from [next(iter(p_hi.get_axes()))], whatever the arrays
    are, and creates no object.  A scalar [U] is no exception: the branch of
    [multiply] for scalars is reached with a label only. *)
Theorem multiply_without_axis_label T U labels h :
  axes_labels_of T h = Ok labels → axes_labels_of U h = Ok [] →
  multiply T U h = (Raise StopIteration, h).
Proof. intros HT HU. by rewrite multiply_unfold, HT, HU. Qed.

Lemma multiply_without_axis_label_witness :
  multiply (VRef 1) (VRef 3)
    [ONdarray (Ndarray [2] [0.5; 0.5]%float);
     ODistribution (VRef 0) ["h1"];
     ONdarray (Ndarray [] [2]%float);
     ODistribution (VRef 2) []]
  = (Raise StopIteration,
     [ONdarray (Ndarray [2] [0.5; 0.5]%float);
      ODistribution (VRef 0) ["h1"];
      ONdarray (Ndarray [] [2]%float);
      ODistribution (VRef 2) []]).
Proof.
  apply (multiply_without_axis_label (VRef 1) (VRef 3) ["h1"]); reflexivity.
Defined.

Lemma multiply_on_axis h T U labels a hi others u axis :
  is_tensor h T labels a → is_tensor h U (hi :: others) u →
  last_position labels hi axis → axis < length (shape a) →
  multiply T U h =
  match np_multiply a
          (if bool_decide (shape u ≠ [])
           then Ndarray (<[axis := size (shape u)]>
                           (replicate (length (shape a)) 1)) (flat u)
           else u) with
  | Raise e => (Raise e, h)
  | Ok product =>
      (Ok (VRef (S (length h))),
       h ++ [ONdarray product; ODistribution (VRef (length h)) labels])
  end.
Proof.
  intros (HlT & (probs & HpT & HaT) & Hflat)
         (HlU & (probs_hi & HpU & HaU) & Hflat_u) Hax Hlt.
  rewrite multiply_unfold, HlT, HlU.
  destruct (enumerate_axes_first hi others) as (i0 & rest & ->).
  rewrite (dict_lookup_enumerate_axes_last _ _ _ _ _ Hax).
  rewrite Nat.add_0_l, HpU, HaU, HpT, HaT.
  case_bool_decide as Hs; [|done].
  by rewrite np_reshape_to_axis.
Qed.



(** X8.  When the number of values of [U] is not the extent of [T] along
    the axis, and neither of the two is 1, [multiply] raises the
    [ValueError] of numpy's broadcasting and creates no object. *)
Theorem multiply_extent_mismatch h T U labels a hi others u axis d :
  is_tensor h T labels a → is_tensor h U (hi :: others) u →
  last_position labels hi axis →
  shape a !! axis = Some d →
  size (shape u) ≠ d → size (shape u) ≠ 1 → d ≠ 1 →
  multiply T U h = (Raise ValueError_broadcast, h).
Proof.
  intros HT HU Hax Hd H1 H2 H3.
  pose proof (lookup_lt_Some _ _ _ Hd) as Hlt.
  rewrite (multiply_on_axis _ _ _ _ _ _ _ _ _ HT HU Hax Hlt).
  rewrite bool_decide_eq_true_2 by (by intros Hs; rewrite Hs in H2).
  unfold np_multiply. simpl shape.
  rewrite length_insert, length_replicate, Nat.max_id.
  unfold pad_shape. rewrite length_insert, length_replicate, Nat.sub_diag.
  simpl app. by rewrite (broadcastable_one_hot_false _ _ _ _ Hd H1 H2 H3).
Qed.

Lemma multiply_extent_mismatch_witness :
  multiply (VRef 1) (VRef 3)
    [ONdarray (Ndarray [2] [0.5; 0.5]%float);
     ODistribution (VRef 0) ["h1"];
     ONdarray (Ndarray [3] [0.6; 0.3; 0.1]%float);
     ODistribution (VRef 2) ["h1"]]
  = (Raise ValueError_broadcast,
     [ONdarray (Ndarray [2] [0.5; 0.5]%float);
      ODistribution (VRef 0) ["h1"];
      ONdarray (Ndarray [3] [0.6; 0.3; 0.1]%float);
      ODistribution (VRef 2) ["h1"]]).
Proof.
  apply (multiply_extent_mismatch _ (VRef 1) (VRef 3) ["h1"]
           (Ndarray [2] [0.5; 0.5]%float) "h1" []
           (Ndarray [3] [0.6; 0.3; 0.1]%float) 0 2).
  - split; [reflexivity|]. split; [|reflexivity].
    exists (VRef 0). split; reflexivity.
  - split; [reflexivity|]. split; [|reflexivity].
    exists (VRef 2). split; reflexivity.
  - split; [reflexivity|]. intros [|j] Hj; [lia|]. discriminate.
  - reflexivity.
  - vm_compute. lia.
  - vm_compute. lia.
  - lia.
Defined.

(** X9.  When the axis of the label is no axis of the array of [T] (its
    labels are more than its array has dimensions), the target of the
    reshape has no free extent: for a [U] that does not hold exactly one
    value, [multiply] raises the [ValueError] of numpy's [reshape] and
    creates no object. *)
Theorem multiply_axis_beyond_rank h T U labels a hi others u axis :
  is_tensor h T labels a → is_tensor h U (hi :: others) u →
  last_position labels hi axis →
  length (shape a) ≤ axis →
  size (shape u) ≠ 1 →
  multiply T U h = (Raise ValueError_reshape, h).
Proof.
  intros (HlT & (probs & HpT & HaT) & Hflat)
         (HlU & (probs_hi & HpU & HaU) & Hflat_u) Hax Hrank Hsize.
  rewrite multiply_unfold, HlT, HlU.
  destruct (enumerate_axes_first hi others) as (i0 & rest & ->).
  rewrite (dict_lookup_enumerate_axes_last _ _ _ _ _ Hax).
  rewrite Nat.add_0_l, HpU, HaU, HpT, HaT.
  rewrite bool_decide_eq_true_2 by (by intros Hs; rewrite Hs in Hsize).
  rewrite reshape_target_outside by lia. unfold np_reshape.
  rewrite filter_neg_ones, filter_nonneg_ones, to_nat_ones, size_replicate_1.
  by rewrite bool_decide_eq_false_2.
Qed.

Lemma multiply_axis_beyond_rank_witness :
  multiply (VRef 1) (VRef 3) short_rank_heap
  = (Raise ValueError_reshape, short_rank_heap).
Proof.
  apply (multiply_axis_beyond_rank short_rank_heap (VRef 1) (VRef 3)
           ["v1"; "h1"] (Ndarray [2] [0.5; 0.5]%float) "h1" []
           (Ndarray [2] [0.2; 0.8]%float) 1).
  - split; [reflexivity|]. split; [|reflexivity].
    exists (VRef 0). split; reflexivity.
  - split; [reflexivity|]. split; [|reflexivity].
    exists (VRef 2). split; reflexivity.
  - split; [reflexivity|]. intros [|[|j]] Hj; [lia..|]. discriminate.
  - simpl. lia.
  - vm_compute. lia.
Defined.

(** ** The base class *)

(** X10.  An instance of the base class [Node] cannot be given a neighbour.
    [Node.is_valid_neighbor] runs [raise NotImplemented()], a call of a
    constant that cannot be called: [add_neighbor] raises [TypeError] (not
    [NotImplementedError], and not the [AssertionError] of an invalid
    neighbour) and appends nothing, also on a node that [Node(name)] has
    just created. *)
Theorem base_node_has_no_neighbor_test :
  (∀ h l name neighbors data neighbor,
      h !! l = Some (ONode CNode name neighbors data) →
      add_neighbor (VRef l) neighbor h = (Raise TypeError, h)) ∧
  (∀ h name neighbor,
      (let* node := new_Node name in add_neighbor node neighbor) h
      = (Raise TypeError, h ++ [ONode CNode name [] None])).
Proof.
  split.
  - intros h l name nbrs d nb Hl.
    unfold add_neighbor, bind, is_valid_neighbor, read. simpl. by rewrite Hl.
  - intros h name nb. unfold new_Node. rewrite bind_alloc.
    unfold add_neighbor, bind, is_valid_neighbor, read. simpl.
    by rewrite lookup_app_r, Nat.sub_diag.
Qed.

Lemma base_node_has_no_neighbor_test_witness :
  add_neighbor (VRef 0) (VRef 1)
    [ONode CNode "n" [] None; ONode CFactor "f" [] (Some VNone)]
  = (Raise TypeError,
     [ONode CNode "n" [] None; ONode CFactor "f" [] (Some VNone)]).
Proof.
  apply (proj1 base_node_has_no_neighbor_test _ 0 "n" [] None). reflexivity.
Defined.

(** ** The parser reads back what the notation writes *)

Lemma split_not_nil sep s : split sep s ≠ [].
Proof.
  destruct s as [|a s]; [done|]. simpl.
  destruct (Ascii.eqb a sep); [done|]. by destruct (split sep s).
Qed.

Lemma split_absent sep s : contains sep s = false → split sep s = [s].
Proof.
  induction s as [|a s IH]; [done|]. simpl.
  destruct (Ascii.eqb a sep); [done|]. intros H. by rewrite IH.
Qed.

Lemma split_app_sep sep a b :
  contains sep a = false →
  split sep (a +:+ String sep b) = a :: split sep b.
Proof.
  induction a as [|x a IH]; simpl.
  - by rewrite Ascii.eqb_refl.
  - destruct (Ascii.eqb x sep); [done|]. intros H. by rewrite IH.
Qed.

Lemma length_split_app_sep sep a b :
  length (split sep (a +:+ String sep b))
  = length (split sep a) + length (split sep b).
Proof.
  induction a as [|x a IH]; simpl.
  - by rewrite Ascii.eqb_refl.
  - destruct (Ascii.eqb x sep); simpl; [by rewrite IH|].
    pose proof (split_not_nil sep (a +:+ String sep b)).
    pose proof (split_not_nil sep a).
    by destruct (split sep (a +:+ String sep b)), (split sep a).
Qed.

Lemma contains_cons c a s :
  contains c (String a s) = Ascii.eqb a c || contains c s.
Proof. done. Qed.

Lemma contains_app c a b :
  contains c (a +:+ b) = contains c a || contains c b.
Proof.
  induction a as [|x a IH]; [done|]. simpl. by rewrite IH, orb_assoc.
Qed.

Lemma contains_join c sep names :
  Ascii.eqb sep c = false →
  Forall (λ x, contains c x = false) names →
  contains c (join sep names) = false.
Proof.
  intros Hsep. induction 1 as [|x names Hx Hnames IH]; [done|].
  destruct names as [|y names]; [done|].
  change (join sep (x :: y :: names))
    with (x +:+ String sep (join sep (y :: names))).
  by rewrite contains_app, Hx, contains_cons, Hsep, IH.
Qed.

Lemma split_join sep names :
  names ≠ [] → Forall (λ x, contains sep x = false) names →
  split sep (join sep names) = names.
Proof.
  intros Hne H. induction H as [|x names Hx Hnames IH]; [done|].
  destruct names as [|y names]; [by apply split_absent|].
  change (join sep (x :: y :: names))
    with (x +:+ String sep (join sep (y :: names))).
  rewrite split_app_sep by done. by rewrite IH.
Qed.

Lemma last_char_app_char a c : last_char (a +:+ String c "") = Some c.
Proof.
  induction a as [|x a IH]; [done|]. simpl.
  destruct (a +:+ String c "") eqn:E; [by destruct a|done].
Qed.

Lemma drop_last_app_char a c : drop_last (a +:+ String c "") = a.
Proof.
  induction a as [|x a IH]; [done|]. simpl.
  destruct (a +:+ String c "") eqn:E; [by destruct a|]. by rewrite IH.
Qed.

Lemma append_cons x a s : String x a +:+ s = String x (a +:+ s).
Proof. done. Qed.

Lemma append_empty_r a : a +:+ "" = a.
Proof. induction a as [|x a IH]; [done|]. rewrite append_cons. by f_equal. Qed.

Lemma string_app_assoc (a b c : string) : (a +:+ b) +:+ c = a +:+ (b +:+ c).
Proof.
  induction a as [|x a IH]; [done|]. rewrite !append_cons. by f_equal.
Qed.

Lemma append_char_assoc a c b d :
  a +:+ String c (b +:+ String d "") = (a +:+ String c b) +:+ String d "".
Proof. by rewrite string_app_assoc. Qed.

(** A term in parentheses passes the assertion of [_parse_term], which then
    works on what is between them. *)
Lemma _parse_term_enclosed body :
  _parse_term (String "(" (body +:+ ")")) =
  if contains "|" body then
    match split "|" body with
    | [var; given] => Ok (split "," var, split "," given)
    | _ => Raise ValueError_unpack
    end
  else Ok (split "," body, []).
Proof.
  unfold _parse_term.
  assert (last_char (String "(" (body +:+ ")")) = Some ")"%char) as ->.
  { change (last_char (("(" +:+ body) +:+ ")") = Some ")"%char).
    apply last_char_app_char. }
  rewrite bool_decide_eq_true_2 by done.
  unfold strip_ends. by rewrite drop_last_app_char.
Qed.

Lemma _parse_term_write_term var given :
  var ≠ [] → Forall term_name var → Forall term_name given →
  _parse_term (write_term var given) = Ok (var, given).
Proof.
  intros Hne Hvar Hgiven.
  assert (Hc : ∀ names, Forall term_name names →
                        contains "|" (join "," names) = false).
  { intros names H. apply contains_join; [done|].
    eapply Forall_impl; [exact H|]. by intros x [_ ?]. }
  assert (Hs : ∀ names, names ≠ [] → Forall term_name names →
                        split "," (join "," names) = names).
  { intros names ? H. apply split_join; [done|].
    eapply Forall_impl; [exact H|]. by intros x [? _]. }
  unfold write_term. destruct given as [|g given].
  - rewrite _parse_term_enclosed, Hc by done. by rewrite Hs.
  - rewrite append_char_assoc, _parse_term_enclosed.
    rewrite contains_app. simpl contains at 2. rewrite orb_true_r.
    rewrite split_app_sep by auto. rewrite split_absent by auto.
    by rewrite !Hs.
Qed.

(** X11.  [_parse_term] reads back a term that is written from its
    variables.  For a list [var] that is not empty and a list [given] of
    names without a comma or a bar, the term [(var|given)], or [(var)] when
    [given] is empty, parses to the pair of [var] and [given]. *)
Theorem parse_term_round_trip var given :
  var ≠ [] → Forall term_name var → Forall term_name given →
  _parse_term (write_term var given) = Ok (var, given).
Proof. apply _parse_term_write_term. Qed.

Lemma parse_term_round_trip_witness :
  _parse_term "(v1,v2|h1,h2)" = Ok (["v1"; "v2"], ["h1"; "h2"]).
Proof.
  apply (parse_term_round_trip ["v1"; "v2"] ["h1"; "h2"]); [done|..];
    repeat constructor.
Defined.

(** X12.  The three ways in which [_parse_term] fails: [IndexError] on the
    empty string, from [term[0]]; [AssertionError] on a term that does not
    start with an opening parenthesis or does not end with a closing one;
    [ValueError], from the unpacking of the split at the bar, on a term in
    parentheses with more than one bar. *)
Theorem parse_term_errors :
  _parse_term "" = Raise IndexError ∧
  (∀ c t,
      c ≠ "("%char ∨ last_char (String c t) ≠ Some ")"%char →
      _parse_term (String c t) = Raise AssertionError) ∧
  (∀ a b c,
      _parse_term (String "(" (a +:+ String "|" (b +:+ String "|" (c +:+ ")"))))
      = Raise ValueError_unpack).
Proof.
  split; [done|]. split.
  - intros c t H. unfold _parse_term.
    destruct (decide (c = "("%char)) as [->|Hc].
    + destruct H as [?|H]; [done|]. by rewrite bool_decide_eq_false_2.
    + destruct c as [[] [] [] [] [] [] [] []]; done.
  - intros a b c.
    rewrite !append_char_assoc, _parse_term_enclosed.
    rewrite contains_app. simpl contains at 2. rewrite orb_true_r.
    assert (length (split "|" (a +:+ String "|" (b +:+ String "|" c)))
            = length (split "|" a)
              + (length (split "|" b) + length (split "|" c))) as Hl
      by (by rewrite !length_split_app_sep).
    pose proof (split_not_nil "|" a). pose proof (split_not_nil "|" b).
    pose proof (split_not_nil "|" c).
    destruct (split "|" (a +:+ String "|" (b +:+ String "|" c)))
      as [|? [|? [|? ?]]]; try done;
      destruct (split "|" a), (split "|" b), (split "|" c);
      simpl in Hl; try done; lia.
Qed.

Lemma parse_term_errors_witness :
  _parse_term "h1)" = Raise AssertionError ∧
  _parse_term "(a|b|c)" = Raise ValueError_unpack.
Proof.
  split.
  - apply (proj1 (proj2 parse_term_errors)). left. discriminate.
  - apply (proj2 (proj2 parse_term_errors) "a" "b" "c").
Defined.

(** *** Whole model strings *)

Lemma contains_write_term c var given :
  Ascii.eqb "(" c = false → Ascii.eqb ")" c = false →
  Ascii.eqb "," c = false → Ascii.eqb "|" c = false →
  Forall (λ x, contains c x = false) var →
  Forall (λ x, contains c x = false) given →
  contains c (write_term var given) = false.
Proof.
  intros H1 H2 H3 H4 Hvar Hgiven. unfold write_term.
  destruct given as [|g given]; rewrite contains_cons, H1.
  - rewrite contains_app, contains_join by done.
    by rewrite contains_cons, H2.
  - rewrite contains_app, contains_join by done.
    rewrite contains_cons, H4, contains_app, contains_join by done.
    by rewrite contains_cons, H2.
Qed.

Lemma split_write_model w terms :
  contains "p" w = false →
  Forall (λ t, Forall model_name t.1 ∧ Forall model_name t.2) terms →
  split "p" (w +:+ write_model terms)
  = w :: ((λ t, write_term t.1 t.2) <$> terms).
Proof.
  intros Hw H. revert w Hw.
  induction H as [|t terms [Hv Hg] Hterms IH]; intros w Hw.
  - change (write_model []) with "". rewrite append_empty_r.
    by apply split_absent.
  - change (write_model (t :: terms))
      with (String "p" (write_term t.1 t.2 +:+ write_model terms)).
    rewrite split_app_sep by done. csimpl. f_equal.
    apply IH. apply contains_write_term; try done.
    + eapply Forall_impl; [exact Hv|]. by intros x [_ ?].
    + eapply Forall_impl; [exact Hg|]. by intros x [_ ?].
Qed.

Lemma parse_terms_write_terms terms :
  Forall (λ t, t.1 ≠ [] ∧ Forall model_name t.1 ∧ Forall model_name t.2)
    terms →
  parse_terms ((λ t, write_term t.1 t.2) <$> terms)
  = Ok ((λ t, mkParsedTerm (String "p" (write_term t.1 t.2)) t.1 t.2)
          <$> terms).
Proof.
  induction 1 as [|t terms (Hne & Hv & Hg) Hterms IH]; [done|]. csimpl.
  rewrite bool_decide_eq_false_2 by (by unfold write_term; destruct (t.2)).
  rewrite _parse_term_write_term, IH; [done|done|..].
  - eapply Forall_impl; [exact Hv|]. by intros x [? _].
  - eapply Forall_impl; [exact Hg|]. by intros x [? _].
Qed.

(** X13.  [_parse_model_string_into_terms] reads back a model string that
    is written from its terms.  When no name has a comma, a bar or a [p] in
    it and every term has a variable on its left, the result is the list of
    the terms in their order, each with its text [p(...)], its variables
    and the variables it is conditioned on. *)
Theorem parse_model_string_round_trip terms :
  Forall (λ t, t.1 ≠ [] ∧ Forall model_name t.1 ∧ Forall model_name t.2)
    terms →
  _parse_model_string_into_terms (write_model terms)
  = Ok ((λ t, mkParsedTerm (String "p" (write_term t.1 t.2)) t.1 t.2)
          <$> terms).
Proof.
  intros H. unfold _parse_model_string_into_terms.
  change (write_model terms) with ("" +:+ write_model terms).
  rewrite split_write_model; [|done|].
  - simpl. by apply parse_terms_write_terms.
  - eapply Forall_impl; [exact H|]. by intros t (_ & ? & ?).
Qed.

Lemma parse_model_string_round_trip_witness :
  _parse_model_string_into_terms chain_model
  = Ok [mkParsedTerm "p(h1)" ["h1"] [];
        mkParsedTerm "p(h2|h1)" ["h2"] ["h1"];
        mkParsedTerm "p(v1|h1)" ["v1"] ["h1"];
        mkParsedTerm "p(v2|h2)" ["v2"] ["h2"]].
Proof.
  apply (parse_model_string_round_trip
           [(["h1"], []); (["h2"], ["h1"]); (["v1"], ["h1"]);
            (["v2"], ["h2"])]).
  repeat (apply Forall_cons; split; [split; [done|split]|]);
    repeat constructor.
Defined.

(** *** A name with the letter [p] in it *)

Lemma first_occurrence c s :
  contains c s = true →
  ∃ pre post, s = pre +:+ String c post ∧ contains c pre = false.
Proof.
  induction s as [|a s IH]; [done|]. rewrite contains_cons.
  destruct (Ascii.eqb a c) eqn:E.
  - intros _. apply Ascii.eqb_eq in E as ->. by exists EmptyString, s.
  - intros (pre & post & -> & Hpre)%IH. exists (String a pre), post.
    split; [done|]. by rewrite contains_cons, E.
Qed.

Lemma contains_join_elem c sep names x :
  x ∈ names → contains c x = true → contains c (join sep names) = true.
Proof.
  intros Hin Hx. induction names as [|y names IH];
    [by apply elem_of_nil in Hin|].
  destruct names as [|z names].
  { apply list_elem_of_singleton in Hin. by subst. }
  change (join sep (y :: z :: names))
    with (y +:+ String sep (join sep (z :: names))).
  rewrite contains_app, contains_cons.
  apply elem_of_cons in Hin as [->|Hin].
  - by rewrite Hx.
  - rewrite IH by done. by rewrite !orb_true_r.
Qed.

Lemma last_char_contains c s : last_char s = Some c → contains c s = true.
Proof.
  induction s as [|a s IH]; [done|]. simpl last_char. rewrite contains_cons.
  destruct s as [|b s].
  - intros [= ->]. by rewrite Ascii.eqb_refl.
  - intros H. by rewrite IH, orb_true_r.
Qed.

Lemma write_model_app terms1 terms2 :
  write_model (terms1 ++ terms2) = write_model terms1 +:+ write_model terms2.
Proof.
  induction terms1 as [|t terms1 IH]; [done|].
  change (String "p" (write_term t.1 t.2 +:+ write_model (terms1 ++ terms2))
          = String "p" ((write_term t.1 t.2 +:+ write_model terms1)
                        +:+ write_model terms2)).
  by rewrite IH, string_app_assoc.
Qed.

Lemma split_written_terms w terms tail :
  contains "p" w = false →
  Forall (λ t, Forall model_name t.1 ∧ Forall model_name t.2) terms →
  split "p" (w +:+ (write_model terms +:+ String "p" tail))
  = (w :: ((λ t, write_term t.1 t.2) <$> terms)) ++ split "p" tail.
Proof.
  intros Hw H. revert w Hw.
  induction H as [|t terms [Hv Hg] Hterms IH]; intros w Hw.
  - change (write_model [] +:+ String "p" tail) with (String "p" tail).
    by rewrite split_app_sep.
  - change (write_model (t :: terms) +:+ String "p" tail)
      with (String "p" ((write_term t.1 t.2 +:+ write_model terms)
                        +:+ String "p" tail)).
    rewrite split_app_sep, string_app_assoc by done. csimpl. f_equal.
    apply IH. apply contains_write_term; try done.
    + eapply Forall_impl; [exact Hv|]. by intros x [_ ?].
    + eapply Forall_impl; [exact Hg|]. by intros x [_ ?].
Qed.

Lemma parse_terms_stops terms piece more e :
  Forall (λ t, t.1 ≠ [] ∧ Forall model_name t.1 ∧ Forall model_name t.2)
    terms →
  piece ≠ EmptyString → _parse_term piece = Raise e →
  parse_terms (((λ t, write_term t.1 t.2) <$> terms) ++ piece :: more)
  = Raise e.
Proof.
  intros H Hne Hp. induction H as [|t terms (Hnil & Hv & Hg) Hterms IH].
  - simpl. by rewrite bool_decide_eq_false_2, Hp.
  - csimpl.
    rewrite bool_decide_eq_false_2 by (by unfold write_term; destruct (t.2)).
    rewrite _parse_term_write_term, IH; [done|done|..].
    + eapply Forall_impl; [exact Hv|]. by intros x [? _].
    + eapply Forall_impl; [exact Hg|]. by intros x [? _].
Qed.

(** X14.  A variable name with the letter [p] in it cannot be used in a
    model string.  The string is split at every [p]: in the first term that
    has such a name, whatever follows it, the piece that ends at the letter
    fails the assertion of [_parse_term], and
    [_parse_model_string_into_terms] raises [AssertionError] (for names
    without a closing parenthesis, comma or bar). *)
Theorem parse_model_string_name_with_p good var given rest x :
  Forall (λ t, t.1 ≠ [] ∧ Forall model_name t.1 ∧ Forall model_name t.2)
    good →
  x ∈ var ++ given → contains "p" x = true →
  Forall (λ y, contains ")" y = false) (var ++ given) →
  _parse_model_string_into_terms (write_model (good ++ (var, given) :: rest))
  = Raise AssertionError.
Proof.
  intros Hgood Hx Hp Hclose.
  apply Forall_app in Hclose as [Hcv Hcg].
  (* the text between the parentheses of the term *)
  assert (∃ body,
            write_term var given = String "(" (body +:+ ")") ∧
            contains "p" body = true ∧ contains ")" body = false)
    as (body & Hbody & Hpb & Hcb).
  { unfold write_term. destruct given as [|g given].
    - exists (join "," var). split; [done|].
      rewrite app_nil_r in Hx. split; [by eapply contains_join_elem|].
      by apply contains_join.
    - exists (join "," var +:+ String "|" (join "," (g :: given))).
      split; [by rewrite append_char_assoc|].
      rewrite !contains_app, !contains_cons. split.
      + apply elem_of_app in Hx as [Hx|Hx].
        * by rewrite (contains_join_elem _ _ _ _ Hx Hp).
        * rewrite (contains_join_elem _ _ _ _ Hx Hp). by rewrite !orb_true_r.
      + by rewrite !contains_join. }
  destruct (first_occurrence _ _ Hpb) as (pre & post & -> & Hpre).
  rewrite contains_app in Hcb. apply orb_false_iff in Hcb as [Hcpre _].
  (* the piece that ends at the letter *)
  assert (_parse_term (String "(" pre) = Raise AssertionError) as Hpiece.
  { unfold _parse_term. rewrite bool_decide_eq_false_2; [done|].
    intros Hl%last_char_contains. rewrite contains_cons, Hcpre in Hl.
    discriminate Hl. }
  unfold _parse_model_string_into_terms.
  rewrite write_model_app.
  change (write_model ((var, given) :: rest))
    with (String "p" (write_term var given +:+ write_model rest)).
  change (write_model good +:+ ?s) with ("" +:+ (write_model good +:+ s)).
  rewrite split_written_terms; [|done|].
  2:{ eapply Forall_impl; [exact Hgood|]. by intros t (_ & ? & ?). }
  assert (write_term var given +:+ write_model rest
          = String "(" pre
            +:+ String "p" (post +:+ (")" +:+ write_model rest))) as ->.
  { rewrite Hbody, !append_cons. f_equal. by rewrite !string_app_assoc. }
  rewrite split_app_sep by (by rewrite contains_cons, Hpre).
  simpl app. simpl parse_terms.
  by apply parse_terms_stops.
Qed.

Lemma parse_model_string_name_with_p_witness :
  _parse_model_string_into_terms "p(h1)p(temp|h1)" = Raise AssertionError.
Proof.
  apply (parse_model_string_name_with_p [(["h1"], [])] ["temp"] ["h1"] []
           "temp").
  - repeat constructor; done.
  - apply elem_of_cons. by left.
  - reflexivity.
  - repeat constructor.
Defined.

(** ** The construction of a graph *)

Lemma edges_only_refl h : edges_only h h.
Proof. split; [done|]. intros l [] Hl; eauto. Qed.

Lemma edges_only_trans h1 h2 h3 :
  edges_only h1 h2 → edges_only h2 h3 → edges_only h1 h3.
Proof.
  intros [L12 H12] [L23 H23]. split; [lia|]. intros l o Hl.
  specialize (H12 l o Hl). destruct o.
  - destruct H12 as [nb' H12]. apply (H23 _ _ H12).
  - apply (H23 _ _ H12).
  - apply (H23 _ _ H12).
  - apply (H23 _ _ H12).
Qed.

Lemma edges_only_alloc o : respects edges_only (alloc o).
Proof.
  intros h. simpl. split; [rewrite length_app; lia|]. intros l o' Hl.
  rewrite (lookup_app_l_Some _ _ _ _ Hl). destruct o'; eauto.
Qed.

Lemma edges_only_insert h l c name nbrs nbrs' d :
  h !! l = Some (ONode c name nbrs d) →
  edges_only h (<[l := ONode c name nbrs' d]> h).
Proof.
  intros Hl. split; [by rewrite length_insert|]. intros l' o Hl'.
  destruct (decide (l = l')) as [<-|Hne].
  - rewrite list_lookup_insert_eq by (by eapply lookup_lt_Some).
    rewrite Hl in Hl'. injection Hl' as <-. eauto.
  - rewrite list_lookup_insert_ne by done. destruct o; eauto.
Qed.

Lemma edges_only_add_neighbor self neighbor :
  respects edges_only (add_neighbor self neighbor).
Proof.
  intros h. unfold add_neighbor, bind, is_valid_neighbor, read.
  destruct (deref self h) as [[c name nbrs d| | |]|] eqn:Hs;
    try apply edges_only_refl.
  destruct self as [| |l]; try done. simpl in Hs.
  assert (edges_only h (append_neighbor (VRef l) neighbor h).2) as Happ.
  { unfold append_neighbor. rewrite Hs. simpl. by eapply edges_only_insert. }
  destruct c; try apply edges_only_refl; case_match;
    try apply edges_only_refl; exact Happ.
Qed.

Ltac edges_step :=
  first [ apply edges_only_add_neighbor
        | apply edges_only_alloc
        | respects_step edges_only_refl edges_only_trans ].

Lemma edges_only_connect new_factor variables names :
  respects edges_only (connect new_factor variables names).
Proof.
  induction names as [|x names IH]; simpl; repeat edges_step. apply IH.
Qed.

Lemma edges_only_build_factors pts variables :
  respects edges_only (build_factors pts variables).
Proof.
  induction pts as [|pt pts IH]; simpl; repeat edges_step.
  - apply edges_only_connect.
  - apply IH.
Qed.

Lemma declared_in_edges_only n variables h h' :
  declared_in n variables h → edges_only h h' → declared_in n variables h'.
Proof.
  intros Hd [_ He] x v Hx.
  destruct (Hd x v Hx) as (l & nbrs & -> & Hn & Hl).
  destruct (He _ _ Hl) as [nbrs' Hl']. by exists l, nbrs'.
Qed.

Lemma isinstance_edges_only h h' v c :
  edges_only h h' → isinstance h v c = true → isinstance h' v c = true.
Proof.
  intros [_ He]. unfold isinstance, deref. destruct v as [| |l]; try done.
  destruct (h !! l) as [[c' name nbrs d| | |]|] eqn:Hl; try done.
  destruct (He _ _ Hl) as [nbrs' ->]. done.
Qed.

(** One round of the inner loop of the parser adds an edge at both of its
    ends. *)
Lemma connect_cons variables x rest lf lv fn fnb fd xn vnb vd h :
  variables !! x = Some (VRef lv) →
  h !! lf = Some (ONode CFactor fn fnb fd) →
  h !! lv = Some (ONode CVariable xn vnb vd) →
  connect (VRef lf) variables (x :: rest) h
  = connect (VRef lf) variables rest
      (<[lv := ONode CVariable xn (vnb ++ [VRef lf]) vd]>
         (<[lf := ONode CFactor fn (fnb ++ [VRef lv]) fd]> h)).
Proof.
  intros Hx Hf Hv.
  assert (lf ≠ lv) as Hne by (intros ->; congruence).
  pose proof (lookup_lt_Some _ _ _ Hf) as Hlf.
  simpl. unfold dict_get. rewrite Hx, bind_ret.
  unfold bind at 1. rewrite (add_neighbor_valid _ _ _ _ _ _ _ Hf).
  2:{ right. split; [done|]. unfold isinstance. simpl. by rewrite Hv. }
  rewrite bind_ret. unfold bind at 1.
  rewrite (add_neighbor_valid _ lv CVariable xn vnb vd); [done| |].
  - by rewrite list_lookup_insert_ne.
  - left. split; [done|]. unfold isinstance. simpl.
    by rewrite list_lookup_insert_eq.
Qed.

Lemma connect_missing variables x rest new_factor h :
  variables !! x = None →
  connect new_factor variables (x :: rest) h = (Raise (KeyError x), h).
Proof. intros Hx. simpl. unfold dict_get. by rewrite Hx. Qed.

Lemma isinstance_Factor h lf :
  isinstance h (VRef lf) CFactor = true →
  ∃ fn fnb fd, h !! lf = Some (ONode CFactor fn fnb fd).
Proof.
  unfold isinstance. simpl.
  destruct (h !! lf) as [[c fn fnb fd| | |]|]; try done.
  intros ->%bool_decide_eq_true. eauto.
Qed.

Lemma edges_only_link h lf lv fn fnb fd xn vnb vd v1 v2 :
  h !! lf = Some (ONode CFactor fn fnb fd) →
  h !! lv = Some (ONode CVariable xn vnb vd) →
  edges_only h (<[lv := ONode CVariable xn (vnb ++ v1) vd]>
                  (<[lf := ONode CFactor fn (fnb ++ v2) fd]> h)).
Proof.
  intros Hf Hv. assert (lf ≠ lv) as Hne by (intros ->; congruence).
  apply edges_only_trans with (<[lf := ONode CFactor fn (fnb ++ v2) fd]> h).
  - by eapply edges_only_insert.
  - eapply edges_only_insert. by rewrite list_lookup_insert_ne.
Qed.

(** *** What the construction keeps *)

Section construction_invariant.
Context (n : nat) (I : list obj → Prop).
Hypothesis I_alloc :
  ∀ h c name d, n ≤ length h → I h → I (h ++ [ONode c name [] d]).
Hypothesis I_link :
  ∀ h lf lv fn fnb fd x vnb vd,
    n ≤ lf → n ≤ lv →
    h !! lf = Some (ONode CFactor fn fnb fd) →
    h !! lv = Some (ONode CVariable x vnb vd) →
    I h →
    I (<[lv := ONode CVariable x (vnb ++ [VRef lf]) vd]>
         (<[lf := ONode CFactor fn (fnb ++ [VRef lv]) fd]> h)).

Lemma connect_invariant variables lf xs h :
  declared_in n variables h → n ≤ lf →
  isinstance h (VRef lf) CFactor = true →
  I h → I (connect (VRef lf) variables xs h).2.
Proof using I_link.
  revert h. induction xs as [|x xs IH]; intros h Hd Hn Hf HI; [done|].
  destruct (variables !! x) as [v|] eqn:Hx;
    [|by rewrite connect_missing].
  destruct (Hd x v Hx) as (lv & vnb & -> & Hlv & Hv).
  destruct (isinstance_Factor _ _ Hf) as (fn & fnb & fd & Hlf).
  rewrite (connect_cons _ _ _ _ _ _ _ _ _ _ _ _ Hx Hlf Hv).
  pose proof (edges_only_link h lf lv fn fnb fd x vnb None [VRef lf] [VRef lv]
                Hlf Hv) as He.
  apply IH; [by eapply declared_in_edges_only|done| |by eapply I_link].
  by eapply isinstance_edges_only.
Qed.

Lemma build_factors_invariant pts variables h :
  declared_in n variables h → n ≤ length h →
  I h → I (build_factors pts variables h).2.
Proof using I_alloc I_link.
  revert h. induction pts as [|pt pts IH]; intros h Hd Hn HI; [done|].
  simpl. unfold new_Factor. rewrite bind_alloc.
  set (h1 := h ++ [ONode CFactor (term pt) [] (Some VNone)]).
  assert (edges_only h h1) as He1 by apply (edges_only_alloc _ h).
  assert (declared_in n variables h1) as Hd1
    by (by eapply declared_in_edges_only).
  pose proof (connect_invariant variables (length h)
                (var_name pt ++ given pt) h1 Hd1 Hn) as HI2.
  pose proof (edges_only_connect (VRef (length h)) variables
                (var_name pt ++ given pt) h1) as He2.
  unfold bind at 1.
  destruct (connect (VRef (length h)) variables (var_name pt ++ given pt) h1)
    as [[[]|e] h2]; simpl in *.
  - assert (I h2) as HI2'.
    { apply HI2; [|by apply I_alloc].
      unfold isinstance, h1. simpl. by rewrite lookup_app_r, Nat.sub_diag. }
    specialize (IH h2). unfold bind.
    destruct (build_factors pts variables h2) as [[fs|e] h3]; simpl in *;
      apply IH; try done; try (by eapply declared_in_edges_only);
      destruct He1, He2; lia.
  - apply HI2; [|by apply I_alloc].
    unfold isinstance, h1. simpl. by rewrite lookup_app_r, Nat.sub_diag.
Qed.


Lemma alloc_variables_invariant h new :
  n ≤ length h →
  Forall (λ o, ∃ x, o = ONode CVariable x [] None) new →
  I h → I (h ++ new).
Proof using I_alloc.
  intros Hn Hnew. revert h Hn.
  induction Hnew as [|o new [x ->] Hnew IH]; intros h Hn HI.
  - by rewrite app_nil_r.
  - rewrite cons_middle, app_assoc. apply IH.
    + rewrite length_app. simpl. lia.
    + by apply I_alloc.
Qed.

End construction_invariant.

(** *** The dict of variables *)

Lemma declare_names_spec n names variables h :
  declared_in n variables h → n ≤ length h →
  ∃ variables' new,
    declare_names names variables h = (Ok variables', h ++ new) ∧
    declared_in n variables' (h ++ new) ∧
    (∀ x, is_Some (variables' !! x) ↔ is_Some (variables !! x) ∨ x ∈ names) ∧
    Forall (λ o, ∃ x, o = ONode CVariable x [] None) new.
Proof.
  revert variables h.
  induction names as [|x names IH]; intros variables h Hd Hn.
  { exists variables, []. rewrite app_nil_r. split; [done|]. split; [done|].
    split; [|done]. intros x. split; [by left|]. by intros [?|?%elem_of_nil]. }
  simpl. destruct (variables !! x) as [v|] eqn:Hx.
  - destruct (IH variables h Hd Hn) as (vs' & new & -> & Hd' & Hdom & Hnew).
    exists vs', new. split; [done|]. split; [done|]. split; [|done].
    assert (is_Some (variables !! x)) as Hsome by (by rewrite Hx).
    intros y. rewrite Hdom, elem_of_cons.
    split; [intros [?|?]; auto|intros [?|[->|?]]; auto].
  - unfold new_Variable. rewrite bind_alloc.
    destruct (IH (<[x := VRef (length h)]> variables)
                (h ++ [ONode CVariable x [] None]))
      as (vs' & new & Heq & Hd' & Hdom & Hnew).
    + intros y v Hy. destruct (decide (x = y)) as [<-|Hne].
      * rewrite lookup_insert_eq in Hy. injection Hy as <-.
        exists (length h), []. split; [done|]. split; [done|].
        by rewrite lookup_app_r, Nat.sub_diag.
      * rewrite lookup_insert_ne in Hy by done.
        destruct (Hd y v Hy) as (l & nb & -> & ? & Hl).
        exists l, nb. split; [done|]. split; [done|].
        by apply lookup_app_l_Some.
    + rewrite length_app. simpl. lia.
    + exists vs', (ONode CVariable x [] None :: new).
      rewrite Heq, <-app_assoc. split; [done|].
      split; [by rewrite <-app_assoc in Hd'|]. split.
      * intros y. rewrite Hdom, lookup_insert_is_Some, elem_of_cons.
        destruct (decide (x = y)) as [->|Hne].
        -- split; intros _; [right|left]; by left.
        -- split.
           ++ intros [[?|[_ ?]]|?]; [done|by left|right; by right].
           ++ intros [?|[->|?]]; [left; by right|done|by right].
      * constructor; eauto.
Qed.

Lemma declare_variables_spec n pts variables h :
  declared_in n variables h → n ≤ length h →
  ∃ variables' new,
    declare_variables pts variables h = (Ok variables', h ++ new) ∧
    declared_in n variables' (h ++ new) ∧
    (∀ x, is_Some (variables' !! x)
          ↔ is_Some (variables !! x) ∨ x ∈ declared pts) ∧
    Forall (λ o, ∃ x, o = ONode CVariable x [] None) new.
Proof.
  revert variables h.
  induction pts as [|pt pts IH]; intros variables h Hd Hn.
  { exists variables, []. rewrite app_nil_r. split; [done|]. split; [done|].
    split; [|done]. intros x. split; [by left|]. by intros [?|?%elem_of_nil]. }
  simpl. unfold bind.
  destruct (declare_names_spec n (var_name pt) variables h Hd Hn)
    as (vs1 & new1 & -> & Hd1 & Hdom1 & Hnew1).
  destruct (IH vs1 (h ++ new1) Hd1) as (vs2 & new2 & -> & Hd2 & Hdom2 & Hnew2).
  { rewrite length_app. lia. }
  exists vs2, (new1 ++ new2). rewrite app_assoc. split; [done|].
  split; [done|]. split; [|by apply Forall_app].
  intros x. rewrite Hdom2, Hdom1, elem_of_app. tauto.
Qed.

Lemma from_string_unfold s h :
  from_string s h =
  match _parse_model_string_into_terms s with
  | Raise e => (Raise e, h)
  | Ok pts =>
      match declare_variables pts ∅ h with
      | (Raise e, h1) => (Raise e, h1)
      | (Ok variables, h1) =>
          match build_factors pts variables h1 with
          | (Raise e, h2) => (Raise e, h2)
          | (Ok factors, h2) => (Ok (mkPGM factors variables), h2)
          end
      end
  end.
Proof.
  unfold from_string, parse_model_into_variables_and_factors.
  destruct (_parse_model_string_into_terms s) as [pts|e]; [|done].
  unfold bind. destruct (declare_variables pts ∅ h) as [[variables|e] h1];
    [|done].
  by destruct (build_factors pts variables h1) as [[factors|e] h2].
Qed.

Lemma declared_in_empty n h : declared_in n ∅ h.
Proof. intros x v Hx. by rewrite lookup_empty in Hx. Qed.

(** Whatever the construction of a graph keeps step by step (when a node
    without neighbours is created, when an edge between a new [Factor] and
    a new [Variable] is added at both ends), [from_string] keeps. *)
Lemma from_string_invariant (I : list obj → Prop) s h :
  (∀ h' c name d,
      length h ≤ length h' → I h' → I (h' ++ [ONode c name [] d])) →
  (∀ h' lf lv fn fnb fd x vnb vd,
      length h ≤ lf → length h ≤ lv →
      h' !! lf = Some (ONode CFactor fn fnb fd) →
      h' !! lv = Some (ONode CVariable x vnb vd) →
      I h' →
      I (<[lv := ONode CVariable x (vnb ++ [VRef lf]) vd]>
           (<[lf := ONode CFactor fn (fnb ++ [VRef lv]) fd]> h'))) →
  I h → I (from_string s h).2.
Proof.
  intros I_alloc I_link HI. rewrite from_string_unfold.
  destruct (_parse_model_string_into_terms s) as [pts|e]; [|done].
  destruct (declare_variables_spec (length h) pts ∅ h)
    as (variables & new & -> & Hd & _ & Hnew);
    [apply declared_in_empty|done|].
  assert (I (h ++ new)) as HI1
    by (by apply (alloc_variables_invariant (length h) I I_alloc)).
  pose proof (build_factors_invariant (length h) I I_alloc I_link pts
                variables (h ++ new) Hd) as HI2.
  destruct (build_factors pts variables (h ++ new)) as [[factors|e] h2];
    simpl in *; apply HI2; try done; rewrite length_app; lia.
Qed.

(** *** Objects that were there before *)

(** X15.  [from_string] changes no object that existed before the call: it
    only adds objects, whether it returns or raises. *)
Theorem from_string_extends s h : extends h (from_string s h).2.
Proof.
  assert (length h ≤ length (from_string s h).2
          ∧ ∀ l, l < length h → (from_string s h).2 !! l = h !! l) as [Hlen Hl].
  { apply (from_string_invariant
             (λ h', length h ≤ length h' ∧ ∀ l, l < length h → h' !! l = h !! l)).
    - intros h' c name d _ [Hlen Hl]. split; [rewrite length_app; lia|].
      intros l Hlt. rewrite lookup_app_l by lia. by apply Hl.
    - intros h' lf lv fn fnb fd x vnb vd Hlf Hlv _ _ [Hlen Hl].
      split; [by rewrite !length_insert|]. intros l Hlt.
      rewrite !list_lookup_insert_ne by lia. by apply Hl.
    - done. }
  exists (drop (length h) (from_string s h).2).
  rewrite <-(take_drop (length h) (from_string s h).2) at 1. f_equal.
  apply list_eq. intros l. destruct (decide (l < length h)) as [Hlt|Hge].
  - rewrite lookup_take_lt by done. by apply Hl.
  - rewrite lookup_take_ge by lia. symmetry. apply lookup_ge_None. lia.
Qed.

(** *** Both ends of an edge *)

Lemma neighbors_at_alloc h c name d l :
  neighbors_at (h ++ [ONode c name [] d]) l = neighbors_at h l.
Proof.
  unfold neighbors_at. destruct (decide (l < length h)) as [Hlt|Hge].
  - by rewrite lookup_app_l.
  - rewrite (proj2 (lookup_ge_None h l)) by lia.
    rewrite lookup_app_r by lia.
    by destruct (l - length h) as [|k].
Qed.

Lemma neighbors_at_insert h l c name nbrs d l' :
  l < length h →
  neighbors_at (<[l := ONode c name nbrs d]> h) l'
  = if decide (l' = l) then nbrs else neighbors_at h l'.
Proof.
  intros Hl. unfold neighbors_at. case_decide as Hd.
  - subst l'. by rewrite list_lookup_insert_eq.
  - by rewrite list_lookup_insert_ne.
Qed.

Lemma count_snoc v vs v' :
  occurrences v (vs ++ [v']) = occurrences v vs + (if decide (v' = v) then 1 else 0).
Proof.
  unfold occurrences. rewrite filter_app, length_app. f_equal.
  case_decide.
  - by rewrite filter_cons_True.
  - by rewrite filter_cons_False.
Qed.

Lemma symmetric_nil : symmetric_edges [].
Proof. intros l l'. unfold neighbors_at. by rewrite !lookup_nil. Qed.

Lemma symmetric_alloc h c name d :
  symmetric_edges h → symmetric_edges (h ++ [ONode c name [] d]).
Proof. intros Hs l l'. rewrite !neighbors_at_alloc. apply Hs. Qed.

Lemma symmetric_link h lf lv fn fnb fd x vnb vd :
  h !! lf = Some (ONode CFactor fn fnb fd) →
  h !! lv = Some (ONode CVariable x vnb vd) →
  symmetric_edges h →
  symmetric_edges (<[lv := ONode CVariable x (vnb ++ [VRef lf]) vd]>
               (<[lf := ONode CFactor fn (fnb ++ [VRef lv]) fd]> h)).
Proof.
  intros Hf Hv Hs. assert (lf ≠ lv) as Hne by (intros ->; congruence).
  pose proof (lookup_lt_Some _ _ _ Hf) as Hlf.
  pose proof (lookup_lt_Some _ _ _ Hv) as Hlv.
  assert (Hfn : neighbors_at h lf = fnb) by (unfold neighbors_at; by rewrite Hf).
  assert (Hvn : neighbors_at h lv = vnb) by (unfold neighbors_at; by rewrite Hv).
  assert (Hc : ∀ l l',
    occurrences (VRef l')
      (neighbors_at (<[lv := ONode CVariable x (vnb ++ [VRef lf]) vd]>
                       (<[lf := ONode CFactor fn (fnb ++ [VRef lv]) fd]> h)) l)
    = occurrences (VRef l') (neighbors_at h l)
      + (if decide (l = lv ∧ l' = lf) then 1 else 0)
      + (if decide (l = lf ∧ l' = lv) then 1 else 0)).
  { intros l l'.
    rewrite neighbors_at_insert by (by rewrite length_insert).
    destruct (decide (l = lv)) as [->|Hl].
    - rewrite count_snoc, Hvn.
      rewrite (decide_False (P := lv = lf ∧ l' = lv)) by (intros []; congruence).
      destruct (decide (l' = lf)) as [->|Hl'].
      + rewrite decide_True by done. rewrite decide_True by done. lia.
      + rewrite decide_False by congruence.
        rewrite decide_False by (by intros []). lia.
    - rewrite neighbors_at_insert by done.
      rewrite (decide_False (P := l = lv ∧ l' = lf)) by (by intros []).
      destruct (decide (l = lf)) as [->|Hl2].
      + rewrite count_snoc, Hfn.
        destruct (decide (l' = lv)) as [->|Hl'].
        * rewrite decide_True by done. rewrite decide_True by done. lia.
        * rewrite decide_False by congruence.
          rewrite decide_False by (by intros []). lia.
      + rewrite decide_False by (by intros []). lia. }
  intros l l'. rewrite !Hc, (Hs l l').
  destruct (decide (l = lv ∧ l' = lf)) as [[E1 E2]|H1];
    destruct (decide (l = lf ∧ l' = lv)) as [[E3 E4]|H2].
  - congruence.
  - subst l l'.
    rewrite (decide_True (P := lf = lf ∧ lv = lv)) by done.
    rewrite (decide_False (P := lf = lv ∧ lv = lf)) by (by intros []). lia.
  - subst l l'.
    rewrite (decide_True (P := lv = lv ∧ lf = lf)) by done.
    rewrite (decide_False (P := lv = lf ∧ lf = lv)) by (intros []; congruence).
    lia.
  - rewrite (decide_False (P := l' = lv ∧ l = lf)) by (intros []; by apply H2).
    rewrite (decide_False (P := l' = lf ∧ l = lv)) by (intros []; by apply H1).
    done.
Qed.

(** X16.  [from_string] records every edge at both of its ends.  If in the
    heap it starts from every node is among the neighbours of each other
    node as often as that node is among its own, then so it is in the heap
    that [from_string] leaves, whether it returns or raises. *)
Theorem from_string_symmetric s h :
  symmetric_edges h → symmetric_edges (from_string s h).2.
Proof.
  intros Hs. apply (from_string_invariant symmetric_edges); [| |done].
  - intros h' c name d _. apply symmetric_alloc.
  - intros h' lf lv fn fnb fd x vnb vd _ _. apply symmetric_link.
Qed.

Lemma from_string_symmetric_witness :
  symmetric_edges (from_string chain_model []).2.
Proof. apply (from_string_symmetric chain_model []). apply symmetric_nil. Defined.

(** *** A variable that no term declares *)

Lemma connect_outcome n variables lf xs h :
  declared_in n variables h → isinstance h (VRef lf) CFactor = true →
  (connect (VRef lf) variables xs h).1
  = match head (filter (λ x, variables !! x = None) xs) with
    | Some x => Raise (KeyError x)
    | None => Ok ()
    end.
Proof.
  revert h. induction xs as [|x xs IH]; intros h Hd Hf; [done|].
  destruct (variables !! x) as [v|] eqn:Hx.
  - rewrite filter_cons_False by (by rewrite Hx).
    destruct (Hd x v Hx) as (lv & vnb & -> & Hlv & Hv).
    destruct (isinstance_Factor _ _ Hf) as (fn & fnb & fd & Hlf).
    rewrite (connect_cons _ _ _ _ _ _ _ _ _ _ _ _ Hx Hlf Hv).
    pose proof (edges_only_link h lf lv fn fnb fd x vnb None [VRef lf]
                  [VRef lv] Hlf Hv) as He.
    apply IH; [by eapply declared_in_edges_only|].
    by eapply isinstance_edges_only.
  - rewrite filter_cons_True by done. by rewrite connect_missing.
Qed.

Lemma bind_unfold {A B} (m : py A) (k : A → py B) h :
  bind m k h
  = match m h with (Ok a, h') => k a h' | (Raise e, h') => (Raise e, h') end.
Proof. done. Qed.

Lemma build_factors_outcome n variables pts h :
  declared_in n variables h →
  match head (filter (λ x, variables !! x = None) (mentioned pts)) with
  | Some x => (build_factors pts variables h).1 = Raise (KeyError x)
  | None => ∃ factors, (build_factors pts variables h).1 = Ok factors
  end.
Proof.
  revert h. induction pts as [|pt pts IH]; intros h Hd; [by eexists|].
  change (mentioned (pt :: pts))
    with ((var_name pt ++ given pt) ++ mentioned pts).
  rewrite filter_app.
  change (build_factors (pt :: pts) variables h)
    with ((let* new_factor := alloc (ONode CFactor (term pt) [] (Some VNone)) in
           let* _ := connect new_factor variables (var_name pt ++ given pt) in
           let* factors := build_factors pts variables in
           ret (new_factor :: factors)) h).
  rewrite bind_alloc, bind_unfold.
  set (h1 := h ++ [ONode CFactor (term pt) [] (Some VNone)]).
  assert (edges_only h h1) as He1 by apply (edges_only_alloc _ h).
  assert (declared_in n variables h1) as Hd1
    by (by eapply declared_in_edges_only).
  assert (isinstance h1 (VRef (length h)) CFactor = true) as Hf.
  { unfold isinstance, h1. simpl. by rewrite lookup_app_r, Nat.sub_diag. }
  pose proof (connect_outcome n variables (length h)
                (var_name pt ++ given pt) h1 Hd1 Hf) as Hc.
  pose proof (edges_only_connect (VRef (length h)) variables
                (var_name pt ++ given pt) h1) as He2.
  destruct (connect (VRef (length h)) variables (var_name pt ++ given pt) h1)
    as [r h2]. simpl in Hc, He2. subst r.
  destruct (filter (λ x, variables !! x = None) (var_name pt ++ given pt))
    as [|x miss]; [|done].
  simpl. specialize (IH h2 (declared_in_edges_only _ _ _ _ Hd1 He2)).
  rewrite bind_unfold.
  destruct (head (filter (λ x, variables !! x = None) (mentioned pts)))
    as [x|], (build_factors pts variables h2) as [[fs|e] h3]; simpl in *;
    first [done|by eexists|by destruct IH].
Qed.

(** X17.  What [from_string] does is decided by the terms of the model
    string.  An error of the term parser is raised as it is, before any
    object is created.  Else, if some name of the terms is on the left of no
    term, the first such name, in the order of the terms and with the left
    part of a term before its conditioned-on part, raises [KeyError], from
    [variables[var_name]].  Else a graph is returned. *)
Theorem from_string_outcome s h :
  match _parse_model_string_into_terms s with
  | Raise e => from_string s h = (Raise e, h)
  | Ok pts =>
      match head (filter (λ x, x ∉ declared pts) (mentioned pts)) with
      | Some x => (from_string s h).1 = Raise (KeyError x)
      | None => ∃ pgm, (from_string s h).1 = Ok pgm
      end
  end.
Proof.
  rewrite from_string_unfold.
  destruct (_parse_model_string_into_terms s) as [pts|e]; [|done].
  destruct (declare_variables_spec (length h) pts ∅ h)
    as (variables & new & -> & Hd & Hdom & _);
    [apply declared_in_empty|done|].
  assert (filter (λ x, x ∉ declared pts) (mentioned pts)
          = filter (λ x, variables !! x = None) (mentioned pts)) as ->.
  { apply list_filter_iff. intros x. rewrite eq_None_not_Some, Hdom.
    rewrite lookup_empty. split; [intros ? [[? [=]]|?]; done|auto]. }
  pose proof (build_factors_outcome (length h) variables pts (h ++ new) Hd)
    as Hb.
  destruct (head (filter (λ x, variables !! x = None) (mentioned pts)))
    as [x|], (build_factors pts variables (h ++ new)) as [[fs|e] h2];
    simpl in *.
  - done.
  - by injection Hb as ->.
  - by eexists.
  - by destruct Hb.
Qed.

(** *** The graph that is built *)

Lemma connect_structure n variables lf xs h fn fnb fd h' :
  declared_in n variables h →
  h !! lf = Some (ONode CFactor fn fnb fd) →
  connect (VRef lf) variables xs h = (Ok (), h') →
  ∃ vs,
    h' !! lf = Some (ONode CFactor fn (fnb ++ vs) fd) ∧
    Forall2 (λ v x, variables !! x = Some v) vs xs ∧
    ∀ l name nbrs d,
      l ≠ lf → h !! l = Some (ONode CFactor name nbrs d) →
      h' !! l = Some (ONode CFactor name nbrs d).
Proof.
  revert h fnb. induction xs as [|x xs IH]; intros h fnb Hd Hlf.
  { intros [= <-]. exists []. rewrite app_nil_r. by repeat split. }
  destruct (variables !! x) as [v|] eqn:Hx;
    [|by rewrite connect_missing].
  destruct (Hd x v Hx) as (lv & vnb & -> & Hlv & Hv).
  assert (lf ≠ lv) as Hne by (intros ->; congruence).
  rewrite (connect_cons _ _ _ _ _ _ _ _ _ _ _ _ Hx Hlf Hv).
  pose proof (edges_only_link h lf lv fn fnb fd x vnb None [VRef lf] [VRef lv]
                Hlf Hv) as He.
  intros Hc. destruct (IH _ (fnb ++ [VRef lv])
                         (declared_in_edges_only _ _ _ _ Hd He)) with (2 := Hc)
    as (vs & Hlf' & Hvs & Hframe).
  { rewrite list_lookup_insert_ne by done.
    rewrite list_lookup_insert_eq by (by eapply lookup_lt_Some). done. }
  exists (VRef lv :: vs). rewrite <-app_assoc in Hlf'. split; [done|].
  split; [by constructor|]. intros l name nbrs d Hl Hnode.
  apply Hframe; [done|].
  rewrite !list_lookup_insert_ne; [done|done|]. intros ->. congruence.
Qed.

Lemma build_factors_structure n variables pts h factors h' :
  declared_in n variables h →
  build_factors pts variables h = (Ok factors, h') →
  Forall2 (λ f pt,
      ∃ lf vs,
        f = VRef lf ∧ length h ≤ lf ∧
        h' !! lf = Some (ONode CFactor (term pt) vs (Some VNone)) ∧
        Forall2 (λ v x, variables !! x = Some v) vs (var_name pt ++ given pt))
    factors pts ∧
  ∀ l name nbrs d,
    h !! l = Some (ONode CFactor name nbrs d) →
    h' !! l = Some (ONode CFactor name nbrs d).
Proof.
  revert h factors. induction pts as [|pt pts IH]; intros h factors Hd.
  { intros [= <- <-]. split; [constructor|done]. }
  change (build_factors (pt :: pts) variables h)
    with ((let* new_factor := alloc (ONode CFactor (term pt) [] (Some VNone)) in
           let* _ := connect new_factor variables (var_name pt ++ given pt) in
           let* factors := build_factors pts variables in
           ret (new_factor :: factors)) h).
  rewrite bind_alloc, bind_unfold.
  set (h1 := h ++ [ONode CFactor (term pt) [] (Some VNone)]).
  assert (edges_only h h1) as He1 by apply (edges_only_alloc _ h).
  assert (declared_in n variables h1) as Hd1
    by (by eapply declared_in_edges_only).
  assert (h1 !! length h = Some (ONode CFactor (term pt) [] (Some VNone)))
    as Hlf by (unfold h1; by rewrite lookup_app_r, Nat.sub_diag).
  pose proof (edges_only_connect (VRef (length h)) variables
                (var_name pt ++ given pt) h1) as He2.
  destruct (connect (VRef (length h)) variables (var_name pt ++ given pt) h1)
    as [[[]|e] h2] eqn:Hc; [|done]. simpl in He2.
  destruct (connect_structure _ _ _ _ _ _ _ _ _ Hd1 Hlf Hc)
    as (vs & Hlf2 & Hvs & Hframe2).
  rewrite bind_unfold.
  destruct (build_factors pts variables h2) as [[fs|e] h3] eqn:Hb; [|done].
  intros [= <- <-].
  destruct (IH h2 fs (declared_in_edges_only _ _ _ _ Hd1 He2) Hb)
    as [Hfs Hframe3].
  assert (length h ≤ length h2) as Hlen by (destruct He1, He2; lia).
  split.
  - constructor.
    + exists (length h), vs. split; [done|]. split; [done|].
      split; [by apply Hframe3|done].
    + eapply Forall2_impl; [exact Hfs|]. simpl.
      intros f pt' (lf & vs' & -> & ? & ? & ?). exists lf, vs'.
      split; [done|]. split; [lia|done].
  - intros l name nbrs d Hl. apply Hframe3, Hframe2.
    + intros ->. apply lookup_lt_Some in Hl. lia.
    + by apply lookup_app_l_Some.
Qed.

(** What a call of [from_string] that returns has built. *)
Lemma from_string_built s h pgm h' :
  from_string s h = (Ok pgm, h') →
  ∃ pts,
    _parse_model_string_into_terms s = Ok pts ∧
    Forall2 (λ f pt,
        ∃ vs,
          deref f h' = Some (ONode CFactor (term pt) vs (Some VNone)) ∧
          Forall2 (λ v x, _variables pgm !! x = Some v)
            vs (var_name pt ++ given pt))
      (_factors pgm) pts ∧
    declared_in (length h) (_variables pgm) h' ∧
    (∀ x, is_Some (_variables pgm !! x) ↔ x ∈ declared pts).
Proof.
  rewrite from_string_unfold.
  destruct (_parse_model_string_into_terms s) as [pts|e]; [|done].
  destruct (declare_variables_spec (length h) pts ∅ h)
    as (variables & new & -> & Hd & Hdom & _);
    [apply declared_in_empty|done|].
  pose proof (edges_only_build_factors pts variables (h ++ new)) as He.
  destruct (build_factors pts variables (h ++ new)) as [[fs|e] h2] eqn:Hb;
    [|done].
  intros [= <- <-]. exists pts. split; [done|]. simpl in *.
  destruct (build_factors_structure _ _ _ _ _ _ Hd Hb) as [Hfs _].
  split; [|split].
  - eapply Forall2_impl; [exact Hfs|]. simpl.
    intros f pt (lf & vs & -> & _ & ? & ?). by exists vs.
  - by eapply declared_in_edges_only.
  - intros x. rewrite Hdom, lookup_empty.
    split; [intros [[? [=]]|?]; done|auto].
Qed.

(** X18.  The factors of a graph that [from_string] returns are, in the
    order of the terms, one [Factor] per term, named by the text of the term
    and without a tensor ([data] is [None]).  The neighbours of the factor
    are the variables of the term, those on the left first and then those
    conditioned on, in the order and as often as the term names them; each
    of them is the object that [_variables] has for the name, and is called
    by that name. *)
Theorem from_string_factors s h pgm h' :
  from_string s h = (Ok pgm, h') →
  ∃ pts,
    _parse_model_string_into_terms s = Ok pts ∧
    Forall2 (λ f pt,
        ∃ vs,
          deref f h' = Some (ONode CFactor (term pt) vs (Some VNone)) ∧
          Forall2 (λ v x, _variables pgm !! x = Some v)
            vs (var_name pt ++ given pt) ∧
          names_of vs h' = Ok (var_name pt ++ given pt))
      (_factors pgm) pts.
Proof.
  intros (pts & Hp & Hfs & Hd & _)%from_string_built.
  exists pts. split; [done|].
  eapply Forall2_impl; [exact Hfs|]. simpl. intros f pt (vs & Hf & Hvs).
  exists vs. split; [done|]. split; [done|].
  clear Hf. induction Hvs as [|v x vs xs Hx Hvs IH]; [done|]. simpl.
  destruct (Hd x v Hx) as (l & nbrs & -> & _ & Hl).
  unfold name_of at 1. simpl. by rewrite Hl, IH.
Qed.

Lemma from_string_factors_witness :
  ∃ pts,
    _parse_model_string_into_terms chain_model = Ok pts ∧
    Forall2 (λ f pt,
        ∃ vs,
          deref f (from_string chain_model []).2
          = Some (ONode CFactor (term pt) vs (Some VNone)) ∧
          Forall2 (λ v x, _variables chain_pgm !! x = Some v)
            vs (var_name pt ++ given pt) ∧
          names_of vs (from_string chain_model []).2
          = Ok (var_name pt ++ given pt))
      (_factors chain_pgm) pts.
Proof.
  apply (from_string_factors chain_model [] chain_pgm).
  vm_compute. reflexivity.
Defined.

(** X19.  On a graph that [from_string] has returned,
    [variable_from_name(x)] returns a [Variable] called [x] (an object
    without an attribute [data]) when [x] is on the left of a term of the
    model string, and raises [KeyError] for every other name, a name that
    the terms only condition on included. *)
Theorem variable_from_name_after_from_string s h pgm h' :
  from_string s h = (Ok pgm, h') →
  ∃ pts,
    _parse_model_string_into_terms s = Ok pts ∧
    ∀ x,
      (x ∈ declared pts →
       ∃ v neighbors,
         variable_from_name pgm x h' = (Ok v, h') ∧
         deref v h' = Some (ONode CVariable x neighbors None)) ∧
      (x ∉ declared pts →
       variable_from_name pgm x h' = (Raise (KeyError x), h')).
Proof.
  intros (pts & Hp & _ & Hd & Hdom)%from_string_built.
  exists pts. split; [done|]. intros x. specialize (Hdom x).
  unfold variable_from_name, dict_get.
  destruct (_variables pgm !! x) as [v|] eqn:Hx.
  - split; [|intros Hn; destruct Hn; apply Hdom; eauto].
    intros _. destruct (Hd x v Hx) as (l & nbrs & -> & _ & Hl).
    by exists (VRef l), nbrs.
  - split; [|done]. intros [? [=]]%Hdom.
Qed.

Lemma variable_from_name_after_from_string_witness :
  ∃ pts,
    _parse_model_string_into_terms chain_model = Ok pts ∧
    ∀ x,
      (x ∈ declared pts →
       ∃ v neighbors,
         variable_from_name chain_pgm x (from_string chain_model []).2
         = (Ok v, (from_string chain_model []).2) ∧
         deref v (from_string chain_model []).2
         = Some (ONode CVariable x neighbors None)) ∧
      (x ∉ declared pts →
       variable_from_name chain_pgm x (from_string chain_model []).2
       = (Raise (KeyError x), (from_string chain_model []).2)).
Proof.
  apply (variable_from_name_after_from_string chain_model [] chain_pgm).
  vm_compute. reflexivity.
Defined.

(** *** The neighbours of a variable *)

Lemma connect_variable_neighbors n variables lf xs h fn fnb fd h' :
  declared_in n variables h →
  h !! lf = Some (ONode CFactor fn fnb fd) →
  connect (VRef lf) variables xs h = (Ok (), h') →
  ∀ x lv,
    variables !! x = Some (VRef lv) →
    neighbors_at h' lv
    = neighbors_at h lv ++ replicate (mentions x xs) (VRef lf).
Proof.
  revert h fnb. induction xs as [|x0 xs IH]; intros h fnb Hd Hlf.
  { intros [= <-] x lv _. by rewrite app_nil_r. }
  destruct (variables !! x0) as [v0|] eqn:Hx0;
    [|by rewrite connect_missing].
  destruct (Hd x0 v0 Hx0) as (lv0 & vnb & -> & Hlv0 & Hv0).
  assert (lf ≠ lv0) as Hne by (intros ->; congruence).
  rewrite (connect_cons _ _ _ _ _ _ _ _ _ _ _ _ Hx0 Hlf Hv0).
  pose proof (edges_only_link h lf lv0 fn fnb fd x0 vnb None [VRef lf]
                [VRef lv0] Hlf Hv0) as He.
  intros Hc x lv Hx.
  rewrite (IH _ (fnb ++ [VRef lv0]) (declared_in_edges_only _ _ _ _ Hd He))
    with (2 := Hc) (3 := Hx).
  2:{ rewrite list_lookup_insert_ne by done.
      by rewrite list_lookup_insert_eq by (by eapply lookup_lt_Some). }
  destruct (Hd x _ Hx) as (lv' & nbrs & [= <-] & _ & Hv).
  assert (lf ≠ lv) as Hne' by (intros ->; congruence).
  rewrite neighbors_at_insert
    by (rewrite length_insert; by eapply lookup_lt_Some).
  unfold mentions. destruct (decide (lv = lv0)) as [->|Hlv].
  - assert (x = x0) as -> by congruence.
    rewrite filter_cons_True by done. simpl.
    unfold neighbors_at. rewrite Hv0. by rewrite <-app_assoc.
  - assert (x0 ≠ x) as Hx' by (intros ->; congruence).
    rewrite filter_cons_False by done.
    rewrite neighbors_at_insert by (by eapply lookup_lt_Some).
    by rewrite decide_False by done.
Qed.

Lemma build_factors_variable_neighbors n variables pts h factors h' :
  declared_in n variables h →
  build_factors pts variables h = (Ok factors, h') →
  ∀ x lv,
    variables !! x = Some (VRef lv) →
    neighbors_at h' lv = neighbors_at h lv ++ factors_naming x factors pts.
Proof.
  revert h factors. induction pts as [|pt pts IH]; intros h factors Hd.
  { intros [= <- <-] x lv _. by rewrite app_nil_r. }
  change (build_factors (pt :: pts) variables h)
    with ((let* new_factor := alloc (ONode CFactor (term pt) [] (Some VNone)) in
           let* _ := connect new_factor variables (var_name pt ++ given pt) in
           let* factors := build_factors pts variables in
           ret (new_factor :: factors)) h).
  rewrite bind_alloc, bind_unfold.
  set (h1 := h ++ [ONode CFactor (term pt) [] (Some VNone)]).
  assert (edges_only h h1) as He1 by apply (edges_only_alloc _ h).
  assert (declared_in n variables h1) as Hd1
    by (by eapply declared_in_edges_only).
  assert (h1 !! length h = Some (ONode CFactor (term pt) [] (Some VNone)))
    as Hlf by (unfold h1; by rewrite lookup_app_r, Nat.sub_diag).
  pose proof (edges_only_connect (VRef (length h)) variables
                (var_name pt ++ given pt) h1) as He2.
  destruct (connect (VRef (length h)) variables (var_name pt ++ given pt) h1)
    as [[[]|e] h2] eqn:Hc; [|done]. simpl in He2.
  rewrite bind_unfold.
  destruct (build_factors pts variables h2) as [[fs|e] h3] eqn:Hb; [|done].
  intros [= <- <-] x lv Hx.
  rewrite (IH h2 fs (declared_in_edges_only _ _ _ _ Hd1 He2) Hb x lv Hx).
  rewrite (connect_variable_neighbors _ _ _ _ _ _ _ _ _ Hd1 Hlf Hc x lv Hx).
  unfold h1. rewrite neighbors_at_alloc. by rewrite <-app_assoc.
Qed.

(** X20.  The neighbours of a variable of a graph that [from_string]
    returns are the factors of the terms that name the variable, in the
    order of the terms, each factor as often as its term names the variable
    (on the left or among the variables it is conditioned on). *)
Theorem from_string_variable_neighbors s h pgm h' :
  from_string s h = (Ok pgm, h') →
  ∃ pts,
    _parse_model_string_into_terms s = Ok pts ∧
    ∀ x v,
      _variables pgm !! x = Some v →
      neighbors_of v h' = Ok (factors_naming x (_factors pgm) pts).
Proof.
  rewrite from_string_unfold.
  destruct (_parse_model_string_into_terms s) as [pts|e]; [|done].
  destruct (declare_variables_spec (length h) pts ∅ h)
    as (variables & new & -> & Hd & _ & Hnew);
    [apply declared_in_empty|done|].
  pose proof (edges_only_build_factors pts variables (h ++ new)) as He.
  destruct (build_factors pts variables (h ++ new)) as [[fs|e] h2] eqn:Hb;
    [|done].
  intros [= <- <-]. exists pts. split; [done|]. simpl in *.
  intros x v Hx. destruct (Hd x v Hx) as (lv & nbrs & -> & Hlv & Hl).
  pose proof (build_factors_variable_neighbors _ _ _ _ _ _ Hd Hb x lv Hx)
    as Hn.
  assert (nbrs = []) as ->.
  { rewrite lookup_app_r in Hl by done.
    apply list_elem_of_lookup_2 in Hl.
    rewrite Forall_forall in Hnew. destruct (Hnew _ Hl) as [y Hy].
    by injection Hy as _ ->. }
  unfold neighbors_at in Hn at 2. rewrite Hl in Hn. simpl in Hn.
  destruct (declared_in_edges_only _ _ _ _ Hd He x _ Hx)
    as (lv' & nbrs' & [= <-] & _ & Hl2).
  unfold neighbors_at in Hn. rewrite Hl2 in Hn. subst nbrs'.
  unfold neighbors_of, deref. by rewrite Hl2.
Qed.

Lemma from_string_variable_neighbors_witness :
  ∃ pts,
    _parse_model_string_into_terms chain_model = Ok pts ∧
    ∀ x v,
      _variables chain_pgm !! x = Some v →
      neighbors_of v (from_string chain_model []).2
      = Ok (factors_naming x (_factors chain_pgm) pts).
Proof.
  apply (from_string_variable_neighbors chain_model [] chain_pgm).
  vm_compute. reflexivity.
Defined.

(** ** More on [set_distributions] *)

(** *** A call that returns *)

Lemma set_distributions_loop_ok data factors var_dims h h' :
  set_distributions_loop data factors var_dims h = (Ok (), h') →
  data_only h h' ∧
  (∀ f, f ∈ factors →
        ∃ name d, name_of f h = Ok name ∧ data !! name = Some d ∧
                  data_of f h' = Ok d) ∧
  (∀ l, VRef l ∉ factors → h' !! l = h !! l).
Proof.
  revert var_dims h. induction factors as [|f fs IH]; intros vd h.
  { intros [= <-]. split; [apply data_only_refl|].
    split; [by intros ? ?%elem_of_nil|done]. }
  rewrite set_distributions_loop_cons.
  destruct (set_distribution data f vd h) as [r h1] eqn:Hf.
  destruct (set_distribution_inv _ _ _ _ _ _ Hf)
    as [(e0 & -> & ->)|(vd' & l & c & name & nbrs & d0 & d & labels & probs
                          & a & -> & -> & Hl & Hd & _ & _ & _ & _ & ->)];
    [done|].
  intros Hloop. destruct (IH _ _ Hloop) as (Honly & Hdone & Hframe).
  pose proof (data_only_set_data _ _ _ _ _ (Some d) _ Hl) as Hstep.
  split; [by eapply data_only_trans|]. split.
  - intros f [->|Hf']%elem_of_cons.
    + exists name, d. split; [unfold name_of; simpl; by rewrite Hl|].
      split; [done|].
      destruct (decide (VRef l ∈ fs)) as [Hin|Hnin].
      * destruct (Hdone _ Hin) as (name' & d' & Hn' & Hd' & ->).
        rewrite (data_only_name_of _ _ _ Hstep) in Hn'.
        unfold name_of in Hn'. simpl in Hn'. rewrite Hl in Hn'.
        injection Hn' as <-. congruence.
      * unfold data_of, deref. rewrite (Hframe _ Hnin).
        by rewrite list_lookup_insert_eq by (by eapply lookup_lt_Some).
    + destruct (Hdone _ Hf') as (name' & d' & Hn' & Hd' & Hdata).
      exists name', d'. by rewrite <-(data_only_name_of _ _ _ Hstep).
  - intros l0 Hl0. rewrite Hframe.
    + apply list_lookup_insert_ne. intros ->. apply Hl0, elem_of_cons.
      by left.
    + intros Hin. apply Hl0, elem_of_cons. by right.
Qed.

Lemma set_distribution_axes_match data f var_dims h0 h :
  data_only h0 h → axes_match h0 data f →
  ∃ name labels s d,
    tensor_of h0 data f name labels s ∧ data !! name = Some d ∧
    set_distribution data f var_dims h =
    match check_dims name (zip labels s) var_dims with
    | Raise e => (Raise e, h)
    | Ok var_dims' =>
        match set_data f d h with
        | (Ok _, h') => (Ok var_dims', h')
        | (Raise e, h') => (Raise e, h')
        end
    end.
Proof.
  intros Honly (name & labels & s & nbrs & names & Ht & Hnb & Hnames & Hset).
  pose proof Ht as (d & probs & a & Hn & Hd & Hl & Hp & Ha & Hs).
  exists name, labels, s, d. split; [done|]. split; [done|].
  rewrite set_distribution_unfold.
  rewrite (data_only_name_of _ _ _ Honly), Hn, Hd.
  rewrite (data_only_axes_labels_of _ _ _ Honly), Hl.
  rewrite (data_only_neighbors_of _ _ _ Honly), Hnb.
  rewrite (data_only_names_of _ _ _ Honly), Hnames.
  rewrite bool_decide_eq_false_2 by (by intros ?).
  rewrite (data_only_probs_of _ _ _ Honly), Hp.
  by rewrite (data_only_array_of _ _ _ Honly), Ha, Hs.
Qed.

Lemma set_distributions_loop_consistent data (F : list val) h0 factors :
  Forall (axes_match h0 data) factors →
  (∀ f, f ∈ factors → f ∈ F) →
  consistent_dims h0 data F →
  ∀ var_dims h,
    data_only h0 h →
    (∀ y expected,
        var_dims !! y = Some expected →
        ∃ f' name', f' ∈ F ∧ gives h0 data f' name' y expected) →
    ∃ h', set_distributions_loop data factors var_dims h = (Ok (), h').
Proof.
  intros Hall. induction Hall as [|f fs Hf Hfs IH]; intros HF Hcons vd h Honly Hvd.
  { by exists h. }
  assert (HfF : f ∈ F) by (apply HF, elem_of_cons; by left).
  rewrite set_distributions_loop_cons.
  destruct (set_distribution_axes_match data f vd h0 h Honly Hf)
    as (name & labels & s & d & Ht & Hd & ->).
  assert (Hgives : ∀ y dim, (y, dim) ∈ zip labels s →
                            gives h0 data f name y dim).
  { intros y dim Hy. by exists labels, s. }
  destruct (check_dims name (zip labels s) vd) as [vd1|e] eqn:Hc.
  - destruct (check_dims_ok _ _ _ _ Hc) as (Hsub & Hin & Hout).
    destruct Ht as (d' & probs & a & Hn & Hd' & _).
    destruct (name_of_node f h name) as (l & c & nbrs' & d0 & -> & Hlh).
    { by rewrite (data_only_name_of _ _ _ Honly). }
    rewrite (set_data_node _ _ _ _ _ d _ Hlh).
    apply IH; [|done| |].
    + intros f' Hf'. apply HF, elem_of_cons. by right.
    + eapply data_only_trans; [exact Honly|]. by eapply data_only_set_data.
    + intros y ex Hy. destruct (Hout _ _ Hy) as [Hy'|Hy']; [by apply Hvd|].
      exists (VRef l), name. split; [done|]. by apply Hgives.
  - destruct (check_dims_raise _ _ _ _ Hc)
      as (y & dim & ex & -> & Hy & Hne & Hex).
    exfalso. apply Hne. destruct Hex as [Hex|Hex].
    + destruct (Hvd _ _ Hex) as (f' & n' & Hf' & Hg').
      by eapply (Hcons f f'); [..|apply Hgives|].
    + by eapply (Hcons f f); [..|apply Hgives|apply Hgives].
Qed.

(** X21.  [set_distributions] accepts a mapping in which every factor has a
    tensor whose set of labels is the set of the names of its neighbours, if
    the tensors agree on the dimension length of every variable: the call
    returns, every factor then holds the tensor that the mapping has for its
    name, and no object other than the factors has changed.  The dimension
    lengths are those of the pairs of [zip(axes_labels, shape)]: the number
    of labels is not compared with the rank, and the tensor of the notebook
    for [p(h1)], of shape (2, 1) under one label, is accepted. *)
Theorem set_distributions_accepts self data h :
  Forall (axes_match h data) (_factors self) →
  consistent_dims h data (_factors self) →
  ∃ h',
    set_distributions self data h = (Ok (), h') ∧
    (∀ f, f ∈ _factors self → attached h' data f) ∧
    data_only h h' ∧
    (∀ l, VRef l ∉ _factors self → h' !! l = h !! l).
Proof.
  intros Hall Hcons.
  destruct (set_distributions_loop_consistent data (_factors self) h
              (_factors self) Hall (λ f Hf, Hf) Hcons ∅ h (data_only_refl h))
    as [h' Hloop].
  { intros y ex Hy. by rewrite lookup_empty in Hy. }
  exists h'. split; [done|].
  destruct (set_distributions_loop_ok _ _ _ _ _ Hloop)
    as (Honly & Hdone & Hframe).
  split; [|done]. intros f Hf. destruct (Hdone f Hf) as (name & d & Hn & Hd & ?).
  exists name, d. by rewrite (data_only_name_of _ _ _ Honly).
Qed.

Lemma set_distributions_accepts_witness :
  ∃ h',
    set_distributions single_factor_pgm single_factor_data column_heap
    = (Ok (), h') ∧
    attached h' single_factor_data (VRef 3).
Proof.
  destruct (set_distributions_accepts single_factor_pgm single_factor_data
              column_heap) as (h' & Hset & Hatt & _).
  - apply Forall_cons_2; [|apply Forall_nil_2].
    exists "p(h1)", ["h1"], [2; 1], [VRef 2], ["h1"].
    split; [by eexists (VRef 1), (VRef 0), _|]. by repeat split.
  - assert (∀ f n x d,
              gives column_heap single_factor_data f n x d → d = 2) as Hdims.
    { intros f n x d
        (labels & s & (dd & probs & a & Hn & Hd & Hl & Hp & Ha & Hs) & Hin).
      destruct f as [| |[|[|[|[|l]]]]]; try discriminate Hn.
      injection Hn as <-. vm_compute in Hd. discriminate Hd.
      injection Hn as <-. vm_compute in Hd. injection Hd as <-.
      injection Hl as <-.
      injection Hp as <-. injection Ha as <-. simpl in Hs. subst s.
      apply list_elem_of_singleton in Hin. by injection Hin as _ <-. }
    intros fi fj ni nj x di dj _ _ Hgi Hgj.
    by rewrite (Hdims _ _ _ _ Hgi), (Hdims _ _ _ _ Hgj).
  - exists h'. split; [exact Hset|]. apply Hatt.
    apply list_elem_of_singleton. reflexivity.
Defined.

(** X22.  Conversely, when [set_distributions] returns, the mapping has for
    every factor a tensor whose set of labels is the set of the names of its
    neighbours, and the tensors of the factors agree on the dimension length
    of every variable. *)
Theorem set_distributions_validates self data h h' :
  set_distributions self data h = (Ok (), h') →
  Forall (axes_match h data) (_factors self) ∧
  consistent_dims h data (_factors self).
Proof.
  intros Hset.
  destruct (set_distributions_loop_valid data h (_factors self) ∅ h h'
              (data_only_refl h) Hset) as (Hall & vd' & _ & Hcover).
  split; [done|]. intros fi fj ni nj x di dj Hfi Hfj Hgi Hgj.
  pose proof (Hcover _ _ _ _ Hfi Hgi) as H1.
  pose proof (Hcover _ _ _ _ Hfj Hgj) as H2. congruence.
Qed.

Lemma set_distributions_validates_witness :
  Forall (axes_match (built chain_tensors).2 (built chain_tensors).1.2)
    (_factors (built chain_tensors).1.1) ∧
  consistent_dims (built chain_tensors).2 (built chain_tensors).1.2
    (_factors (built chain_tensors).1.1).
Proof.
  eapply (set_distributions_validates (built chain_tensors).1.1
            (built chain_tensors).1.2 (built chain_tensors).2).
  vm_compute. reflexivity.
Defined.

(** *** A tensor over other axes than the neighbours of its factor *)

Lemma set_distributions_loop_axes data done f rest name d labels nbrs names :
  ∀ var_dims h,
    name_of f h = Ok name → data !! name = Some d →
    axes_labels_of d h = Ok labels →
    neighbors_of f h = Ok nbrs → names_of nbrs h = Ok names →
    (list_to_set labels : gset string) ≠ list_to_set names →
    ∀ h1,
      set_distributions_loop data done var_dims h = (Ok (), h1) →
      set_distributions_loop data (done ++ f :: rest) var_dims h
      = (Raise (ValueError_missing_axes name
                  (list_to_set names ∖ list_to_set labels)), h1).
Proof.
  induction done as [|g done IH]; intros vd h Hn Hd Hl Hnb Hnames Hset h1;
    simpl app.
  - intros [= <-].
    rewrite set_distributions_loop_cons, set_distribution_unfold.
    rewrite Hn, Hd, Hl, Hnb, Hnames. by rewrite bool_decide_eq_true_2.
  - rewrite !set_distributions_loop_cons.
    destruct (set_distribution data g vd h) as [r h'] eqn:Hg.
    destruct (set_distribution_inv _ _ _ _ _ _ Hg)
      as [(e0 & -> & ->)|(vd' & l & c & name' & nbrs' & d0 & d' & labels'
                            & probs & a & -> & -> & Hlh & _ & _ & _ & _ & _
                            & ->)]; [done|].
    pose proof (data_only_set_data _ _ _ _ _ (Some d') _ Hlh) as Hstep.
    apply IH; try done.
    + by rewrite (data_only_name_of _ _ _ Hstep).
    + by rewrite (data_only_axes_labels_of _ _ _ Hstep).
    + by rewrite (data_only_neighbors_of _ _ _ Hstep).
    + by rewrite (data_only_names_of _ _ _ Hstep).
Qed.

(** X23.  When the factors before it pass their checks, a factor whose
    tensor has another set of labels than the names of its neighbours makes
    [set_distributions] raise the [ValueError] that says which axes are
    missing.  It is formatted from the name of the factor and the names of
    its neighbours that are no label of the tensor: when the tensor has a
    label for every neighbour and more labels besides, the error names an
    empty set. *)
Theorem set_distributions_axes_mismatch
    self data h done f rest name d labels neighbors names :
  _factors self = done ++ f :: rest →
  name_of f h = Ok name → data !! name = Some d →
  axes_labels_of d h = Ok labels →
  neighbors_of f h = Ok neighbors → names_of neighbors h = Ok names →
  (list_to_set labels : gset string) ≠ list_to_set names →
  (∀ h1,
      set_distributions (mkPGM done (_variables self)) data h = (Ok (), h1) →
      set_distributions self data h
      = (Raise (ValueError_missing_axes name
                  (list_to_set names ∖ list_to_set labels)), h1)) ∧
  ((list_to_set names : gset string) ⊆ list_to_set labels →
   (list_to_set names ∖ list_to_set labels : gset string) = ∅).
Proof.
  intros Hf Hn Hd Hl Hnb Hnames Hset. split.
  - intros h1. unfold set_distributions. rewrite Hf. simpl.
    by apply set_distributions_loop_axes with d neighbors.
  - intros Hsub. apply set_eq. intros x.
    rewrite elem_of_difference, elem_of_empty. split; [|done].
    intros [Hx Hnx]. apply Hnx, Hsub, Hx.
Qed.

Lemma set_distributions_axes_mismatch_witness :
  set_distributions single_factor_pgm single_factor_data surplus_axis_heap
  = (Raise (ValueError_missing_axes "p(h1)"
              (list_to_set ["h1"] ∖ list_to_set ["h1"; "h2"])),
     surplus_axis_heap) ∧
  (list_to_set ["h1"] ∖ list_to_set ["h1"; "h2"] : gset string) = ∅.
Proof.
  destruct (set_distributions_axes_mismatch single_factor_pgm single_factor_data
              surplus_axis_heap [] (VRef 3) [] "p(h1)" (VRef 1)
              ["h1"; "h2"] [VRef 2] ["h1"]) as [Hraise Hempty];
    try reflexivity.
  - intros H. assert ("h2" ∈ (list_to_set ["h1"] : gset string)) as Hin.
    { rewrite <-H, elem_of_list_to_set. apply elem_of_cons. right.
      apply elem_of_cons. by left. }
    apply elem_of_list_to_set, list_elem_of_singleton in Hin. discriminate Hin.
  - split; [by apply Hraise|]. apply Hempty. intros x.
    rewrite !elem_of_list_to_set. intros ->%list_elem_of_singleton.
    apply elem_of_cons. by left.
Defined.

(** *** Entries of the mapping under other names *)

Lemma set_distribution_same_entry data data' f var_dims h :
  (∀ name, name_of f h = Ok name → data !! name = data' !! name) →
  set_distribution data f var_dims h = set_distribution data' f var_dims h.
Proof.
  intros H. rewrite !set_distribution_unfold.
  destruct (name_of f h) as [name|]; [|done]. by rewrite (H name).
Qed.

Lemma set_distributions_loop_same_entries data data' h0 factors :
  (∀ f name, f ∈ factors → name_of f h0 = Ok name →
             data !! name = data' !! name) →
  ∀ var_dims h,
    data_only h0 h →
    set_distributions_loop data factors var_dims h
    = set_distributions_loop data' factors var_dims h.
Proof.
  induction factors as [|f fs IH]; intros Hsame vd h Honly; [done|].
  rewrite !set_distributions_loop_cons.
  rewrite <-(set_distribution_same_entry data data').
  2:{ intros name Hn. apply (Hsame f); [apply elem_of_cons; by left|].
      by rewrite <-(data_only_name_of _ _ _ Honly). }
  destruct (set_distribution data f vd h) as [r h1] eqn:Hf.
  destruct (set_distribution_inv _ _ _ _ _ _ Hf)
    as [(e0 & -> & ->)|(vd' & l & c & name & nbrs & d0 & d & labels & probs
                          & a & -> & -> & Hl & _ & _ & _ & _ & _ & ->)];
    [done|].
  apply IH.
  - intros f' name' Hf'. apply Hsame, elem_of_cons. by right.
  - eapply data_only_trans; [exact Honly|]. by eapply data_only_set_data.
Qed.

(** X24.  [set_distributions] reads the mapping at the names of the factors
    only: with two mappings that agree there, it returns or raises the same
    and leaves the same heap.  Entries under other names are ignored. *)
Theorem set_distributions_reads_factor_entries self data data' h :
  (∀ f name, f ∈ _factors self → name_of f h = Ok name →
             data !! name = data' !! name) →
  set_distributions self data h = set_distributions self data' h.
Proof.
  intros Hsame. unfold set_distributions.
  by apply (set_distributions_loop_same_entries data data' h);
    [|apply data_only_refl].
Qed.

Lemma set_distributions_reads_factor_entries_witness :
  set_distributions single_factor_pgm single_factor_data surplus_axis_heap
  = set_distributions single_factor_pgm
      (<[ "p(h2)" := VRef 0 ]> single_factor_data) surplus_axis_heap.
Proof.
  apply (set_distributions_reads_factor_entries single_factor_pgm).
  intros f name Hf Hn. apply list_elem_of_singleton in Hf. subst f.
  injection Hn as <-. reflexivity.
Defined.

(** *** The same call, once more *)

Lemma set_distributions_loop_again data factors :
  ∀ var_dims h1 h1' h2,
    set_distributions_loop data factors var_dims h1 = (Ok (), h1') →
    data_only h1 h2 →
    (∀ f, f ∈ factors → attached h2 data f) →
    set_distributions_loop data factors var_dims h2 = (Ok (), h2).
Proof.
  induction factors as [|f fs IH]; intros vd h1 h1' h2 Hloop Honly Hatt;
    [done|].
  rewrite set_distributions_loop_cons in Hloop |- *.
  destruct (Hatt f) as (name & d & Hn2 & Hd & Hdata);
    [apply elem_of_cons; by left|].
  destruct (name_of_node _ _ _ Hn2) as (l & c & nbrs & d0 & -> & Hl2).
  assert (d0 = Some d) as ->.
  { unfold data_of, deref in Hdata. rewrite Hl2 in Hdata.
    destruct d0; [|done]. by injection Hdata as ->. }
  rewrite set_distribution_unfold in Hloop |- *.
  rewrite (data_only_name_of _ _ _ Honly),
    (data_only_neighbors_of _ _ _ Honly).
  rewrite (data_only_name_of _ _ _ Honly) in Hn2. rewrite Hn2 in Hloop |- *.
  rewrite Hd in Hloop |- *.
  rewrite (data_only_axes_labels_of _ _ _ Honly).
  destruct (axes_labels_of d h1) as [labels|]; [|done].
  destruct (neighbors_of (VRef l) h1) as [nbrs1|]; [|done].
  rewrite (data_only_names_of _ _ _ Honly).
  destruct (names_of nbrs1 h1) as [names|]; [|done].
  case_bool_decide; [done|].
  rewrite (data_only_probs_of _ _ _ Honly).
  destruct (probs_of d h1) as [probs|]; [|done].
  rewrite (data_only_array_of _ _ _ Honly).
  destruct (array_of probs h1) as [a|]; [|done].
  destruct (check_dims name (zip labels (shape a)) vd) as [vd1|]; [|done].
  destruct (name_of_node _ _ _ Hn2) as (l' & c1 & nbrs1' & d1 & [= <-] & Hl1).
  rewrite (set_data_node _ _ _ _ _ d _ Hl1) in Hloop.
  rewrite (set_data_node _ _ _ _ _ d _ Hl2).
  rewrite (list_insert_id _ _ _ Hl2).
  apply (IH _ _ _ _ Hloop).
  - eapply data_only_trans; [|exact Honly].
    (* the heap of the first run after this factor *)
    intros l0. destruct (decide (l = l0)) as [<-|Hne].
    + rewrite list_lookup_insert_eq by (by eapply lookup_lt_Some).
      by eexists.
    + rewrite list_lookup_insert_ne by done.
      destruct (h1 !! l0) as [[]|]; eauto.
  - intros f' Hf'. apply Hatt, elem_of_cons. by right.
Qed.

(** X25.  A call of [set_distributions] that has returned can be repeated:
    on the heap that it left, the same call returns again and changes
    nothing. *)
Theorem set_distributions_twice self data h h' :
  set_distributions self data h = (Ok (), h') →
  set_distributions self data h' = (Ok (), h').
Proof.
  intros Hset.
  destruct (set_distributions_loop_ok _ _ _ _ _ Hset)
    as (Honly & Hdone & _).
  apply (set_distributions_loop_again _ _ _ _ _ _ Hset Honly).
  intros f Hf. destruct (Hdone f Hf) as (name & d & Hn & Hd & ?).
  exists name, d. by rewrite (data_only_name_of _ _ _ Honly).
Qed.

Lemma set_distributions_twice_witness :
  set_distributions (built chain_tensors).1.1 (built chain_tensors).1.2
    (set_distributions (built chain_tensors).1.1 (built chain_tensors).1.2
       (built chain_tensors).2).2
  = (Ok (),
     (set_distributions (built chain_tensors).1.1 (built chain_tensors).1.2
        (built chain_tensors).2).2).
Proof.
  apply (set_distributions_twice _ _ (built chain_tensors).2).
  vm_compute. reflexivity.
Defined.

(** *** The two versions of the loop over the dimensions *)

(** X26.  The two versions of the loop over
    [zip(axes_labels, probs.shape)] behave the same.  The notebook
    [04_exact_inference.ipynb] has two [if]s in a row, the second of which
    reads [var_dims[var_name]] back; [part_000] has [if] and [elif].  They
    return the same dimensions or raise the same error, and the lookup of
    the notebook never raises [KeyError]. *)
Theorem check_dims_versions_agree factor_name pairs var_dims :
  check_dims_ipynb factor_name pairs var_dims
  = check_dims factor_name pairs var_dims ∧
  ∀ x, check_dims_ipynb factor_name pairs var_dims ≠ Raise (KeyError x).
Proof.
  rewrite check_dims_variants_agree. split; [done|]. intros x H.
  by destruct (check_dims_raise _ _ _ _ H) as (? & ? & ? & ? & _).
Qed.

(** ** More on the message engine *)

Lemma scan_neighbors_names neighbors variable names vn h :
  names_of neighbors h = Ok names → name_of variable h = Ok vn →
  scan_neighbors neighbors variable h = (Ok (), h).
Proof.
  intros Hnames Hvn. revert names Hnames.
  induction neighbors as [|n ns IH]; intros names; [done|]. simpl.
  unfold get_name. rewrite bind_read.
  destruct (name_of n h) as [x|]; [|done].
  destruct (names_of ns h) as [xs|] eqn:Hxs; [|done]. intros _.
  rewrite bind_read, Hvn. case_bool_decide; by eapply IH.
Qed.

(** X27.  Asked for the message of a factor to which no tensor was assigned
    ([data] is still [None]), when the cache has no message for the edge,
    [factor_to_variable_message] raises [AttributeError], from
    [factor.data.probs], and leaves the cache and every other object as
    they were. *)
Theorem factor_to_variable_message_without_tensor
    self factor variable h fn vn messages :
  name_of factor h = Ok fn → name_of variable h = Ok vn →
  messages_of self h = Ok messages → messages !! (fn, vn) = None →
  data_of factor h = Ok VNone →
  factor_to_variable_message self factor variable h = (Raise AttributeError, h).
Proof.
  intros Hfn Hvn Hm Hk Hd.
  rewrite factor_to_variable_message_unfold, Hfn, Hvn, Hm, Hk.
  unfold _factor_to_variable_messages, get_data, get_probs.
  by rewrite bind_read, Hd, bind_read.
Qed.

Lemma factor_to_variable_message_without_tensor_witness :
  factor_to_variable_message (VRef 2) (VRef 1) (VRef 0) untensored_heap
  = (Raise AttributeError, untensored_heap).
Proof.
  apply (factor_to_variable_message_without_tensor
           (VRef 2) (VRef 1) (VRef 0) untensored_heap "p(h1)" "h1" ∅);
    reflexivity.
Defined.

Lemma name_of_app v x h new :
  name_of v h = Ok x → name_of v (h ++ new) = Ok x.
Proof.
  unfold name_of, deref. destruct v as [| |lv]; try done.
  destruct (h !! lv) as [o|] eqn:Hlv; [|done].
  by rewrite (lookup_app_l_Some _ _ _ _ Hlv).
Qed.

Lemma names_of_app vs xs h new :
  names_of vs h = Ok xs → names_of vs (h ++ new) = Ok xs.
Proof.
  revert xs. induction vs as [|v vs IH]; intros xs; [done|]. simpl.
  destruct (name_of v h) as [x|] eqn:Hx; [|done].
  rewrite (name_of_app _ _ _ new Hx).
  destruct (names_of vs h) as [xs'|]; [|done]. by rewrite (IH xs').
Qed.

(** X28.  When the cache has no message for the edge and the factor has a
    tensor, [factor_to_variable_message] returns [None] and stores [None]
    in the cache under the pair of the name of the factor and the name of
    the variable.  The [Distribution] that the computation creates on the
    way refers to the array of the tensor of the factor: no array is
    copied. *)
Theorem factor_to_variable_message_miss
    l factor variable h fn vn messages computed d probs labels
    neighbors names :
  name_of factor h = Ok fn → name_of variable h = Ok vn →
  h !! l = Some (OMessages messages computed) →
  messages !! (fn, vn) = None →
  data_of factor h = Ok d →
  deref d h = Some (ODistribution probs labels) →
  neighbors_of factor h = Ok neighbors → names_of neighbors h = Ok names →
  factor_to_variable_message (VRef l) factor variable h
  = (Ok VNone,
     <[l := OMessages (<[(fn, vn) := VNone]> messages) ((fn, vn) :: computed)]>
       (h ++ [ODistribution probs labels])).
Proof.
  intros Hfn Hvn Hl Hk Hd Hdist Hnb Hnames.
  assert (_factor_to_variable_messages (VRef l) factor variable h
          = (Ok VNone, h ++ [ODistribution probs labels])) as Hc.
  { unfold _factor_to_variable_messages, get_data, get_probs,
      get_axes_labels, get_neighbors.
    rewrite bind_read, Hd, bind_read. unfold probs_of. rewrite Hdist.
    rewrite bind_read, Hd, bind_read. unfold axes_labels_of. rewrite Hdist.
    rewrite bind_alloc, bind_read.
    assert (neighbors_of factor (h ++ [ODistribution probs labels])
            = Ok neighbors) as ->.
    { revert Hnb. unfold neighbors_of, deref.
      destruct factor as [| |lf]; try done.
      destruct (h !! lf) as [o|] eqn:Hlf; [|done].
      by rewrite (lookup_app_l_Some _ _ _ _ Hlf). }
    unfold bind.
    by rewrite (scan_neighbors_names _ _ names vn _
                  (names_of_app _ _ _ _ Hnames) (name_of_app _ _ _ _ Hvn)). }
  rewrite factor_to_variable_message_unfold, Hfn, Hvn.
  unfold messages_of, deref. rewrite Hl, Hk, Hc.
  by rewrite (set_message_engine _ _ _ _ _ _ (lookup_app_l_Some _ _ _ _ Hl)).
Qed.

Lemma factor_to_variable_message_miss_witness :
  factor_to_variable_message (VRef 4) (VRef 3) (VRef 2) small_heap
  = (Ok VNone,
     [ONdarray (Ndarray [2] [0.2; 0.8]%float);
      ODistribution (VRef 0) ["h1"];
      ONode CVariable "h1" [VRef 3] None;
      ONode CFactor "p(h1)" [VRef 2] (Some (VRef 1));
      OMessages {[ ("p(h1)", "h1") := VNone ]} [("p(h1)", "h1")];
      ODistribution (VRef 0) ["h1"]]).
Proof.
  apply (factor_to_variable_message_miss 4 (VRef 3) (VRef 2) small_heap
           "p(h1)" "h1" ∅ [] (VRef 1) (VRef 0) ["h1"] [VRef 2] ["h1"]);
    reflexivity.
Defined.

(** *** The cache of an engine is its own *)

Lemma set_message_other self k m h l o :
  VRef l ≠ self → h !! l = Some o →
  (set_message self k m h).2 !! l = Some o.
Proof.
  intros Hne Hl. unfold set_message. destruct self as [| |ls]; try done.
  destruct (h !! ls) as [[| | |ms c]|] eqn:Hls; try done. simpl.
  rewrite list_lookup_insert_ne; [done|]. by intros ->.
Qed.

(** X29.  A request to an engine ([marginal],
    [variable_to_factor_messages], [factor_to_variable_message]) changes no
    object but that engine: the caches of other engines, the nodes and the
    tensors are afterwards what they were, whether the request returns or
    raises. *)
Theorem serve_changes_own_cache_only self r h l o :
  VRef l ≠ self → h !! l = Some o → (serve self r h).2 !! l = Some o.
Proof.
  intros Hne Hl. destruct r as [variable|variable factor|factor variable];
    simpl.
  - done.
  - rewrite variable_to_factor_messages_unfold.
    repeat (case_match; try done). simpl. by apply set_message_other.
  - rewrite factor_to_variable_message_unfold.
    repeat (case_match; try done); simpl;
      match goal with
      | H : _factor_to_variable_messages ?s ?f ?v h = (_, ?h') |- _ =>
          pose proof (_factor_to_variable_messages_extends s f v h) as Hext;
          rewrite H in Hext; simpl in Hext;
          pose proof (extends_lookup _ _ _ _ Hext Hl)
      end; [by apply set_message_other|done].
Qed.

Lemma serve_changes_own_cache_only_witness :
  (serve (VRef 2) (VariableToFactor (VRef 0) (VRef 1)) two_engines_heap).2
    !! 3
  = Some (OMessages {[ ("h1", "p(h1)") := VNone ]} [("h1", "p(h1)")]).
Proof.
  apply (serve_changes_own_cache_only (VRef 2)
           (VariableToFactor (VRef 0) (VRef 1)) two_engines_heap 3).
  - discriminate.
  - reflexivity.
Defined.
